(** * tscircuit-autorouter: segment point assignment and section extraction

    A shallow embedding of

    - [lib/solvers/CapacityMeshSolver/CapacitySegmentToPointSolver.ts]
    - [lib/solvers/CapacityPathingSectionSolver/CapacityPathingSingleSectionSolver.ts]

    JavaScript numbers are IEEE-754 binary64 values and are modelled by the
    kernel's primitive floats; arrays are lists; strings are held by the
    bytes of their UTF-8 encoding and ordered by their UTF-16 code units, as
    JavaScript orders them; objects that are mutated
    through several references live in an explicit store.  The two
    [visualize] methods and the field [colorMap] of the segment solver, which
    only they read, are left out: they build the debug graphics, whose labels
    print numbers and whose colours and groups are looked up in plain objects
    through the prototype chain. *)

From Stdlib Require Import Floats.PrimFloat Uint63.
From stdpp Require Import gmap strings list sorting.

Set Default Proof Using "Type".

(** ** JavaScript values and array primitives *)

Module JS.

(** A JavaScript [number]. *)
Abbreviation number := float (only parsing).

(** An integer counter (an array length or a loop index) as a number. *)
Definition of_nat (n : nat) : number :=
  PrimFloat.of_uint63 (Uint63.of_Z (Z.of_nat n)).

(** [Error] carries its message; [TypeError] is what reading a property of
    [undefined] raises. *)
Inductive exn : Type :=
  | Error (message : string)
  | TypeError.

Section Arrays.
Context {A : Type} `{EqDecision A}.

(** [Array.prototype.indexOf]: the first index holding [x], or [-1]. *)
Definition indexOf (x : A) (l : list A) : Z :=
  match list_find (x =.) l with
  | Some (i, _) => Z.of_nat i
  | None => (-1)%Z
  end.

(** [Array.prototype.splice(start, 1)]: a negative [start] counts from the
    end (clamped at 0), a [start] past the end deletes nothing. *)
Definition splice1 (start : Z) (l : list A) : list A :=
  let len := Z.of_nat (length l) in
  let actualStart :=
    if (start <? 0)%Z then Z.max (len + start) 0 else Z.min start len in
  delete (Z.to_nat actualStart) l.

(** [Array.prototype.push]. *)
Definition push (l : list A) (x : A) : list A := l ++ [x].

End Arrays.

(** A JavaScript string is a sequence of UTF-16 code units.  It is held
    here by the bytes of its UTF-8 encoding, as a string literal of this
    file is; [code_units] reads the code units back.

    [code_points]: the code points of a UTF-8 byte sequence, a lead byte
    with its one, two or three continuation bytes.  A continuation byte
    without a lead byte, and a lead byte at the end without its continuation
    bytes, are kept as they are: they occur in the encoding of no string. *)
Fixpoint code_points (s : string) : list N :=
  match s with
  | EmptyString => []
  | String a s1 =>
      let b := Ascii.N_of_ascii a in
      if (b <? 192)%N then b :: code_points s1
      else
        match s1 with
        | EmptyString => [b]
        | String a1 s2 =>
            let c1 := N.land (Ascii.N_of_ascii a1) 63 in
            if (b <? 224)%N
            then N.lor (N.shiftl (N.land b 31) 6) c1 :: code_points s2
            else
              match s2 with
              | EmptyString => [b]
              | String a2 s3 =>
                  let c2 := N.land (Ascii.N_of_ascii a2) 63 in
                  if (b <? 240)%N
                  then N.lor (N.shiftl (N.land b 15) 12)
                         (N.lor (N.shiftl c1 6) c2) :: code_points s3
                  else
                    match s3 with
                    | EmptyString => [b]
                    | String a3 s4 =>
                        let c3 := N.land (Ascii.N_of_ascii a3) 63 in
                        N.lor (N.shiftl (N.land b 7) 18)
                          (N.lor (N.shiftl c1 12) (N.lor (N.shiftl c2 6) c3))
                        :: code_points s4
                    end
              end
        end
  end.

(** The UTF-16 code units of a code point: itself below U+10000, a high and
    a low surrogate from there on. *)
Definition utf16 (cp : N) : list N :=
  if (cp <? 65536)%N then [cp]
  else [ (55296 + N.shiftr (cp - 65536) 10)%N;
         (56320 + N.land (cp - 65536) 1023)%N ].

Definition code_units (s : string) : list N :=
  flat_map utf16 (code_points s).

(** The comparison of two strings ([x < y] on strings): code unit by code
    unit, a proper prefix before the longer string. *)
Fixpoint units_ltb (u v : list N) : bool :=
  match u, v with
  | _, [] => false
  | [], _ :: _ => true
  | a :: u, b :: v =>
      if (a <? b)%N then true
      else if (b <? a)%N then false
      else units_ltb u v
  end.

Definition string_ltb (x y : string) : bool :=
  units_ltb (code_units x) (code_units y).

(** The order of the default comparison of [sort]: [y] is not less than
    [x]. *)
Definition string_le (x y : string) : Prop := string_ltb y x = false.

#[global] Instance string_le_dec : RelDecision string_le :=
  λ x y, decide (string_ltb y x = false).

(** [Array.prototype.sort()] on strings: without a comparison function the
    elements are ordered as strings, by their UTF-16 code units; the sort
    is stable. *)
Definition sort (l : list string) : list string := merge_sort string_le l.

End JS.

(** ** Shared data types

    Modelled from the spec: the type declarations of [lib/types] are not
    among the sources.  The records below keep the fields that the two
    solvers read, under the names the sources use for them. *)

(** [{ x: number; y: number }] *)
Module Point.
Record t : Type := mk { x : JS.number; y : JS.number }.
End Point.

(** [{ x: number; y: number; z: number }], where [z] is read from
    [availableZ[0]]: [undefined] (here [None]) when the layer list is
    empty. *)
Module Point3.
Record t : Type := mk { x : JS.number; y : JS.number; z : option JS.number }.
End Point3.

Abbreviation CapacityMeshNodeId := string (only parsing).

(** Modelled from the spec: a Mesh Node has an identity, a centre
    coordinate, a width and a height. *)
Record CapacityMeshNode : Type := {
  capacityMeshNodeId : CapacityMeshNodeId;
  center : Point.t;
  width : JS.number;
  height : JS.number;
}.

(** Modelled from the spec: a Node Port Segment belongs to one mesh node
    ([capacityMeshNodeId], here [seg_capacityMeshNodeId]) and has a start
    and an end coordinate, a list of candidate layers and the names of the
    connections that need a point on it. *)
Record NodePortSegment : Type := {
  seg_capacityMeshNodeId : CapacityMeshNodeId;
  start : Point.t;
  end_ : Point.t;
  availableZ : list JS.number;
  connectionNames : list string;
}.

(** An entry of [assignedPoints] (lines 8-11 of the segment solver). *)
Record AssignedPoint : Type := {
  connectionName : string;
  point : Point3.t;
}.

(** An entry of [portPoints]: [{ ...ap.point, connectionName }]
    (lines 163-166). *)
Module PortPoint.
Record t : Type := mk {
  x : JS.number;
  y : JS.number;
  z : option JS.number;
  connectionName : string;
}.
End PortPoint.

(** The entries [getNodesWithPortPoints] returns (lines 154-160). *)
Module NodeWithPortPoints.
Record t : Type := mk {
  capacityMeshNodeId : CapacityMeshNodeId;
  portPoints : list PortPoint.t;
  center : Point.t;
  width : JS.number;
  height : JS.number;
}.
End NodeWithPortPoints.

(** ** CapacitySegmentToPointSolver *)

Module CapacitySegmentToPointSolver.

(** A reference to a segment object.  The solver keeps references to the
    caller's objects in two arrays and adds the property [assignedPoints] to
    the objects themselves, so the objects are kept in a store: the fields
    of [NodePortSegment], which are never written, in [objects], and the
    added property in [assignedPoints] (absent key: the object has no such
    property). *)
Abbreviation ref := nat (only parsing).

Record t : Type := mk {
  objects : ref -> NodePortSegment;
  assignedPoints : gmap ref (list AssignedPoint);
  unsolvedSegments : list ref;
  solvedSegments : list ref;
  nodeMap : gmap string CapacityMeshNode;
  solved : bool;
  failed : bool;
}.

Definition set_assignedPoints (seg : ref) (aps : list AssignedPoint) (s : t) : t :=
  mk (objects s) (<[seg := aps]> (assignedPoints s)) (unsolvedSegments s)
     (solvedSegments s) (nodeMap s) (solved s) (failed s).

Definition set_unsolvedSegments (l : list ref) (s : t) : t :=
  mk (objects s) (assignedPoints s) l (solvedSegments s) (nodeMap s)
     (solved s) (failed s).

Definition set_solvedSegments (l : list ref) (s : t) : t :=
  mk (objects s) (assignedPoints s) (unsolvedSegments s) l (nodeMap s)
     (solved s) (failed s).

Definition set_solved (b : bool) (s : t) : t :=
  mk (objects s) (assignedPoints s) (unsolvedSegments s) (solvedSegments s)
     (nodeMap s) b (failed s).

(** [Object.fromEntries(nodes.map((node) => [node.capacityMeshNodeId, node]))]:
    a later node with the same identity replaces an earlier one.  The finite
    map holds the own properties of the object; [nodeMap[id]] also finds the
    members every object inherits ([constructor], [toString], ...), so an
    identity that names one of them and belongs to no node is outside this
    model ([Object_prototype_names] below). *)
Definition nodeMap_of (nodes : list CapacityMeshNode) : gmap string CapacityMeshNode :=
  foldl (fun m node => <[capacityMeshNodeId node := node]> m) ∅ nodes.

(** The constructor (lines 43-64).  [segments] is the caller's array of
    segment objects (references into [objs]); the objects are
    [NodePortSegment]s, so none has the property [assignedPoints] yet.  The
    constructor keeps the caller's objects as they are: over objects that
    carry [assignedPoints] from an earlier use, the solver starts in the
    state with these entries in [assignedPoints]; what is proved of [_step]
    for every state covers it. *)
Definition new (objs : ref -> NodePortSegment) (segments : list ref)
    (nodes : list CapacityMeshNode) : t :=
  {| objects := objs;
     assignedPoints := ∅;
     unsolvedSegments := segments;
     solvedSegments := [];
     nodeMap := nodeMap_of nodes;
     solved := false;
     failed := false |}.

(** ["assignedPoints" in seg && seg.assignedPoints?.length === n] (line 78) *)
Definition already_processed (s : t) (seg : ref) (n : nat) : bool :=
  match assignedPoints s !! seg with
  | Some aps => bool_decide (length aps = n)
  | None => false
  end.

(** The centre assigned to a single connection (lines 82-86). *)
Definition center_of (o : NodePortSegment) : Point3.t :=
  {| Point3.x := ((Point.x (start o) + Point.x (end_ o)) / 2)%float;
     Point3.y := ((Point.y (start o) + Point.y (end_ o)) / 2)%float;
     Point3.z := head (availableZ o) |}.

(** Move [seg] from [unsolvedSegments] to [solvedSegments]
    (lines 91-92 and 129-130). *)
Definition move_to_solved (seg : ref) (s : t) : t :=
  let s := set_unsolvedSegments
             (JS.splice1 (JS.indexOf seg (unsolvedSegments s)) (unsolvedSegments s)) s in
  set_solvedSegments (JS.push (solvedSegments s) seg) s.

(** One iteration of the first loop (lines 75-95); the accumulator is the
    solver and the local [updated]. *)
Definition phaseA_iter (acc : t * bool) (seg : ref) : t * bool :=
  let s := acc.1 in
  let o := objects s seg in
  let n := length (connectionNames o) in
  if already_processed s seg n then acc
  else
    match connectionNames o with
    | [name] =>  (* n === 1, and [name] is connectionNames[0] *)
        let s := set_assignedPoints seg
                   [ {| connectionName := name; point := center_of o |} ] s in
        (move_to_solved seg s, true)
    | _ => acc
    end.

(** The first loop, over the copy [unsolved] of [unsolvedSegments]. *)
Definition phaseA (s : t) (unsolved : list ref) : t * bool :=
  foldl phaseA_iter (s, false) unsolved.

(** Lines 100-105: the segment with the fewest connections. *)
Definition fewer (objs : ref -> NodePortSegment) (candidate seg : ref) : ref :=
  if bool_decide (length (connectionNames (objs seg))
                  < length (connectionNames (objs candidate)))
  then seg else candidate.

Definition pick_candidate (objs : ref -> NodePortSegment)
    (first : ref) (unsolved : list ref) : ref :=
  foldl (fewer objs) first unsolved.

(** Lines 114-121: the [i]-th of [n] evenly spaced points. *)
Definition spaced_point (o : NodePortSegment) (n i : nat) : Point3.t :=
  let dx := (Point.x (end_ o) - Point.x (start o))%float in
  let dy := (Point.y (end_ o) - Point.y (start o))%float in
  let fraction := (JS.of_nat i / JS.of_nat (n + 1))%float in
  {| Point3.x := (Point.x (start o) + dx * fraction)%float;
     Point3.y := (Point.y (start o) + dy * fraction)%float;
     Point3.z := head (availableZ o) |}.

Definition spaced_points (o : NodePortSegment) (n : nat) : list Point3.t :=
  spaced_point o n <$> seq 1 n.

(** Lines 108-127: the assignment of the fallback.  [points] has as many
    entries as [sortedConnections], so [points[idx]] is always defined. *)
Definition fallback_assignment (o : NodePortSegment) : list AssignedPoint :=
  let sortedConnections := JS.sort (connectionNames o) in
  let n := length sortedConnections in
  let points := spaced_points o n in
  zip_with (fun conn p => {| connectionName := conn; point := p |})
           sortedConnections points.

(** Lines 98-132, entered when [updated] is false; [unsolved.length > 0] is
    the second half of the guard. *)
Definition phaseB (s : t) (unsolved : list ref) : t :=
  match unsolved with
  | [] => s
  | first :: _ =>
      let candidate := pick_candidate (objects s) first unsolved in
      let s := set_assignedPoints candidate
                 (fallback_assignment (objects s candidate)) s in
      move_to_solved candidate s
  end.

(** [_step] (lines 69-138). *)
Definition _step (s : t) : t :=
  let unsolved := unsolvedSegments s in
  let '(s, updated) := phaseA s unsolved in
  let s := if negb updated then phaseB s unsolved else s in
  if bool_decide (length (unsolvedSegments s) = 0) then set_solved true s else s.

(** Modelled from the spec: [BaseSolver.step] is not among the sources; by
    the Stepwise Solver Contract it performs one unit of work ([_step]) and
    is a no-op once a terminal state is reached. *)
Definition step (s : t) : t :=
  if solved s || failed s then s else _step s.

(** [{ ...ap.point, connectionName: ap.connectionName }] *)
Definition portPoint_of (ap : AssignedPoint) : PortPoint.t :=
  {| PortPoint.x := Point3.x (point ap);
     PortPoint.y := Point3.y (point ap);
     PortPoint.z := Point3.z (point ap);
     PortPoint.connectionName := connectionName ap |}.

(** The local [map] of [getNodesWithPortPoints]: a JavaScript [Map], which
    keeps its entries in insertion order, one per key. *)
Definition Map_has (nodeId : string) (map : list (string * NodeWithPortPoints.t)) : bool :=
  bool_decide (nodeId ∈ map.*1).

(** [map.get(nodeId)!.portPoints.push(...pts)] *)
Definition Map_push_portPoints (nodeId : string) (pts : list PortPoint.t)
    (map : list (string * NodeWithPortPoints.t)) : list (string * NodeWithPortPoints.t) :=
  (fun kv : string * NodeWithPortPoints.t =>
     if bool_decide (kv.1 = nodeId)
     then (kv.1, NodeWithPortPoints.mk
                   (NodeWithPortPoints.capacityMeshNodeId kv.2)
                   (NodeWithPortPoints.portPoints kv.2 ++ pts)
                   (NodeWithPortPoints.center kv.2)
                   (NodeWithPortPoints.width kv.2)
                   (NodeWithPortPoints.height kv.2))
     else kv) <$> map.

(** One iteration of the loop of lines 150-168.  Reading [node.center] when
    [nodeMap] has no entry for the segment's node, and reading
    [seg.assignedPoints.map] when the object has no assigned points, raise a
    [TypeError]. *)
Definition add_segment (s : t) (map : list (string * NodeWithPortPoints.t))
    (seg : ref) : JS.exn + list (string * NodeWithPortPoints.t) :=
  let nodeId := seg_capacityMeshNodeId (objects s seg) in
  let node := nodeMap s !! nodeId in
  let map' :=
    if Map_has nodeId map then inr map
    else
      match node with
      | Some node =>
          inr (map ++ [(nodeId,
                        {| NodeWithPortPoints.capacityMeshNodeId := nodeId;
                           NodeWithPortPoints.portPoints := [];
                           NodeWithPortPoints.center := center node;
                           NodeWithPortPoints.width := width node;
                           NodeWithPortPoints.height := height node |})])
      | None => inl JS.TypeError
      end in
  match map' with
  | inl e => inl e
  | inr map =>
      match assignedPoints s !! seg with
      | Some aps => inr (Map_push_portPoints nodeId (portPoint_of <$> aps) map)
      | None => inl JS.TypeError
      end
  end.

Definition not_solved_message : string :=
  "CapacitySegmentToPointSolver not solved, can't give port points yet".

(** [getNodesWithPortPoints] (lines 143-170). *)
Definition getNodesWithPortPoints (s : t) : JS.exn + list NodeWithPortPoints.t :=
  if negb (solved s) then inl (JS.Error not_solved_message)
  else
    match
      foldl (fun acc seg =>
               match acc with
               | inl e => inl e
               | inr map => add_segment s map seg
               end)
            (inr []) (solvedSegments s)
    with
    | inl e => inl e
    | inr map => inr (map.*2)  (* Array.from(map.values()) *)
    end.

End CapacitySegmentToPointSolver.

(** ** CapacityPathingSingleSectionSolver *)

Module CapacityPathingSingleSectionSolver.

(** Modelled from the spec: a Mesh Edge is a pair of node identities
    ([nodeIds]). *)
Record CapacityMeshEdge : Type := {
  capacityMeshEdgeId : string;
  nodeIds : CapacityMeshNodeId * CapacityMeshNodeId;
}.

(** The connection of a path; the solver reads [conn.connection.name]. *)
Record SimpleRouteConnection : Type := { name : string }.

(** Modelled from the spec: a Connection Path is the connection with the
    sequence of mesh nodes of its route; [path] is tested before use
    (line 109), so it is an optional field. *)
Record ConnectionPathWithNodes : Type := {
  connection : SimpleRouteConnection;
  path : option (list CapacityMeshNode);
}.

(** The hyperparameter this solver reads (line 52); a hop radius counts
    hops. *)
Record CpssPathingSolverHyperParameters : Type := {
  EXPANSION_DEGREES : option nat;
}.

(** An entry of [sectionConnectionTerminals] (lines 34-38). *)
Record Terminal : Type := {
  connectionName : string;
  startNodeId : CapacityMeshNodeId;
  endNodeId : CapacityMeshNodeId;
}.

(** [CapacityPathingSingleSectionSolverInput] (lines 14-21). *)
Record CapacityPathingSingleSectionSolverInput : Type := {
  in_centerNodeId : CapacityMeshNodeId;
  in_connectionsWithNodes : list ConnectionPathWithNodes;
  in_nodes : list CapacityMeshNode;
  in_edges : list CapacityMeshEdge;
  in_colorMap : gmap string string;
  in_hyperParameters : option CpssPathingSolverHyperParameters;
}.

(** What the sub-solver is constructed with (lines 61-67).  An entry of
    [sectionNodes] is [None] when [nodeMap.get(id)] is [undefined]. *)
Record SubSolverInput : Type := {
  sub_sectionConnectionTerminals : list Terminal;
  sub_sectionNodes : list (option CapacityMeshNode);
  sub_sectionEdges : list CapacityMeshEdge;
  sub_colorMap : gmap string string;
  sub_hyperParameters : option CpssPathingSolverHyperParameters;
}.

(** Modelled from the spec: [HyperCapacityPathingSingleSectionPathingSolver]
    is not among the sources.  This solver uses its constructor, [step()]
    and the fields [solved], [failed] and [error], which is the Section
    Sub-Solver contract of the spec. *)
Class SubSolver (S : Type) : Type := {
  sub_new : SubSolverInput -> S;
  sub_step : S -> S;
  sub_solved : S -> bool;
  sub_failed : S -> bool;
  sub_error : S -> option string;
}.

(** Modelled from the spec: [getNodeEdgeMap] (lib/solvers/CapacityMeshSolver)
    is not among the sources.  It gives the adjacency implied by the mesh
    edges: each node identity is mapped to the edges that name it, in the
    order of the edge list, once for each of the edge's two ends. *)
Definition getNodeEdgeMap (edges : list CapacityMeshEdge)
    : gmap CapacityMeshNodeId (list CapacityMeshEdge) :=
  foldl (fun m edge =>
           foldl (fun m nodeId => <[nodeId := default [] (m !! nodeId) ++ [edge]]> m)
                 m [(nodeIds edge).1; (nodeIds edge).2])
        ∅ edges.

(** The state of the breadth-first traversal (lines 71-77).  A JavaScript
    [Set] keeps its elements in insertion order without repeats. *)
Record bfs : Type := {
  sectionNodeIds : list CapacityMeshNodeId;
  queue : list (CapacityMeshNodeId * nat);
  head : nat;
}.

(** Lines 83-86. *)
Definition neighbors_of (nodeEdgeMap : gmap CapacityMeshNodeId (list CapacityMeshEdge))
    (nodeId : CapacityMeshNodeId) : list CapacityMeshNodeId :=
  match nodeEdgeMap !! nodeId with
  | Some es =>
      flat_map (fun edge =>
                  filter (fun id => id ≠ nodeId) [(nodeIds edge).1; (nodeIds edge).2]) es
  | None => []
  end.

(** Lines 88-93. *)
Definition visit (depth : nat) (b : bfs) (neighborId : CapacityMeshNodeId) : bfs :=
  if bool_decide (neighborId ∈ sectionNodeIds b) then b
  else {| sectionNodeIds := sectionNodeIds b ++ [neighborId];
          queue := queue b ++ [(neighborId, depth + 1)];
          head := head b |}.

(** The body of the [while] loop (lines 79-93) for the entry
    [{ nodeId, depth }] read at [queue[head++]]. *)
Definition bfs_body (nodeEdgeMap : gmap CapacityMeshNodeId (list CapacityMeshEdge))
    (expansionDegrees : nat) (b : bfs)
    (nodeId : CapacityMeshNodeId) (depth : nat) : bfs :=
  let b := {| sectionNodeIds := sectionNodeIds b;
              queue := queue b;
              head := head b + 1 |} in
  if bool_decide (expansionDegrees ≤ depth) then b  (* continue *)
  else foldl (visit depth) b (neighbors_of nodeEdgeMap nodeId).

(** The [while] loop of lines 78-94, with a bound on the number of
    iterations; [None] stands for a loop that has not ended within it. *)
Fixpoint bfs_loop (nodeEdgeMap : gmap CapacityMeshNodeId (list CapacityMeshEdge))
    (expansionDegrees : nat) (fuel : nat) (b : bfs) : option bfs :=
  match fuel with
  | 0 => None
  | S fuel =>
      match queue b !! head b with
      | None => Some b  (* head >= queue.length *)
      | Some (nodeId, depth) =>
          bfs_loop nodeEdgeMap expansionDegrees fuel
            (bfs_body nodeEdgeMap expansionDegrees b nodeId depth)
      end
  end.

(** Lines 71-94.  Every identity is enqueued at most once, and each is the
    focus node or an end of an edge, so [2 * length edges + 2] iterations
    are enough ([bfs_loop_terminates] below). *)
Definition computeSectionNodeIds
    (nodeEdgeMap : gmap CapacityMeshNodeId (list CapacityMeshEdge))
    (edges : list CapacityMeshEdge)
    (centerNodeId : CapacityMeshNodeId) (expansionDegrees : nat)
    : option (list CapacityMeshNodeId) :=
  sectionNodeIds <$>
    bfs_loop nodeEdgeMap expansionDegrees (2 * length edges + 2)
      {| sectionNodeIds := [centerNodeId];
         queue := [(centerNodeId, 0)];
         head := 0 |}.

(** Lines 101-104. *)
Definition computeSectionEdges (sectionNodeIds : list CapacityMeshNodeId)
    (edges : list CapacityMeshEdge) : list CapacityMeshEdge :=
  filter (fun edge =>
            let '(nodeIdA, nodeIdB) := nodeIds edge in
            nodeIdA ∈ sectionNodeIds ∧ nodeIdB ∈ sectionNodeIds) edges.

(** Lines 115-120: the first node of the path within the section. *)
Definition find_start (sectionNodeIds : list CapacityMeshNodeId)
    (path : list CapacityMeshNode) : option CapacityMeshNodeId :=
  (fun r => capacityMeshNodeId r.2) <$>
    list_find (fun node => capacityMeshNodeId node ∈ sectionNodeIds) path.

(** Lines 123-129: the same scan from the last index down to 0. *)
Definition find_end (sectionNodeIds : list CapacityMeshNodeId)
    (path : list CapacityMeshNode) : option CapacityMeshNodeId :=
  find_start sectionNodeIds (reverse path).

(** The truthiness of a [CapacityMeshNodeId | null]: [null] and the empty
    string are falsy. *)
Definition truthy (v : option CapacityMeshNodeId) : bool :=
  match v with
  | Some id => negb (bool_decide (id = EmptyString))
  | None => false
  end.

(** The body of the loop over connections (lines 108-138): the terminals
    pushed for [conn]. *)
Definition terminals_of (sectionNodeIds : list CapacityMeshNodeId)
    (conn : ConnectionPathWithNodes) : list Terminal :=
  match path conn with
  | None => []  (* if (!conn.path) continue *)
  | Some p =>
      let start := find_start sectionNodeIds p in
      let end_ := find_end sectionNodeIds p in
      match start, end_ with
      | Some startNodeId, Some endNodeId =>
          if truthy start && truthy end_
          then [ {| connectionName := name (connection conn);
                    startNodeId := startNodeId;
                    endNodeId := endNodeId |} ]
          else []
      | _, _ => []  (* a null is falsy *)
      end
  end.

(** Lines 107-138. *)
Definition computeTerminals (sectionNodeIds : list CapacityMeshNodeId)
    (connectionsWithNodes : list ConnectionPathWithNodes) : list Terminal :=
  foldl (fun terminals conn => terminals ++ terminals_of sectionNodeIds conn)
        [] connectionsWithNodes.

Section Solver.
Context {S : Type} `{SubSolver S}.

Record t : Type := mk {
  centerNodeId : CapacityMeshNodeId;
  connectionsWithNodes : list ConnectionPathWithNodes;
  nodes : list CapacityMeshNode;
  nodeMap : gmap CapacityMeshNodeId CapacityMeshNode;
  edges : list CapacityMeshEdge;
  nodeEdgeMap : gmap CapacityMeshNodeId (list CapacityMeshEdge);
  expansionDegrees : nat;
  colorMap : gmap string string;
  sectionNodes : list (option CapacityMeshNode);
  sectionEdges : list CapacityMeshEdge;
  sectionConnectionTerminals : list Terminal;
  activeSubSolver : option S;
  solved : bool;
  failed : bool;
  error : option string;
}.

(** [new Map(this.nodes.map((n) => [n.capacityMeshNodeId, n]))] *)
Definition nodeMap_of (nodes : list CapacityMeshNode)
    : gmap CapacityMeshNodeId CapacityMeshNode :=
  foldl (fun m n => <[capacityMeshNodeId n := n]> m) ∅ nodes.

(** [computeSectionNodesTerminalsAndEdges] (lines 70-139). *)
Definition computeSectionNodesTerminalsAndEdges (s : t) : option t :=
  ids ← computeSectionNodeIds (nodeEdgeMap s) (edges s) (centerNodeId s)
          (expansionDegrees s);
  Some (mk (centerNodeId s) (connectionsWithNodes s) (nodes s) (nodeMap s)
           (edges s) (nodeEdgeMap s) (expansionDegrees s) (colorMap s)
           ((fun id => nodeMap s !! id) <$> ids)
           (computeSectionEdges ids (edges s))
           (computeTerminals ids (connectionsWithNodes s))
           (activeSubSolver s) (solved s) (failed s) (error s)).

(** The constructor (lines 41-68). *)
Definition new (params : CapacityPathingSingleSectionSolverInput) : option t :=
  let s :=
    {| centerNodeId := in_centerNodeId params;
       connectionsWithNodes := in_connectionsWithNodes params;
       nodes := in_nodes params;
       nodeMap := nodeMap_of (in_nodes params);
       edges := in_edges params;
       nodeEdgeMap := getNodeEdgeMap (in_edges params);
       expansionDegrees :=
         default 3 (in_hyperParameters params ≫= EXPANSION_DEGREES);
       colorMap := in_colorMap params;
       sectionNodes := [];
       sectionEdges := [];
       sectionConnectionTerminals := [];
       activeSubSolver := None;
       solved := false;
       failed := false;
       error := None |} in
  s ← computeSectionNodesTerminalsAndEdges s;
  Some (mk (centerNodeId s) (connectionsWithNodes s) (nodes s) (nodeMap s)
           (edges s) (nodeEdgeMap s) (expansionDegrees s) (colorMap s)
           (sectionNodes s) (sectionEdges s) (sectionConnectionTerminals s)
           (Some (sub_new
                    {| sub_sectionConnectionTerminals := sectionConnectionTerminals s;
                       sub_sectionNodes := sectionNodes s;
                       sub_sectionEdges := sectionEdges s;
                       sub_colorMap := colorMap s;
                       sub_hyperParameters := in_hyperParameters params |}))
           (solved s) (failed s) (error s)).

Definition set_activeSubSolver (sub : option S) (s : t) : t :=
  mk (centerNodeId s) (connectionsWithNodes s) (nodes s) (nodeMap s)
     (edges s) (nodeEdgeMap s) (expansionDegrees s) (colorMap s)
     (sectionNodes s) (sectionEdges s) (sectionConnectionTerminals s)
     sub (solved s) (failed s) (error s).

Definition set_solved (b : bool) (s : t) : t :=
  mk (centerNodeId s) (connectionsWithNodes s) (nodes s) (nodeMap s)
     (edges s) (nodeEdgeMap s) (expansionDegrees s) (colorMap s)
     (sectionNodes s) (sectionEdges s) (sectionConnectionTerminals s)
     (activeSubSolver s) b (failed s) (error s).

Definition set_failed (b : bool) (e : option string) (s : t) : t :=
  mk (centerNodeId s) (connectionsWithNodes s) (nodes s) (nodeMap s)
     (edges s) (nodeEdgeMap s) (expansionDegrees s) (colorMap s)
     (sectionNodes s) (sectionEdges s) (sectionConnectionTerminals s)
     (activeSubSolver s) (solved s) b e.

(** [_step] (lines 141-152). *)
Definition _step (s : t) : t :=
  (* this.activeSubSolver?.step() *)
  let s := set_activeSubSolver (sub_step <$> activeSubSolver s) s in
  if from_option sub_solved false (activeSubSolver s)
  then set_solved true s
  else
    match activeSubSolver s with
    | Some sub =>
        if sub_failed sub then set_failed true (sub_error sub) s else s
    | None => s
    end.

(** Modelled from the spec: [BaseSolver.step] is not among the sources; by
    the Stepwise Solver Contract it performs one unit of work ([_step]) and
    is a no-op once a terminal state is reached. *)
Definition step (s : t) : t :=
  if solved s || failed s then s else _step s.

(** The object of [getConstructorParams] (lines 157-161): it has the key
    [expansionDegrees] and neither [hyperParameters] nor [colorMap]. *)
Record ConstructorParams : Type := {
  cp_centerNodeId : CapacityMeshNodeId;
  cp_connectionsWithNodes : list ConnectionPathWithNodes;
  cp_nodes : list CapacityMeshNode;
  cp_edges : list CapacityMeshEdge;
  cp_expansionDegrees : nat;
}.

(** [getConstructorParams] (lines 154-164): an array of one object. *)
Definition getConstructorParams (s : t) : list ConstructorParams :=
  [ {| cp_centerNodeId := centerNodeId s;
       cp_connectionsWithNodes := connectionsWithNodes s;
       cp_nodes := nodes s;
       cp_edges := edges s;
       cp_expansionDegrees := expansionDegrees s |} ].

End Solver.

End CapacityPathingSingleSectionSolver.
(** * Specification-level notions *)

Module SegmentToPointSpec.
Import CapacitySegmentToPointSolver.

(** How many times the array [l] holds the reference [x]. *)
Definition occurrences (x : nat) (l : list nat) : nat :=
  length (filter (x =.) l).

(** The number of connection names of the object behind [seg]. *)
Definition name_count (s : t) (seg : nat) : nat :=
  length (connectionNames (objects s seg)).

(** The first loop of [_step] assigns to [seg]: it has exactly one
    connection name and is not taken for already processed. *)
Definition qualifies (s : t) (seg : nat) : bool :=
  negb (already_processed s seg (name_count s seg))
  && bool_decide (name_count s seg = 1).

(** The assignment the first loop makes for a single-connection segment:
    its one connection at the midpoint of [start] and [end], on the first
    available layer. *)
Definition midpoint_assignment (o : NodePortSegment) : list AssignedPoint :=
  match connectionNames o with
  | name :: _ =>
      [ {| connectionName := name;
           point :=
             {| Point3.x := ((Point.x (start o) + Point.x (end_ o)) / 2)%float;
                Point3.y := ((Point.y (start o) + Point.y (end_ o)) / 2)%float;
                Point3.z := head (availableZ o) |} |} ]
  | [] => []
  end.

(** The point at the fraction [i / (n + 1)] of the way from [start] to
    [end], on the first available layer. *)
Definition point_at_fraction (o : NodePortSegment) (i n : nat) : Point3.t :=
  {| Point3.x :=
       (Point.x (start o)
        + (Point.x (end_ o) - Point.x (start o)) * (JS.of_nat i / JS.of_nat (n + 1)))%float;
     Point3.y :=
       (Point.y (start o)
        + (Point.y (end_ o) - Point.y (start o)) * (JS.of_nat i / JS.of_nat (n + 1)))%float;
     Point3.z := head (availableZ o) |}.

(** Lexicographic order of sequences of code units: the first code unit
    at which the two differ is smaller in the first, or the first is a
    prefix of the second. *)
Inductive units_le : list N → list N → Prop :=
  | units_le_nil v : units_le [] v
  | units_le_lt a b u v : (a < b)%N → units_le (a :: u) (b :: v)
  | units_le_eq a u v : units_le u v → units_le (a :: u) (a :: v).

(** Lexicographic order of strings by UTF-16 code unit. *)
Definition lex_le (x y : string) : Prop :=
  units_le (JS.code_units x) (JS.code_units y).

(** The consistency of the two arrays during the first loop over the
    remaining snapshot [l]: a segment still to be assigned is still in
    [unsolvedSegments]. *)
Definition snapshot_ok (s : t) (l : list nat) : Prop :=
  ∀ seg, seg ∈ l → qualifies s seg = true → seg ∈ unsolvedSegments s.

(** The mesh node a segment belongs to. *)
Definition owner (s : t) (seg : nat) : string :=
  seg_capacityMeshNodeId (objects s seg).

(** The port points of node [nodeId] contributed by the segments of [l]: the
    assigned points of each segment of [l] that belongs to the node, each
    flattened with its connection name, in the order of [l]. *)
Definition node_port_points (s : t) (nodeId : string) (l : list nat)
    : list PortPoint.t :=
  concat ((λ seg, portPoint_of <$> default [] (assignedPoints s !! seg))
            <$> filter (λ seg, owner s seg = nodeId) l).

(** An entry of the result for the segments [l]: the node's identity, the
    geometry recorded for that identity in [nodeMap], and the node's port
    points. *)
Definition entry_ok (s : t) (l : list nat) (r : NodeWithPortPoints.t) : Prop :=
  (∃ node, nodeMap s !! NodeWithPortPoints.capacityMeshNodeId r = Some node
     ∧ NodeWithPortPoints.center r = center node
     ∧ NodeWithPortPoints.width r = width node
     ∧ NodeWithPortPoints.height r = height node)
  ∧ NodeWithPortPoints.portPoints r
    = node_port_points s (NodeWithPortPoints.capacityMeshNodeId r) l.

(** The local [map] of [getNodesWithPortPoints] after the segments [l]. *)
Definition map_ok (s : t) (l : list nat)
    (map : list (string * NodeWithPortPoints.t)) : Prop :=
  NoDup map.*1
  ∧ (∀ nodeId, nodeId ∈ map.*1 ↔ ∃ seg, seg ∈ l ∧ owner s seg = nodeId)
  ∧ Forall (λ kv, NodeWithPortPoints.capacityMeshNodeId kv.2 = kv.1
                  ∧ entry_ok s l kv.2) map.

(** [pp] is the port point of the assigned point [ap]: the coordinates of
    its point with its connection name. *)
Definition port_point_of_assigned (pp : PortPoint.t) (ap : AssignedPoint) : Prop :=
  PortPoint.x pp = Point3.x (point ap)
  ∧ PortPoint.y pp = Point3.y (point ap)
  ∧ PortPoint.z pp = Point3.z (point ap)
  ∧ PortPoint.connectionName pp = connectionName ap.

(** The assigned points of the segments of [l] that belong to the node
    [nodeId], segment after segment in the order of [l]. *)
Definition node_assigned_points (s : t) (nodeId : string) (l : list nat)
    : list AssignedPoint :=
  concat ((λ seg, default [] (assignedPoints s !! seg))
            <$> filter (λ seg, owner s seg = nodeId) l).

(** What [getNodesWithPortPoints] returns for a solver built from [objs],
    [segments] and [nodes]: one entry for each mesh node that owns a segment,
    with that node's identity, centre, width and height and, for the
    assigned points of all of the node's segments in order, one port point
    each: the point's coordinates with the connection name; every segment is
    among the solved ones and has its assigned points. *)
Definition port_points_result (objs : nat → NodePortSegment)
    (segments : list nat) (nodes : list CapacityMeshNode) (s : t)
    (res : list NodeWithPortPoints.t) : Prop :=
  NoDup (NodeWithPortPoints.capacityMeshNodeId <$> res)
  ∧ (∀ nodeId, nodeId ∈ NodeWithPortPoints.capacityMeshNodeId <$> res
               ↔ ∃ seg, seg ∈ segments ∧ seg_capacityMeshNodeId (objs seg) = nodeId)
  ∧ (∀ r, r ∈ res →
       ∃ node, node ∈ nodes
         ∧ capacityMeshNodeId node = NodeWithPortPoints.capacityMeshNodeId r
         ∧ NodeWithPortPoints.center r = center node
         ∧ NodeWithPortPoints.width r = width node
         ∧ NodeWithPortPoints.height r = height node
         ∧ Forall2 port_point_of_assigned
             (NodeWithPortPoints.portPoints r)
             (node_assigned_points s (NodeWithPortPoints.capacityMeshNodeId r)
                (solvedSegments s)))
  ∧ (∀ seg, seg ∈ segments →
       seg ∈ solvedSegments s ∧ is_Some (assignedPoints s !! seg)).

(** What the first loop does to a segment that qualifies. *)
Definition process (seg : nat) (s : t) : t :=
  move_to_solved seg
    (set_assignedPoints seg (midpoint_assignment (objects s seg)) s).

(** Whether the first loop, run over [l], assigns to [x]. *)
Definition touched (s : t) (l : list nat) (x : nat) : bool :=
  bool_decide (x ∈ l) && qualifies s x.

(** Lines 135-137. *)
Definition finish (s : t) : t :=
  if bool_decide (length (unsolvedSegments s) = 0) then set_solved true s else s.

(** The solver after [k] calls of [step]. *)
Definition run (objs : nat → NodePortSegment) (segments : list nat)
    (nodes : list CapacityMeshNode) (k : nat) : t :=
  Nat.iter k step (new objs segments nodes).

(** The claim C3 as it is stated: every call of [step] on a solver that is
    not solved shrinks [unsolvedSegments], and [solved] is reached within
    [length segments] calls. *)
Definition progress_as_stated (objs : nat → NodePortSegment)
    (segments : list nat) (nodes : list CapacityMeshNode) : Prop :=
  (∀ k, solved (run objs segments nodes k) = false →
        length (unsolvedSegments (run objs segments nodes (S k)))
        < length (unsolvedSegments (run objs segments nodes k)))
  ∧ ∃ k, k ≤ length segments ∧ solved (run objs segments nodes k) = true.

(** The solver after [k] calls of [_step]. *)
Definition steps (objs : nat → NodePortSegment) (segments : list nat)
    (nodes : list CapacityMeshNode) (k : nat) : t :=
  Nat.iter k _step (new objs segments nodes).

(** The assigned points give each connection of the segment one point, on
    the segment's first available layer. *)
Definition one_point_per_connection (o : NodePortSegment)
    (aps : list AssignedPoint) : Prop :=
  connectionName <$> aps ≡ₚ connectionNames o
  ∧ Forall (λ ap, Point3.z (point ap) = head (availableZ o)) aps.

(** The unsolved segments the first loop of the next [_step] assigns: those
    with exactly one connection name that do not carry exactly one assigned
    point already ([qualifies]); and the other unsolved segments, which are
    left to the fallback.  Both in the order of [unsolvedSegments]. *)
Definition first_loop_segments (s : t) : list nat :=
  filter (λ seg, qualifies s seg = true) (unsolvedSegments s).

Definition fallback_segments (s : t) : list nat :=
  filter (λ seg, qualifies s seg = false) (unsolvedSegments s).

(** One call for all the segments of the first loop together, if there are
    any, and one call for each other segment; at least one call. *)
Definition steps_needed (s : t) : nat :=
  Nat.max 1 ((if decide (first_loop_segments s = []) then 0 else 1)
             + length (fallback_segments s)).

(** [a] comes before [b] in [l]. *)
Definition before (a b : nat) (l : list nat) : Prop := [a; b] `sublist_of` l.

(** [l'] lists the segments of [l] by ascending number of connection names,
    segments with equally many names in the order they have in [l]. *)
Definition sorted_by_name_count (objs : nat → NodePortSegment)
    (l l' : list nat) : Prop :=
  l' ≡ₚ l
  ∧ StronglySorted (λ a b, length (connectionNames (objs a))
                           ≤ length (connectionNames (objs b))) l'
  ∧ ∀ a b, length (connectionNames (objs a)) = length (connectionNames (objs b)) →
           before a b l → before a b l'.

(** The invariant of the fallback calls that work off the unsolved segments
    [l]: [taken] have been moved so far, in this order, and [left] are still
    unsolved. *)
Record selection_inv (objs : nat → NodePortSegment)
    (l taken left : list nat) : Prop := {
  sel_sublist : left `sublist_of` l;
  sel_perm : taken ++ left ≡ₚ l;
  sel_le : ∀ a b, a ∈ taken → b ∈ left →
             length (connectionNames (objs a)) ≤ length (connectionNames (objs b));
  sel_sorted :
    StronglySorted (λ a b, length (connectionNames (objs a))
                           ≤ length (connectionNames (objs b))) taken;
  sel_stable : ∀ a b,
    length (connectionNames (objs a)) = length (connectionNames (objs b)) →
    before a b l → b ∈ taken → before a b taken;
}.

(** The distinct elements of [l] in the order of their first appearance:
    the order of the keys of a JavaScript [Map] filled in the order of
    [l]. *)
Definition first_occurrences (l : list string) : list string :=
  foldl (λ acc x, if decide (x ∈ acc) then acc else acc ++ [x]) [] l.

(** [node] is the last of [nodes] with the identity [id]. *)
Definition last_with_id (nodes : list CapacityMeshNode) (id : string)
    (node : CapacityMeshNode) : Prop :=
  ∃ pre post, nodes = pre ++ node :: post
    ∧ capacityMeshNodeId node = id
    ∧ Forall (λ n, capacityMeshNodeId n ≠ id) post.

(** The names of the members that every plain object inherits from
    [Object.prototype]. *)
Definition Object_prototype_names : list string :=
  [ "constructor"; "__proto__"; "hasOwnProperty"; "isPrototypeOf";
    "propertyIsEnumerable"; "toLocaleString"; "toString"; "valueOf";
    "__defineGetter__"; "__defineSetter__"; "__lookupGetter__";
    "__lookupSetter__" ]%string.

(** All the port points of a result, node after node. *)
Definition all_port_points (res : list NodeWithPortPoints.t) : list PortPoint.t :=
  concat (NodeWithPortPoints.portPoints <$> res).

(** The loop of [getNodesWithPortPoints] (lines 150-168) over the segments
    [l], entered with the map [map]. *)
Definition add_segments (s : t) (map : list (string * NodeWithPortPoints.t))
    (l : list nat) : JS.exn + list (string * NodeWithPortPoints.t) :=
  foldl (λ acc seg, match acc with
                    | inl e => inl e
                    | inr map => add_segment s map seg
                    end) (inr map) l.

(** The port points one segment contributes. *)
Definition segment_port_points (s : t) (seg : nat) : list PortPoint.t :=
  portPoint_of <$> default [] (assignedPoints s !! seg).

End SegmentToPointSpec.

(** * CapacityPathingSingleSectionSolver: specification-level notions *)

Module SectionSpec.
Import CapacityPathingSingleSectionSolver.

(** Two node identities are adjacent when a mesh edge joins them, in either
    order. *)
Definition adjacent (edges : list CapacityMeshEdge) (a b : string) : Prop :=
  ∃ edge, edge ∈ edges ∧ (nodeIds edge = (a, b) ∨ nodeIds edge = (b, a)).

(** [hops edges a k b]: a walk of [k] edges leads from [a] to [b]. *)
Inductive hops (edges : list CapacityMeshEdge) (a : string) : nat → string → Prop :=
  | hops_here : hops edges a 0 a
  | hops_next k b c : hops edges a k b → adjacent edges b c → hops edges a (S k) c.

(** The hop distance from [a] to [b] is at most [r]. *)
Definition within (edges : list CapacityMeshEdge) (a : string) (r : nat)
    (b : string) : Prop :=
  ∃ k, k ≤ r ∧ hops edges a k b.

(** The identities named by the edges. *)
Definition endpoints (edges : list CapacityMeshEdge) : list string :=
  flat_map (λ edge, [(nodeIds edge).1; (nodeIds edge).2]) edges.

(** The invariant of the breadth-first loop for the mesh [edges], the focus
    node [center] and the hop radius [r]. *)
Record bfs_inv (edges : list CapacityMeshEdge) (center : string) (r : nat)
    (b : bfs) : Prop := {
  (* the set holds exactly the identities that were enqueued, once each *)
  inv_ids : sectionNodeIds b = (queue b).*1;
  inv_nodup : NoDup (queue b).*1;
  inv_head : head b ≤ length (queue b);
  inv_center : (center, 0) ∈ queue b;
  (* an entry's depth is the length of a walk from the focus node *)
  inv_sound : ∀ v d, (v, d) ∈ queue b → d ≤ r ∧ hops edges center d v;
  (* depths do not decrease along the queue ... *)
  inv_sorted : ∀ i j e e', queue b !! i = Some e → queue b !! j = Some e' →
                 i ≤ j → e.2 ≤ e'.2;
  (* ... and exceed the depth of the entry at the head by at most one *)
  inv_front : ∀ e e', queue b !! head b = Some e → e' ∈ queue b → e'.2 ≤ e.2 + 1;
  (* the neighbours of an expanded entry have been enqueued *)
  inv_closed : ∀ i u d v, i < head b → queue b !! i = Some (u, d) → d < r →
                 adjacent edges u v → ∃ d', (v, d') ∈ queue b ∧ d' ≤ d + 1;
}.

(** A node of a connection path lies in the section. *)
Definition in_section (ids : list string) (node : CapacityMeshNode) : Prop :=
  capacityMeshNodeId node ∈ ids.

(** [node] is the first node of [path] that lies in the section ... *)
Definition first_in_section (ids : list string) (path : list CapacityMeshNode)
    (node : CapacityMeshNode) : Prop :=
  ∃ pre post, path = pre ++ node :: post
    ∧ in_section ids node ∧ Forall (λ n, ¬ in_section ids n) pre.

(** ... and the last one. *)
Definition last_in_section (ids : list string) (path : list CapacityMeshNode)
    (node : CapacityMeshNode) : Prop :=
  ∃ pre post, path = pre ++ node :: post
    ∧ in_section ids node ∧ Forall (λ n, ¬ in_section ids n) post.

(** The terminal record of a connection between two nodes of its path. *)
Definition terminal_between (conn : ConnectionPathWithNodes)
    (first last : CapacityMeshNode) : Terminal :=
  {| connectionName := name (connection conn);
     startNodeId := capacityMeshNodeId first;
     endNodeId := capacityMeshNodeId last |}.

(** The claim C5 as it is stated: whenever a first and a last node of the
    path lie in the section, exactly the one terminal between them is
    emitted for the connection. *)
Definition terminal_emitted_as_stated (ids : list string)
    (conn : ConnectionPathWithNodes) : Prop :=
  ∀ p first last,
    path conn = Some p →
    first_in_section ids p first → last_in_section ids p last →
    computeTerminals ids [conn] = [terminal_between conn first last].

(** The hop radius the solver is constructed with. *)
Definition radius_of (params : CapacityPathingSingleSectionSolverInput) : nat :=
  default 3 (in_hyperParameters params ≫= EXPANSION_DEGREES).

(** [ids] are the identities of the section of [params]: the identities
    within the hop radius of the focus node, once each. *)
Definition section_ids (params : CapacityPathingSingleSectionSolverInput)
    (ids : list string) : Prop :=
  NoDup ids
  ∧ ∀ v, v ∈ ids
         ↔ within (in_edges params) (in_centerNodeId params) (radius_of params) v.

(** [b] is no farther from [a] than [c]: every walk from [a] to [c] is at
    least as long as some walk from [a] to [b]. *)
Definition no_farther (edges : list CapacityMeshEdge) (a b c : string) : Prop :=
  ∀ k, hops edges a k c → ∃ k', k' ≤ k ∧ hops edges a k' b.

(** The input a solver is constructed from when the object returned by
    [getConstructorParams] is handed to the constructor: the constructor
    reads [centerNodeId], [connectionsWithNodes], [nodes] and [edges] from
    it and finds no [hyperParameters]; the section does not depend on the
    colours, which the object does not carry. *)
Definition input_of_ConstructorParams (cp : ConstructorParams)
    (colorMap : gmap string string) : CapacityPathingSingleSectionSolverInput :=
  {| in_centerNodeId := cp_centerNodeId cp;
     in_connectionsWithNodes := cp_connectionsWithNodes cp;
     in_nodes := cp_nodes cp;
     in_edges := cp_edges cp;
     in_colorMap := colorMap;
     in_hyperParameters := None |}.

(** [node] is the last of [nodes] with the identity [id]: the value a
    JavaScript [Map] built from [nodes] holds for [id]. *)
Definition last_node_with_id (nodes : list CapacityMeshNode) (id : string)
    (node : CapacityMeshNode) : Prop :=
  ∃ pre post, nodes = pre ++ node :: post
    ∧ capacityMeshNodeId node = id
    ∧ Forall (λ n, capacityMeshNodeId n ≠ id) post.

(** The input [params] with the hop radius [r]. *)
Definition with_radius (r : nat) (params : CapacityPathingSingleSectionSolverInput)
    : CapacityPathingSingleSectionSolverInput :=
  {| in_centerNodeId := in_centerNodeId params;
     in_connectionsWithNodes := in_connectionsWithNodes params;
     in_nodes := in_nodes params;
     in_edges := in_edges params;
     in_colorMap := in_colorMap params;
     in_hyperParameters := Some {| EXPANSION_DEGREES := Some r |} |}.

(** The sub-solver after [k] of its steps. *)
Definition sub_after {S : Type} `{SubSolver S} (k : nat) (sub : S) : S :=
  Nat.iter k sub_step sub.

End SectionSpec.

(** * Examples *)

Module SegmentToPointExamples.
Import CapacitySegmentToPointSolver.
Local Open Scope string_scope.

(** A segment from (0,0) to (9,0) shared by the connections C, A and B. *)
Definition seg_CAB : NodePortSegment :=
  {| seg_capacityMeshNodeId := "n1";
     start := Point.mk 0 0; end_ := Point.mk 9 0;
     availableZ := [0%float; 1%float];
     connectionNames := ["C"; "A"; "B"] |}.

(** A segment from (0,0) to (4,2) with the single connection X. *)
Definition seg_X : NodePortSegment :=
  {| seg_capacityMeshNodeId := "n2";
     start := Point.mk 0 0; end_ := Point.mk 4 2;
     availableZ := [1%float];
     connectionNames := ["X"] |}.

(** A segment without connections. *)
Definition seg_none : NodePortSegment :=
  {| seg_capacityMeshNodeId := "n1";
     start := Point.mk 0 0; end_ := Point.mk 1 1;
     availableZ := [0%float];
     connectionNames := [] |}.

Definition objs (r : nat) : NodePortSegment :=
  match r with 0 => seg_CAB | 1 => seg_X | _ => seg_none end.

Definition node (id : string) : CapacityMeshNode :=
  {| capacityMeshNodeId := id; center := Point.mk 5 5; width := 10; height := 10 |}.

Definition nodes : list CapacityMeshNode := [node "n1"; node "n2"].

(** A second node with the identity n2 and another geometry. *)
Definition node_n2_later : CapacityMeshNode :=
  {| capacityMeshNodeId := "n2"; center := Point.mk 1 1; width := 2; height := 2 |}.

(** What [getNodesWithPortPoints] returns for the three-connection and the
    single-connection segment. *)
Definition result_CAB_X : list NodeWithPortPoints.t :=
  [ NodeWithPortPoints.mk "n2"
      [ PortPoint.mk 2 1 (Some 1%float) "X" ]
      (Point.mk 5 5) 10 10;
    NodeWithPortPoints.mk "n1"
      [ PortPoint.mk 2.25 0 (Some 0%float) "A";
        PortPoint.mk 4.5 0 (Some 0%float) "B";
        PortPoint.mk 6.75 0 (Some 0%float) "C" ]
      (Point.mk 5 5) 10 10 ].

(** A segment from (0,0) to (2,2) with the single connection Y. *)
Definition seg_Y : NodePortSegment :=
  {| seg_capacityMeshNodeId := "n1";
     start := Point.mk 0 0; end_ := Point.mk 2 2;
     availableZ := [0%float];
     connectionNames := ["Y"] |}.

(** A segment with three connections whose names are a letter, a
    full-width letter (U+FF21) and an emoji (U+1F600). *)
Definition seg_unicode : NodePortSegment :=
  {| seg_capacityMeshNodeId := "n1";
     start := Point.mk 0 0; end_ := Point.mk 8 0;
     availableZ := [0%float];
     connectionNames := ["Ａ"; "😀"; "a"] |}.

Definition objs_more (r : nat) : NodePortSegment :=
  match r with 0 => seg_X | 1 => seg_Y | 2 => seg_CAB | _ => seg_unicode end.

(** A solver whose first segment object, with the one connection X, comes
    with one assigned point from an earlier use; the second has one
    connection and the third three. *)
Definition solver_stale : t :=
  mk objs_more
     {[ 0 := [ {| connectionName := "X"; point := Point3.mk 7 7 (Some 1%float) |} ] ]}
     [0; 1; 2] [] (nodeMap_of nodes) false false.

(** A solver over the segment with the three non-ASCII names. *)
Definition solver_unicode : t := new objs_more [3] nodes.

(** A solver over the three-connection segment alone ... *)
Definition solver_CAB : t := new objs [0] nodes.

(** ... over the three-connection and the single-connection segment ... *)
Definition solver_CAB_X : t := new objs [0; 1] nodes.

(** ... and over the three-connection and the empty segment. *)
Definition solver_CAB_none : t := new objs [0; 2] nodes.

End SegmentToPointExamples.

Module SectionExamples.
Import CapacityPathingSingleSectionSolver.
Local Open Scope string_scope.

Definition node (id : string) : CapacityMeshNode :=
  {| capacityMeshNodeId := id; center := Point.mk 0 0; width := 1; height := 1 |}.

Definition edge (a b : string) : CapacityMeshEdge :=
  {| capacityMeshEdgeId := a +:+ "-" +:+ b; nodeIds := (a, b) |}.

(** The path graph n0 - n1 - n2 - n3. *)
Definition path_graph : list CapacityMeshEdge :=
  [edge "n0" "n1"; edge "n1" "n2"; edge "n2" "n3"].

Definition connection_through : ConnectionPathWithNodes :=
  {| connection := {| name := "c1" |};
     path := Some [node "n0"; node "n1"; node "n2"; node "n3"] |}.

Definition connection_outside : ConnectionPathWithNodes :=
  {| connection := {| name := "c2" |};
     path := Some [node "n3"; node "n4"] |}.

Definition connection_without_path : ConnectionPathWithNodes :=
  {| connection := {| name := "c3" |}; path := None |}.

(** A connection through a node whose identity is the empty string. *)
Definition connection_unnamed_node : ConnectionPathWithNodes :=
  {| connection := {| name := "c4" |}; path := Some [node EmptyString] |}.

(** Focus n1, hop radius 1. *)
Definition params : CapacityPathingSingleSectionSolverInput :=
  {| in_centerNodeId := "n1";
     in_connectionsWithNodes :=
       [connection_through; connection_outside; connection_without_path];
     in_nodes := [node "n0"; node "n1"; node "n2"; node "n3"; node "n4"];
     in_edges := path_graph;
     in_colorMap := ∅;
     in_hyperParameters := Some {| EXPANSION_DEGREES := Some 1 |} |}.

(** Focus n9, which is neither a node nor an end of an edge. *)
Definition params_isolated : CapacityPathingSingleSectionSolverInput :=
  {| in_centerNodeId := "n9";
     in_connectionsWithNodes := [connection_through];
     in_nodes := [node "n0"; node "n1"; node "n2"; node "n3"];
     in_edges := path_graph;
     in_colorMap := ∅;
     in_hyperParameters := None |}.

(** A stub of the sub-solver: it counts down the steps left, then is solved,
    or fails with the message it carries. *)
Inductive stub : Type :=
  | Running (left : nat) (fails : bool)
  | Done
  | Failure (message : string).

Definition stub_step (sub : stub) : stub :=
  match sub with
  | Running (S n) fails => Running n fails
  | Running 0 true => Failure "no path found"
  | Running 0 false => Done
  | _ => sub
  end.

#[global] Instance stub_SubSolver : SubSolver stub := {|
  sub_new input := Running (length (sub_sectionConnectionTerminals input)) false;
  sub_step := stub_step;
  sub_solved sub := match sub with Done => true | _ => false end;
  sub_failed sub := match sub with Failure _ => true | _ => false end;
  sub_error sub := match sub with Failure message => Some message | _ => None end;
|}.

(** A solver whose sub-solver fails at its next step. *)
Definition failing_solver : t (S := stub) :=
  mk "n1" [] [] ∅ [] ∅ 1 ∅ [Some (node "n1")] [] []
     (Some (Running 0 true)) false false None.

End SectionExamples.
(** * Proofs *)

(** A closed decidable proposition, settled by evaluating its decision
    procedure. *)
Ltac by_evaluation := apply (bool_decide_unpack _); reflexivity.

(** * JavaScript array facts *)

Module JSFacts.
Section Arrays.
Context {A : Type} `{EqDecision A}.
Implicit Types (x : A) (l pre post : list A).

Lemma indexOf_first x pre post :
  x ∉ pre → JS.indexOf x (pre ++ x :: post) = Z.of_nat (length pre).
Proof.
  intros Hpre. unfold JS.indexOf.
  destruct (list_find (x =.) (pre ++ x :: post)) as [[i y]|] eqn:Hfind.
  - apply list_find_Some in Hfind. destruct Hfind as (Hi & <- & Hbefore).
    destruct (Nat.lt_trichotomy i (length pre)) as [Hlt|[->|Hgt]]; [|done|].
    + rewrite lookup_app_l in Hi by done.
      apply list_elem_of_lookup_2 in Hi. done.
    + exfalso. apply (Hbefore (length pre) x); [|done..].
      by rewrite list_lookup_middle.
  - apply list_find_None in Hfind.
    rewrite Forall_app, Forall_cons in Hfind.
    destruct Hfind as (_ & Hx & _). by destruct Hx.
Qed.

Lemma indexOf_absent x l : x ∉ l → JS.indexOf x l = (-1)%Z.
Proof.
  intros Hl. unfold JS.indexOf.
  destruct (list_find (x =.) l) as [[i y]|] eqn:Hfind; [|done].
  apply list_find_Some in Hfind. destruct Hfind as (Hi & <- & _).
  apply list_elem_of_lookup_2 in Hi. done.
Qed.

Lemma splice1_middle pre x post :
  JS.splice1 (Z.of_nat (length pre)) (pre ++ x :: post) = pre ++ post.
Proof.
  unfold JS.splice1. rewrite length_app. simpl.
  destruct (Z.ltb_spec (Z.of_nat (length pre)) 0); [lia|].
  replace (Z.to_nat _) with (length pre) by lia.
  apply delete_middle.
Qed.

(** Removing the first occurrence of an element the array holds. *)
Lemma splice1_indexOf_first x pre post :
  x ∉ pre →
  JS.splice1 (JS.indexOf x (pre ++ x :: post)) (pre ++ x :: post) = pre ++ post.
Proof. intros. rewrite indexOf_first by done. apply splice1_middle. Qed.

(** [splice(-1, 1)] removes the last element. *)
Lemma splice1_absent x l : x ∉ l → JS.splice1 (JS.indexOf x l) l = removelast l.
Proof.
  intros. rewrite indexOf_absent by done. unfold JS.splice1. simpl.
  destruct l as [|y l _] using rev_ind; [done|].
  rewrite removelast_last, length_app. simpl.
  replace (Z.to_nat _) with (length l) by lia.
  by rewrite delete_middle, app_nil_r.
Qed.

Lemma length_splice1_indexOf x l :
  length (JS.splice1 (JS.indexOf x l) l) = pred (length l).
Proof.
  destruct (decide (x ∈ l)) as [Hin|Hnin].
  - apply list_elem_of_split_l in Hin as (pre & post & -> & Hpre).
    rewrite splice1_indexOf_first by done.
    rewrite !length_app. simpl. lia.
  - rewrite splice1_absent by done.
    destruct l as [|y l _] using rev_ind; [done|].
    rewrite removelast_last, length_app. simpl. lia.
Qed.

End Arrays.
End JSFacts.

(** * CapacitySegmentToPointSolver: the first loop of [_step] *)

Module SegmentToPointFacts.
Import CapacitySegmentToPointSolver SegmentToPointSpec JSFacts.

Implicit Types (s : t) (seg x : nat) (l : list nat) (u : bool).

Lemma elem_of_occurrences x l : x ∈ l ↔ 0 < occurrences x l.
Proof.
  unfold occurrences. split.
  - intros Hx. assert (Hf : x ∈ filter (x =.) l) by (apply list_elem_of_filter; done).
    destruct (filter (x =.) l); [by apply elem_of_nil in Hf|simpl; lia].
  - intros Hlen. destruct (filter (x =.) l) as [|y k] eqn:Hf; [simpl in Hlen; lia|].
    assert (Hy : y ∈ filter (x =.) l) by (rewrite Hf; left).
    apply list_elem_of_filter in Hy as [<- ?]. done.
Qed.

Lemma occurrences_app x l1 l2 :
  occurrences x (l1 ++ l2) = occurrences x l1 + occurrences x l2.
Proof. unfold occurrences. by rewrite filter_app, length_app. Qed.

Lemma occurrences_cons x y l :
  occurrences x (y :: l) = (if decide (x = y) then 1 else 0) + occurrences x l.
Proof. unfold occurrences. rewrite filter_cons. by destruct (decide (x = y)). Qed.

Lemma occurrences_nil x : occurrences x [] = 0.
Proof. done. Qed.

Lemma occurrences_not_elem x l : x ∉ l → occurrences x l = 0.
Proof. rewrite elem_of_occurrences. lia. Qed.

(** Taking the first occurrence of [seg] out of an array that holds it. *)
Lemma occurrences_splice1 seg x l :
  seg ∈ l →
  occurrences x (JS.splice1 (JS.indexOf seg l) l) + (if decide (x = seg) then 1 else 0)
  = occurrences x l.
Proof.
  intros (pre & post & -> & Hpre)%list_elem_of_split_l.
  rewrite splice1_indexOf_first by done.
  rewrite !occurrences_app, occurrences_cons. lia.
Qed.

Lemma phaseA_iter_eq s u seg :
  phaseA_iter (s, u) seg = if qualifies s seg then (process seg s, true) else (s, u).
Proof.
  unfold phaseA_iter, qualifies, name_count, process, midpoint_assignment. simpl.
  destruct (already_processed s seg _); simpl; [done|].
  destruct (connectionNames (objects s seg)) as [|name [|name' names]]; simpl; done.
Qed.

Lemma phaseA_cons s u seg l :
  foldl phaseA_iter (s, u) (seg :: l)
  = if qualifies s seg then foldl phaseA_iter (process seg s, true) l
    else foldl phaseA_iter (s, u) l.
Proof. simpl. rewrite phaseA_iter_eq. by destruct (qualifies s seg). Qed.

Lemma qualifies_name_count s seg : qualifies s seg = true → name_count s seg = 1.
Proof.
  unfold qualifies. intros [_ Hn]%andb_prop. by apply bool_decide_eq_true in Hn.
Qed.

Lemma length_midpoint_assignment s seg :
  name_count s seg = 1 → length (midpoint_assignment (objects s seg)) = 1.
Proof.
  unfold name_count, midpoint_assignment.
  destruct (connectionNames (objects s seg)); simpl; [lia|done].
Qed.

(** Once assigned by the first loop, a segment is taken for processed. *)
Lemma qualifies_process_same s seg :
  qualifies s seg = true → qualifies (process seg s) seg = false.
Proof.
  intros Hq%qualifies_name_count.
  pose proof (length_midpoint_assignment s seg Hq) as Hlen.
  unfold qualifies, already_processed, name_count in *. simpl.
  rewrite lookup_insert_eq.
  rewrite bool_decide_eq_true_2; [done|]. congruence.
Qed.

Lemma qualifies_process_other s seg x :
  x ≠ seg → qualifies (process seg s) x = qualifies s x.
Proof.
  intros Hne. unfold qualifies, already_processed, name_count. simpl.
  by rewrite lookup_insert_ne.
Qed.

Lemma snapshot_ok_skip s seg l : snapshot_ok s (seg :: l) → snapshot_ok s l.
Proof. intros Hok x Hx. apply Hok. by right. Qed.

Lemma snapshot_ok_process s seg l :
  snapshot_ok s (seg :: l) → qualifies s seg = true → snapshot_ok (process seg s) l.
Proof.
  intros Hok Hq x Hx Hqx.
  destruct (decide (x = seg)) as [->|Hne].
  { by rewrite qualifies_process_same in Hqx. }
  rewrite qualifies_process_other in Hqx by done.
  apply elem_of_occurrences. simpl.
  assert (Hseg : seg ∈ unsolvedSegments s) by (apply Hok; [left|done]).
  assert (Hxs : x ∈ unsolvedSegments s) by (apply Hok; [by right|done]).
  apply elem_of_occurrences in Hxs.
  pose proof (occurrences_splice1 seg x _ Hseg) as Hocc.
  destruct (decide (x = seg)); [done|]. lia.
Qed.

Lemma snapshot_ok_init s : snapshot_ok s (unsolvedSegments s).
Proof. by intros x Hx _. Qed.

Lemma touched_nil s x : touched s [] x = false.
Proof. unfold touched. rewrite bool_decide_eq_false_2; [done|]. apply not_elem_of_nil. Qed.

Lemma touched_cons_skip s seg l x :
  qualifies s seg = false → touched s (seg :: l) x = touched s l x.
Proof.
  intros Hq. unfold touched.
  destruct (decide (x = seg)) as [->|Hne]; [by rewrite Hq, !andb_false_r|].
  f_equal. apply bool_decide_ext. rewrite elem_of_cons. intuition congruence.
Qed.

Lemma touched_cons_process s seg l x :
  qualifies s seg = true →
  touched s (seg :: l) x = bool_decide (x = seg) || touched (process seg s) l x.
Proof.
  intros Hq. unfold touched.
  destruct (decide (x = seg)) as [->|Hne].
  - rewrite Hq, (bool_decide_eq_true_2 (seg = seg)) by done.
    rewrite bool_decide_eq_true_2 by left. done.
  - rewrite qualifies_process_other by done.
    rewrite (bool_decide_eq_false_2 (x = seg)) by done. simpl.
    f_equal. apply bool_decide_ext. rewrite elem_of_cons. intuition congruence.
Qed.

Lemma touched_process_same s seg l :
  qualifies s seg = true → touched (process seg s) l seg = false.
Proof.
  intros Hq. unfold touched. by rewrite qualifies_process_same, andb_false_r.
Qed.

(** The loop shape shared by the facts below. *)
Lemma phaseA_ind (P : t → bool → list nat → t * bool → Prop) :
  (∀ s u, P s u [] (s, u)) →
  (∀ s u seg l r,
     qualifies s seg = false → snapshot_ok s l → P s u l r → P s u (seg :: l) r) →
  (∀ s u seg l r,
     qualifies s seg = true → seg ∈ unsolvedSegments s →
     snapshot_ok (process seg s) l →
     P (process seg s) true l r → P s u (seg :: l) r) →
  ∀ l s u, snapshot_ok s l → P s u l (foldl phaseA_iter (s, u) l).
Proof.
  intros Hnil Hskip Hproc l. induction l as [|seg l IH]; intros s u Hok.
  { apply Hnil. }
  rewrite phaseA_cons. destruct (qualifies s seg) eqn:Hq.
  - apply Hproc; [done| |by apply snapshot_ok_process|].
    + apply Hok; [left|done].
    + apply IH. by apply snapshot_ok_process.
  - apply Hskip; [done|by eapply snapshot_ok_skip|].
    apply IH. by eapply snapshot_ok_skip.
Qed.

Lemma phaseA_frame l s u :
  snapshot_ok s l →
  let r := foldl phaseA_iter (s, u) l in
  objects r.1 = objects s ∧ nodeMap r.1 = nodeMap s
  ∧ solved r.1 = solved s ∧ failed r.1 = failed s.
Proof.
  revert l s u.
  apply (phaseA_ind (λ s u l r,
    objects r.1 = objects s ∧ nodeMap r.1 = nodeMap s
    ∧ solved r.1 = solved s ∧ failed r.1 = failed s)); done.
Qed.

(** The property [assignedPoints] of every object after the first loop. *)
Lemma phaseA_assignedPoints l s u x :
  snapshot_ok s l →
  assignedPoints (foldl phaseA_iter (s, u) l).1 !! x
  = if touched s l x then Some (midpoint_assignment (objects s x))
    else assignedPoints s !! x.
Proof.
  revert l s u.
  apply (phaseA_ind (λ s u l r,
    assignedPoints r.1 !! x
    = if touched s l x then Some (midpoint_assignment (objects s x))
      else assignedPoints s !! x)).
  - intros s u. by rewrite touched_nil.
  - intros s u seg l r Hq _ IH. by rewrite touched_cons_skip.
  - intros s u seg l r Hq _ _ IH. rewrite touched_cons_process by done.
    rewrite IH. destruct (decide (x = seg)) as [->|Hne].
    + rewrite touched_process_same by done. simpl.
      rewrite lookup_insert_eq. by rewrite bool_decide_eq_true_2.
    + rewrite bool_decide_eq_false_2 by done. simpl.
      by rewrite lookup_insert_ne.
Qed.

(** Each assigned segment leaves [unsolvedSegments] once ... *)
Lemma phaseA_unsolvedSegments l s u x :
  snapshot_ok s l →
  occurrences x (unsolvedSegments (foldl phaseA_iter (s, u) l).1)
  + (if touched s l x then 1 else 0)
  = occurrences x (unsolvedSegments s).
Proof.
  revert l s u.
  apply (phaseA_ind (λ s u l r,
    occurrences x (unsolvedSegments r.1) + (if touched s l x then 1 else 0)
    = occurrences x (unsolvedSegments s))).
  - intros s u. rewrite touched_nil. simpl. lia.
  - intros s u seg l r Hq _ IH. by rewrite touched_cons_skip.
  - intros s u seg l r Hq Hseg _ IH. rewrite touched_cons_process by done.
    pose proof (occurrences_splice1 seg x _ Hseg) as Hocc.
    simpl in IH. destruct (decide (x = seg)) as [->|Hne].
    + rewrite touched_process_same in IH by done.
      rewrite bool_decide_eq_true_2 by done. simpl. lia.
    + rewrite bool_decide_eq_false_2 by done. simpl. lia.
Qed.

(** ... and enters [solvedSegments] once. *)
Lemma phaseA_solvedSegments l s u x :
  snapshot_ok s l →
  occurrences x (solvedSegments (foldl phaseA_iter (s, u) l).1)
  = occurrences x (solvedSegments s) + (if touched s l x then 1 else 0).
Proof.
  revert l s u.
  apply (phaseA_ind (λ s u l r,
    occurrences x (solvedSegments r.1)
    = occurrences x (solvedSegments s) + (if touched s l x then 1 else 0))).
  - intros s u. rewrite touched_nil. simpl. lia.
  - intros s u seg l r Hq _ IH. by rewrite touched_cons_skip.
  - intros s u seg l r Hq Hseg _ IH. rewrite touched_cons_process by done.
    rewrite IH. simpl. unfold JS.push.
    rewrite occurrences_app, occurrences_cons, occurrences_nil.
    destruct (decide (x = seg)) as [->|Hne].
    + rewrite touched_process_same by done.
      rewrite bool_decide_eq_true_2 by done. simpl. lia.
    + rewrite bool_decide_eq_false_2 by done. simpl. lia.
Qed.

(** The local [updated] after the first loop. *)
Lemma phaseA_updated l s u :
  snapshot_ok s l →
  (foldl phaseA_iter (s, u) l).2
  = u || bool_decide (Exists (λ x, qualifies s x = true) l).
Proof.
  revert l s u.
  apply (phaseA_ind (λ s u l r,
    r.2 = u || bool_decide (Exists (λ x, qualifies s x = true) l))).
  - intros s u. rewrite bool_decide_eq_false_2; [by rewrite orb_false_r|].
    by intros ?%Exists_nil.
  - intros s u seg l r Hq _ ->. f_equal. apply bool_decide_ext.
    rewrite Exists_cons. intuition congruence.
  - intros s u seg l r Hq _ _ ->. simpl.
    rewrite (bool_decide_eq_true_2 (Exists _ (seg :: l))); [by rewrite orb_true_r|].
    by left.
Qed.

(** The number of references in the two arrays is kept, and
    [unsolvedSegments] shrinks as soon as something is assigned. *)
Lemma phaseA_lengths l s u :
  snapshot_ok s l →
  let r := foldl phaseA_iter (s, u) l in
  length (unsolvedSegments r.1) + length (solvedSegments r.1)
  = length (unsolvedSegments s) + length (solvedSegments s)
  ∧ length (unsolvedSegments r.1) ≤ length (unsolvedSegments s)
  ∧ (Exists (λ x, qualifies s x = true) l →
     length (unsolvedSegments r.1) < length (unsolvedSegments s)).
Proof.
  revert l s u.
  apply (phaseA_ind (λ s u l r,
    length (unsolvedSegments r.1) + length (solvedSegments r.1)
    = length (unsolvedSegments s) + length (solvedSegments s)
    ∧ length (unsolvedSegments r.1) ≤ length (unsolvedSegments s)
    ∧ (Exists (λ x, qualifies s x = true) l →
       length (unsolvedSegments r.1) < length (unsolvedSegments s)))).
  - intros s u. split_and!; [done|done|]. by intros ?%Exists_nil.
  - intros s u seg l r Hq _ (Hsum & Hle & Hlt). split_and!; [done|done|].
    rewrite Exists_cons. intros [Hseg|Hl]; [congruence|auto].
  - intros s u seg l r Hq Hseg _ (Hsum & Hle & _).
    simpl in Hsum, Hle. unfold JS.push in Hsum.
    rewrite length_app in Hsum. simpl in Hsum.
    rewrite length_splice1_indexOf in Hsum, Hle.
    apply elem_of_occurrences in Hseg. unfold occurrences in Hseg.
    pose proof (length_filter (seg =.) (unsolvedSegments s)).
    split_and!; [lia|lia|intros _; lia].
Qed.

(** With nothing to assign the first loop changes nothing. *)
Lemma phaseA_idle l s u :
  Forall (λ x, qualifies s x = false) l → foldl phaseA_iter (s, u) l = (s, u).
Proof.
  induction 1 as [|seg l Hq _ IH]; [done|].
  by rewrite phaseA_cons, Hq.
Qed.

End SegmentToPointFacts.

(** * CapacitySegmentToPointSolver: the fallback and [_step] *)

Module SegmentToPointStep.
Import CapacitySegmentToPointSolver SegmentToPointSpec JSFacts SegmentToPointFacts.

Implicit Types (s : t) (seg x : nat) (l pre post : list nat) (u : bool).

(** ** Sorting connection names *)

(** The comparison of [sort] decides the lexicographic order of the code
    units. *)
Lemma units_ltb_false (u : list N) : ∀ v, JS.units_ltb v u = false ↔ units_le u v.
Proof.
  induction u as [|a u IH]; intros [|b v]; simpl.
  - split; [constructor|done].
  - split; [constructor|done].
  - split; [done|]. inversion 1.
  - destruct (N.ltb_spec b a) as [Hba|Hba].
    { split; [done|]. inversion 1; subst; lia. }
    destruct (N.ltb_spec a b) as [Hab|Hab].
    { split; [|done]. intros _. by constructor. }
    assert (a = b) as -> by lia.
    rewrite IH. split; [apply units_le_eq|].
    inversion 1; subst; [lia|done].
Qed.

Lemma string_le_lex_le (x y : string) : JS.string_le x y ↔ lex_le x y.
Proof. apply units_ltb_false. Qed.

Lemma units_le_total (u : list N) : ∀ v, units_le u v ∨ units_le v u.
Proof.
  induction u as [|a u IH]; intros [|b v].
  - left. constructor.
  - left. constructor.
  - right. constructor.
  - destruct (N.lt_trichotomy a b) as [Hab|[->|Hba]].
    + left. by constructor.
    + destruct (IH v); [left|right]; by apply units_le_eq.
    + right. by constructor.
Qed.

Lemma units_le_trans (u v w : list N) : units_le u v → units_le v w → units_le u w.
Proof.
  intros Huv. revert w.
  induction Huv as [v|a b u v Hab|a u v _ IH]; intros w Hvw.
  - constructor.
  - inversion Hvw; subst; constructor; lia.
  - inversion Hvw; subst; [by constructor|]. apply units_le_eq. by apply IH.
Qed.

#[global] Instance string_le_total : Total JS.string_le.
Proof. intros x y. rewrite !string_le_lex_le. apply units_le_total. Qed.

#[global] Instance string_le_trans : Transitive JS.string_le.
Proof.
  intros x y z. rewrite !string_le_lex_le. apply units_le_trans.
Qed.

Lemma sort_Permutation (names : list string) : JS.sort names ≡ₚ names.
Proof. apply merge_sort_Permutation. Qed.

Lemma sort_StronglySorted (names : list string) :
  StronglySorted JS.string_le (JS.sort names).
Proof. apply (StronglySorted_merge_sort _). Qed.

Lemma length_sort (names : list string) : length (JS.sort names) = length names.
Proof. apply Permutation_length, sort_Permutation. Qed.

(** ** Choosing the candidate *)

Lemma fewer_fold (objs : nat → NodePortSegment) l : ∀ c0 c,
  let n := λ r, length (connectionNames (objs r)) in
  foldl (fewer objs) c0 l = c →
  (c = c0 ∧ Forall (λ r, n c0 ≤ n r) l)
  ∨ (∃ pre post, l = pre ++ c :: post ∧ n c < n c0
      ∧ Forall (λ r, n c < n r) pre ∧ Forall (λ r, n c ≤ n r) post).
Proof.
  induction l as [|a l IH]; intros c0 c; simpl.
  { intros <-. left. split; [done|constructor]. }
  unfold fewer at 2. case_bool_decide as Hlt; intros Hc.
  - right. destruct (IH _ _ Hc) as [[-> Hall]|(pre & post & -> & Hca & Hpre & Hpost)];
      simpl in *.
    + exists [], l. simpl. split_and!; [done|done|constructor|done].
    + exists (a :: pre), post. simpl. split_and!; [done|lia| |done].
      constructor; [done|done].
  - destruct (IH _ _ Hc) as [[-> Hall]|(pre & post & -> & Hca & Hpre & Hpost)];
      simpl in *.
    + left. split; [done|]. constructor; [lia|done].
    + right. exists (a :: pre), post. simpl.
      split_and!; [done|done| |done].
      constructor; [lia|done].
Qed.

(** The candidate is the first of the segments with the fewest names. *)
Lemma pick_candidate_spec (objs : nat → NodePortSegment) first rest :
  let n := λ r, length (connectionNames (objs r)) in
  let c := pick_candidate objs first (first :: rest) in
  ∃ pre post, first :: rest = pre ++ c :: post
    ∧ Forall (λ r, n c < n r) pre ∧ Forall (λ r, n c ≤ n r) post.
Proof.
  intros n c. unfold pick_candidate in c.
  destruct (fewer_fold objs (first :: rest) first c eq_refl)
    as [[Hc Hall]|(pre & post & Heq & _ & Hpre & Hpost)].
  - exists [], rest. rewrite Hc. simpl. split_and!; [done|constructor|].
    apply Forall_cons in Hall as [_ Hall]. done.
  - exists pre, post. done.
Qed.

(** The candidate is determined by being first among the fewest. *)
Lemma first_fewest_unique (n : nat → nat) pre post c pre' post' c' :
  pre ++ c :: post = pre' ++ c' :: post' →
  Forall (λ r, n c < n r) pre → Forall (λ r, n c ≤ n r) post →
  Forall (λ r, n c' < n r) pre' → Forall (λ r, n c' ≤ n r) post' →
  pre = pre' ∧ c = c' ∧ post = post'.
Proof.
  revert pre'. induction pre as [|a pre IH]; intros [|a' pre'] Heq Hpre Hpost Hpre' Hpost';
    simplify_eq/=.
  - done.
  - apply Forall_cons in Hpre' as [Hlt _].
    rewrite Forall_app, Forall_cons in Hpost. lia.
  - apply Forall_cons in Hpre as [Hlt _].
    rewrite Forall_app, Forall_cons in Hpost'. lia.
  - apply Forall_cons in Hpre as [_ Hpre]. apply Forall_cons in Hpre' as [_ Hpre'].
    destruct (IH pre') as (-> & -> & ->); done.
Qed.

(** ** The assignment of the fallback *)

Lemma length_fallback_assignment o :
  length (fallback_assignment o) = length (connectionNames o).
Proof.
  unfold fallback_assignment, spaced_points.
  rewrite length_zip_with_l_eq; [apply length_sort|].
  by rewrite length_fmap, length_seq.
Qed.

Lemma lookup_fallback_assignment o i name :
  JS.sort (connectionNames o) !! i = Some name →
  fallback_assignment o !! i
  = Some {| connectionName := name;
            point := point_at_fraction o (i + 1) (length (connectionNames o)) |}.
Proof.
  intros Hi. unfold fallback_assignment, spaced_points.
  rewrite lookup_zip_with, Hi. simpl.
  rewrite list_lookup_fmap, lookup_seq_lt; [|by eapply lookup_lt_Some].
  simpl. rewrite length_sort. by replace (i + 1) with (S i) by lia.
Qed.

(** ** The fallback as a whole *)

Lemma phaseB_eq s pre c post :
  unsolvedSegments s = pre ++ c :: post →
  Forall (λ r, name_count s c < name_count s r) pre →
  Forall (λ r, name_count s c ≤ name_count s r) post →
  phaseB s (unsolvedSegments s)
  = mk (objects s) (<[c := fallback_assignment (objects s c)]> (assignedPoints s))
       (pre ++ post) (solvedSegments s ++ [c]) (nodeMap s) (solved s) (failed s).
Proof.
  intros Heq Hpre Hpost. unfold phaseB.
  destruct (unsolvedSegments s) as [|first rest] eqn:Hun.
  { by destruct pre. }
  destruct (pick_candidate_spec (objects s) first rest)
    as (pre' & post' & Heq' & Hpre' & Hpost').
  destruct (first_fewest_unique (name_count s) pre post c pre' post'
              (pick_candidate (objects s) first (first :: rest)))
    as (<- & <- & <-); [congruence|done..|].
  unfold move_to_solved, set_assignedPoints, set_unsolvedSegments,
    set_solvedSegments, JS.push. simpl.
  rewrite Hun, Heq. rewrite splice1_indexOf_first; [done|].
  intros Hc. rewrite Forall_forall in Hpre. specialize (Hpre _ Hc). lia.
Qed.

(** With work left the candidate exists. *)
Lemma candidate_exists s :
  unsolvedSegments s ≠ [] →
  ∃ pre c post, unsolvedSegments s = pre ++ c :: post
    ∧ Forall (λ r, name_count s c < name_count s r) pre
    ∧ Forall (λ r, name_count s c ≤ name_count s r) post.
Proof.
  intros Hne. destruct (unsolvedSegments s) as [|first rest]; [done|].
  destruct (pick_candidate_spec (objects s) first rest)
    as (pre & post & Heq & Hpre & Hpost).
  by exists pre, (pick_candidate (objects s) first (first :: rest)), post.
Qed.

Lemma phaseB_nil s : unsolvedSegments s = [] → phaseB s (unsolvedSegments s) = s.
Proof. by intros ->. Qed.

(** ** [_step] by cases *)

Lemma qualifies_dec s l :
  Exists (λ x, qualifies s x = true) l ∨ Forall (λ x, qualifies s x = false) l.
Proof.
  destruct (decide (Exists (λ x, qualifies s x = true) l)) as [?|Hno]; [by left|right].
  apply Forall_forall. intros x Hx.
  destruct (qualifies s x) eqn:Hq; [|done].
  exfalso. apply Hno, Exists_exists. eauto.
Qed.

(** The guard [!updated] of the fallback holds exactly when the first loop
    finds no segment to assign. *)
Lemma fallback_guard s :
  (phaseA s (unsolvedSegments s)).2 = false
  ↔ Forall (λ x, qualifies s x = false) (unsolvedSegments s).
Proof.
  unfold phaseA. rewrite (phaseA_updated _ s false (snapshot_ok_init s)). simpl.
  rewrite bool_decide_eq_false. split.
  - intros Hno. destruct (qualifies_dec s (unsolvedSegments s)); done.
  - intros Hall (x & Hx & Hq)%Exists_exists.
    rewrite Forall_forall in Hall. specialize (Hall x Hx). congruence.
Qed.

(** Some segment is assigned by the first loop: no fallback. *)
Lemma _step_assigning s :
  Exists (λ x, qualifies s x = true) (unsolvedSegments s) →
  _step s = finish (phaseA s (unsolvedSegments s)).1.
Proof.
  intros Hex. unfold _step.
  pose proof (phaseA_updated (unsolvedSegments s) s false (snapshot_ok_init s)) as Hu.
  fold (phaseA s (unsolvedSegments s)) in Hu.
  destruct (phaseA s (unsolvedSegments s)) as [s1 updated]. simpl in *.
  rewrite Hu, (bool_decide_eq_true_2 _ Hex). reflexivity.
Qed.

(** Nothing is assigned by the first loop: the fallback runs. *)
Lemma _step_fallback s :
  Forall (λ x, qualifies s x = false) (unsolvedSegments s) →
  _step s = finish (phaseB s (unsolvedSegments s)).
Proof.
  intros Hall. unfold _step, phaseA. rewrite phaseA_idle by done. reflexivity.
Qed.

Lemma finish_fields s :
  objects (finish s) = objects s ∧ assignedPoints (finish s) = assignedPoints s
  ∧ unsolvedSegments (finish s) = unsolvedSegments s
  ∧ solvedSegments (finish s) = solvedSegments s
  ∧ nodeMap (finish s) = nodeMap s ∧ failed (finish s) = failed s
  ∧ solved (finish s) = solved s || bool_decide (unsolvedSegments s = []).
Proof.
  unfold finish. case_bool_decide as Hlen; simpl.
  - destruct (unsolvedSegments s); [|done].
    by rewrite orb_true_r.
  - rewrite bool_decide_eq_false_2, orb_false_r; [done|].
    intros Hnil. by rewrite Hnil in Hlen.
Qed.

(** The fields [_step] never writes. *)
Lemma _step_frame s :
  objects (_step s) = objects s ∧ nodeMap (_step s) = nodeMap s
  ∧ failed (_step s) = failed s.
Proof.
  destruct (qualifies_dec s (unsolvedSegments s)) as [Hex|Hall].
  - rewrite _step_assigning by done.
    destruct (finish_fields (phaseA s (unsolvedSegments s)).1)
      as (-> & _ & _ & _ & -> & -> & _).
    destruct (phaseA_frame (unsolvedSegments s) s false (snapshot_ok_init s))
      as (? & ? & _ & ?). done.
  - rewrite _step_fallback by done.
    destruct (finish_fields (phaseB s (unsolvedSegments s)))
      as (-> & _ & _ & _ & -> & -> & _).
    unfold phaseB. by destruct (unsolvedSegments s).
Qed.

(** [solved] is set exactly when no unsolved segment is left. *)
Lemma _step_solved s :
  solved (_step s) = solved s || bool_decide (unsolvedSegments (_step s) = []).
Proof.
  destruct (qualifies_dec s (unsolvedSegments s)) as [Hex|Hall].
  - rewrite _step_assigning by done.
    destruct (finish_fields (phaseA s (unsolvedSegments s)).1)
      as (_ & _ & -> & _ & _ & _ & ->).
    destruct (phaseA_frame (unsolvedSegments s) s false (snapshot_ok_init s))
      as (_ & _ & Hs & _). unfold phaseA. by rewrite Hs.
  - rewrite _step_fallback by done.
    destruct (finish_fields (phaseB s (unsolvedSegments s)))
      as (_ & _ & -> & _ & _ & _ & ->).
    f_equal. unfold phaseB. by destruct (unsolvedSegments s).
Qed.

(** Every step with work left moves at least one reference from
    [unsolvedSegments] to [solvedSegments], and none is lost. *)
Lemma _step_progress s :
  length (unsolvedSegments (_step s)) + length (solvedSegments (_step s))
  = length (unsolvedSegments s) + length (solvedSegments s)
  ∧ (unsolvedSegments s ≠ [] →
     length (unsolvedSegments (_step s)) < length (unsolvedSegments s)).
Proof.
  destruct (qualifies_dec s (unsolvedSegments s)) as [Hex|Hall].
  - rewrite _step_assigning by done.
    destruct (finish_fields (phaseA s (unsolvedSegments s)).1)
      as (_ & _ & -> & -> & _).
    destruct (phaseA_lengths (unsolvedSegments s) s false (snapshot_ok_init s))
      as (Hsum & _ & Hlt). auto.
  - rewrite _step_fallback by done.
    destruct (finish_fields (phaseB s (unsolvedSegments s)))
      as (_ & _ & -> & -> & _).
    destruct (decide (unsolvedSegments s = [])) as [Hnil|Hne].
    { by rewrite phaseB_nil. }
    destruct (candidate_exists s Hne) as (pre & c & post & Heq & Hpre & Hpost).
    rewrite (phaseB_eq s pre c post) by done.
    simpl. rewrite Heq, !length_app. simpl.
    split; [lia|intros _; lia].
Qed.

Lemma _step_nil s :
  unsolvedSegments s = [] → unsolvedSegments (_step s) = [].
Proof.
  intros Hnil. rewrite _step_fallback by (rewrite Hnil; constructor).
  destruct (finish_fields (phaseB s (unsolvedSegments s))) as (_ & _ & -> & _).
  by rewrite phaseB_nil.
Qed.

(** ** Runs of the solver *)

(** On a solver that is in no terminal state [step] is [_step]. *)
Lemma step_running s : solved s = false → failed s = false → step s = _step s.
Proof. unfold step. by intros -> ->. Qed.

Lemma run_S objs segments nodes k :
  run objs segments nodes (S k) = step (run objs segments nodes k).
Proof. done. Qed.

Lemma run_invariant objs segments nodes k :
  let s := run objs segments nodes k in
  objects s = objs ∧ nodeMap s = nodeMap_of nodes ∧ failed s = false
  ∧ (solved s = true → unsolvedSegments s = [])
  ∧ (1 ≤ k → unsolvedSegments s = [] → solved s = true)
  ∧ length (unsolvedSegments s) + length (solvedSegments s) = length segments
  ∧ length (unsolvedSegments s) ≤ length segments - k.
Proof.
  induction k as [|k IH]; cbv zeta in *.
  { simpl. split_and!; [done..|lia|simpl; lia|simpl; lia]. }
  rewrite run_S. destruct IH as (Hobj & Hnm & Hf & Hs & _ & Hsum & Hle).
  set (s := run objs segments nodes k) in *.
  unfold step. rewrite Hf, orb_false_r.
  destruct (solved s) eqn:Hsolved.
  { rewrite Hs by done. rewrite Hs in Hsum by done.
    split_and!; [done..|simpl; lia]. }
  destruct (_step_frame s) as (Ho' & Hn' & Hf').
  pose proof (_step_solved s) as Hs'. rewrite Hsolved in Hs'. simpl in Hs'.
  destruct (_step_progress s) as [Hsum' Hlt].
  split_and!; [congruence..| | | |].
  - rewrite Hs'. by intros ?%bool_decide_eq_true.
  - intros _ Hnil. rewrite Hs'. by apply bool_decide_eq_true.
  - lia.
  - destruct (decide (unsolvedSegments s = [])) as [Hnil|Hne]; [|specialize (Hlt Hne); lia].
    rewrite _step_nil by done. simpl. lia.
Qed.

(** A solved solver of a run is a fixed point of [_step], so a run of [step]
    is a run of [_step]. *)
Lemma run_iter__step objs segments nodes k :
  run objs segments nodes k = Nat.iter k _step (new objs segments nodes).
Proof.
  induction k as [|k IH]; [done|].
  rewrite run_S. simpl. rewrite <- IH.
  destruct (run_invariant objs segments nodes k) as (_ & _ & Hf & Hs & _).
  set (s := run objs segments nodes k) in *.
  unfold step. rewrite Hf, orb_false_r.
  destruct (solved s) eqn:Hsolved; [|done].
  specialize (Hs eq_refl).
  rewrite _step_fallback by (rewrite Hs; constructor).
  rewrite phaseB_nil by done. unfold finish. rewrite Hs. simpl.
  destruct s. simpl in *. by subst.
Qed.

(** After [max 1 (length segments)] calls of [step] the solver is solved. *)
Lemma run_solved objs segments nodes k :
  Nat.max 1 (length segments) ≤ k →
  solved (run objs segments nodes k) = true
  ∧ unsolvedSegments (run objs segments nodes k) = [].
Proof.
  intros Hk. destruct (run_invariant objs segments nodes k)
    as (_ & _ & _ & _ & Hs & _ & Hle).
  assert (Hnil : unsolvedSegments (run objs segments nodes k) = []).
  { apply length_zero_iff_nil. lia. }
  split; [|done]. apply Hs; [lia|done].
Qed.

End SegmentToPointStep.

(** * CapacitySegmentToPointSolver: the properties of a step *)

Module SegmentToPointTheorems.
Import CapacitySegmentToPointSolver SegmentToPointSpec JSFacts
  SegmentToPointFacts SegmentToPointStep.

Implicit Types (s : t) (seg x : nat) (l pre post : list nat) (u : bool).

Lemma StronglySorted_weaken {A} (R1 R2 : relation A) (l : list A) :
  (∀ a b, R1 a b → R2 a b) → StronglySorted R1 l → StronglySorted R2 l.
Proof.
  intros HR. induction 1 as [|a l _ IH Hall]; [constructor|].
  constructor; [done|]. eapply Forall_impl; [done|]. auto.
Qed.

Lemma occurrences_NoDup x l : NoDup l → occurrences x l ≤ 1.
Proof.
  induction 1 as [|y l Hy _ IH]; [rewrite occurrences_nil; lia|].
  rewrite occurrences_cons. destruct (decide (x = y)) as [->|]; [|simpl; lia].
  rewrite occurrences_not_elem by done. lia.
Qed.

(** C2.  A segment with exactly one connection name that is still
    unassigned when [_step] runs (it is in [unsolvedSegments] and has no
    assigned points) gets, in that one step, its connection at the midpoint
    of [start] and [end] with [z = availableZ[0]], and one reference to it
    moves from [unsolvedSegments] to [solvedSegments]; this holds for every
    such segment of the step. *)
Theorem single_connection_gets_midpoint s seg name :
  seg ∈ unsolvedSegments s →
  connectionNames (objects s seg) = [name] →
  assignedPoints s !! seg = None →
  let o := objects s seg in
  assignedPoints (_step s) !! seg
  = Some [ {| connectionName := name;
              point :=
                {| Point3.x := ((Point.x (start o) + Point.x (end_ o)) / 2)%float;
                   Point3.y := ((Point.y (start o) + Point.y (end_ o)) / 2)%float;
                   Point3.z := head (availableZ o) |} |} ]
  ∧ seg ∈ solvedSegments (_step s)
  ∧ occurrences seg (solvedSegments (_step s))
    = occurrences seg (solvedSegments s) + 1
  ∧ occurrences seg (unsolvedSegments (_step s)) + 1
    = occurrences seg (unsolvedSegments s)
  ∧ (NoDup (unsolvedSegments s) → seg ∉ unsolvedSegments (_step s)).
Proof.
  intros Hin Hnames Hnone o.
  assert (Hq : qualifies s seg = true).
  { unfold qualifies, already_processed, name_count. by rewrite Hnone, Hnames. }
  assert (Ht : touched s (unsolvedSegments s) seg = true).
  { unfold touched. by rewrite Hq, bool_decide_eq_true_2. }
  assert (Hex : Exists (λ x, qualifies s x = true) (unsolvedSegments s)).
  { apply Exists_exists. eauto. }
  rewrite _step_assigning by done.
  destruct (finish_fields (phaseA s (unsolvedSegments s)).1)
    as (_ & -> & -> & -> & _).
  pose proof (phaseA_assignedPoints _ s false seg (snapshot_ok_init s)) as Ha.
  pose proof (phaseA_solvedSegments _ s false seg (snapshot_ok_init s)) as Hs.
  pose proof (phaseA_unsolvedSegments _ s false seg (snapshot_ok_init s)) as Hu.
  rewrite Ht in Ha, Hs, Hu. unfold phaseA.
  split_and!; [|apply elem_of_occurrences; lia|done|done|].
  - rewrite Ha. unfold midpoint_assignment. by rewrite Hnames.
  - intros Hnd%(occurrences_NoDup seg). rewrite elem_of_occurrences. lia.
Qed.

(** The single connection X of the segment from (0,0) to (4,2) gets the
    point (2,1) on layer 1 in the first step. *)
Lemma single_connection_gets_midpoint_example :
  assignedPoints (_step SegmentToPointExamples.solver_CAB_X) !! 1
  = Some [ {| connectionName := "X";
              point := Point3.mk 2 1 (Some 1%float) |} ]
  ∧ 1 ∈ solvedSegments (_step SegmentToPointExamples.solver_CAB_X)
  ∧ 1 ∉ unsolvedSegments (_step SegmentToPointExamples.solver_CAB_X).
Proof.
  destruct (single_connection_gets_midpoint
              SegmentToPointExamples.solver_CAB_X 1 "X")
    as (Ha & Hs & _ & _ & Hu).
  - by_evaluation.
  - reflexivity.
  - reflexivity.
  - split_and!; [exact Ha|exact Hs|].
    apply Hu. by_evaluation.
Defined.

(** C1.  When the first loop of [_step] assigns nothing and unsolved
    segments remain, the fallback takes the first of the unsolved segments
    with the fewest connection names, sorts its names lexicographically (as
    JavaScript compares strings, by UTF-16 code unit),
    gives the [i]-th name (counting from 1) the point at the fraction
    [i / (n + 1)] of the way from [start] to [end] with [z = availableZ[0]],
    and moves exactly that segment from [unsolvedSegments] to
    [solvedSegments]. *)
Theorem fallback_assigns_sorted_evenly_spaced s :
  unsolvedSegments s ≠ [] →
  Forall (λ seg, qualifies s seg = false) (unsolvedSegments s) →
  ∃ pre candidate post,
    unsolvedSegments s = pre ++ candidate :: post
    ∧ Forall (λ r, name_count s candidate < name_count s r) pre
    ∧ Forall (λ r, name_count s candidate ≤ name_count s r) post
    ∧ let o := objects s candidate in
      let n := length (connectionNames o) in
      let sorted := JS.sort (connectionNames o) in
      sorted ≡ₚ connectionNames o
      ∧ StronglySorted lex_le sorted
      ∧ (∃ aps, assignedPoints (_step s) !! candidate = Some aps
           ∧ length aps = n
           ∧ ∀ i name, sorted !! i = Some name →
               aps !! i = Some {| connectionName := name;
                                  point := point_at_fraction o (i + 1) n |})
      ∧ (∀ x, x ≠ candidate →
           assignedPoints (_step s) !! x = assignedPoints s !! x)
      ∧ unsolvedSegments (_step s) = pre ++ post
      ∧ solvedSegments (_step s) = solvedSegments s ++ [candidate].
Proof.
  intros Hne Hall.
  destruct (candidate_exists s Hne) as (pre & c & post & Heq & Hpre & Hpost).
  exists pre, c, post. split_and!; [done..|].
  rewrite _step_fallback by done.
  destruct (finish_fields (phaseB s (unsolvedSegments s)))
    as (_ & -> & -> & -> & _).
  rewrite (phaseB_eq s pre c post) by done. simpl.
  split_and!; [apply sort_Permutation| | | |done|done].
  - eapply StronglySorted_weaken; [|apply sort_StronglySorted].
    intros a b. apply string_le_lex_le.
  - eexists. split_and!; [apply lookup_insert_eq|apply length_fallback_assignment|].
    intros i name. apply lookup_fallback_assignment.
  - intros x Hx. by rewrite lookup_insert_ne.
Qed.

(** The fallback on names [C; A; B] from (0,0) to (9,0): A at (2.25, 0),
    B at (4.5, 0) and C at (6.75, 0), on the first available layer. *)
Lemma fallback_assigns_sorted_evenly_spaced_example :
  assignedPoints (_step SegmentToPointExamples.solver_CAB) !! 0
  = Some [ {| connectionName := "A"; point := Point3.mk 2.25 0 (Some 0%float) |};
           {| connectionName := "B"; point := Point3.mk 4.5 0 (Some 0%float) |};
           {| connectionName := "C"; point := Point3.mk 6.75 0 (Some 0%float) |} ]
  ∧ unsolvedSegments (_step SegmentToPointExamples.solver_CAB) = []
  ∧ solvedSegments (_step SegmentToPointExamples.solver_CAB) = [0].
Proof.
  destruct (fallback_assigns_sorted_evenly_spaced SegmentToPointExamples.solver_CAB)
    as (pre & c & post & Heq & _ & _ & _ & _ & (aps & Ha & Hlen & Hlook) & _ & Hun & Hso).
  - discriminate.
  - by_evaluation.
  - assert (pre = [] ∧ c = 0 ∧ post = []) as (-> & -> & ->).
    { destruct pre as [|? [|? ?]]; by simplify_eq/=. }
    split_and!; [|exact Hun|exact Hso].
    rewrite Ha. f_equal.
    pose proof (Hlook 0 "A" eq_refl) as H0.
    pose proof (Hlook 1 "B" eq_refl) as H1.
    pose proof (Hlook 2 "C" eq_refl) as H2.
    destruct aps as [|a0 [|a1 [|a2 [|a3 aps]]]]; simplify_eq/=.
    reflexivity.
Defined.

(** The order is that of the UTF-16 code units: the emoji U+1F600, whose
    first code unit is D83D, gets its point before the full-width letter
    U+FF21, and the letter a before both. *)
Lemma fallback_orders_names_by_code_unit :
  JS.code_units "😀" = [55357; 56832]%N
  ∧ JS.code_units "Ａ" = [65313]%N
  ∧ assignedPoints (_step SegmentToPointExamples.solver_unicode) !! 3
    = Some [ {| connectionName := "a"; point := Point3.mk 2 0 (Some 0%float) |};
             {| connectionName := "😀"; point := Point3.mk 4 0 (Some 0%float) |};
             {| connectionName := "Ａ"; point := Point3.mk 6 0 (Some 0%float) |} ].
Proof. split_and!; vm_compute; reflexivity. Qed.

(** C3 (as amended).  Every call of [step] while unsolved segments remain
    assigns at least one segment: [unsolvedSegments] strictly shrinks,
    [solvedSegments] strictly grows and no reference is lost; the solver is
    solved after [max 1 (length segments)] calls and stays so. *)
Theorem step_makes_progress_and_terminates
    (objs : nat → NodePortSegment) (segments : list nat)
    (nodes : list CapacityMeshNode) :
  (∀ k, unsolvedSegments (run objs segments nodes k) ≠ [] →
        solved (run objs segments nodes k) = false
        ∧ length (unsolvedSegments (run objs segments nodes (S k)))
          < length (unsolvedSegments (run objs segments nodes k))
        ∧ length (solvedSegments (run objs segments nodes k))
          < length (solvedSegments (run objs segments nodes (S k))))
  ∧ (∀ k, length (unsolvedSegments (run objs segments nodes k))
          + length (solvedSegments (run objs segments nodes k))
          = length segments)
  ∧ (∀ k, Nat.max 1 (length segments) ≤ k →
          solved (run objs segments nodes k) = true
          ∧ unsolvedSegments (run objs segments nodes k) = []).
Proof.
  split_and!.
  - intros k Hne.
    destruct (run_invariant objs segments nodes k)
      as (_ & _ & Hf & Hs & _ & Hsum & _).
    destruct (run_invariant objs segments nodes (S k))
      as (_ & _ & _ & _ & _ & Hsum' & _).
    assert (Hsolved : solved (run objs segments nodes k) = false).
    { destruct (solved (run objs segments nodes k)); [|done]. by destruct Hne; apply Hs. }
    split; [done|]. rewrite run_S in *. unfold step in *.
    rewrite Hsolved, Hf in *. simpl in *.
    destruct (_step_progress (run objs segments nodes k)) as [_ Hlt].
    specialize (Hlt Hne). lia.
  - intros k. by destruct (run_invariant objs segments nodes k) as (_ & _ & _ & _ & _ & ? & _).
  - apply run_solved.
Qed.

(** C3 fails as stated on the empty collection: the solver is not solved
    after 0 calls, and its first call assigns nothing. *)
Lemma progress_as_stated_fails_on_empty :
  ¬ progress_as_stated SegmentToPointExamples.objs [] [].
Proof.
  intros [Hshrink _]. specialize (Hshrink 0 eq_refl). simpl in Hshrink. lia.
Qed.

(** The first loop leaves a segment without connection names alone. *)
Lemma phaseA_skips_empty l : ∀ s u seg,
  connectionNames (objects s seg) = [] →
  assignedPoints (foldl phaseA_iter (s, u) l).1 !! seg = assignedPoints s !! seg
  ∧ occurrences seg (solvedSegments (foldl phaseA_iter (s, u) l).1)
    = occurrences seg (solvedSegments s).
Proof.
  induction l as [|x l IH]; intros s u seg Hnames; [done|].
  rewrite phaseA_cons. destruct (qualifies s x) eqn:Hq; [|by apply IH].
  assert (Hne : seg ≠ x).
  { intros ->. apply qualifies_name_count in Hq.
    unfold name_count in Hq. by rewrite Hnames in Hq. }
  destruct (IH (process x s) true seg Hnames) as [-> ->]. simpl.
  rewrite lookup_insert_ne by done. unfold JS.push.
  rewrite occurrences_app, occurrences_cons, occurrences_nil.
  destruct (decide (seg = x)); [done|]. split; [done|lia].
Qed.

Lemma fallback_assignment_empty o :
  connectionNames o = [] → fallback_assignment o = [].
Proof. unfold fallback_assignment. by intros ->. Qed.

(** C10.  A segment without connection names is never assigned by the
    first loop.  In a step in which no unsolved segment has exactly one
    name, the first such segment is the candidate of the fallback, which
    moves it to [solvedSegments] with an empty list of assigned points, so
    [unsolvedSegments] still shrinks; and a solver whose input holds such
    segments is solved after [length segments] calls of [step]. *)
Theorem empty_segment_resolved_by_fallback :
  (∀ s l seg,
     connectionNames (objects s seg) = [] →
     assignedPoints (phaseA s l).1 !! seg = assignedPoints s !! seg
     ∧ occurrences seg (solvedSegments (phaseA s l).1)
       = occurrences seg (solvedSegments s))
  ∧ (∀ s pre seg post,
       unsolvedSegments s = pre ++ seg :: post →
       connectionNames (objects s seg) = [] →
       Forall (λ r, connectionNames (objects s r) ≠ []) pre →
       Forall (λ r, name_count s r ≠ 1) (unsolvedSegments s) →
       assignedPoints (_step s) !! seg = Some []
       ∧ unsolvedSegments (_step s) = pre ++ post
       ∧ solvedSegments (_step s) = solvedSegments s ++ [seg]
       ∧ length (unsolvedSegments (_step s)) < length (unsolvedSegments s))
  ∧ (∀ objs segments nodes,
       (∃ seg, seg ∈ segments ∧ connectionNames (objs seg) = []) →
       solved (run objs segments nodes (length segments)) = true
       ∧ unsolvedSegments (run objs segments nodes (length segments)) = []).
Proof.
  split_and!.
  - intros s l seg Hnames. by apply phaseA_skips_empty.
  - intros s pre seg post Heq Hnames Hpre Hall.
    assert (Hq : Forall (λ x, qualifies s x = false) (unsolvedSegments s)).
    { eapply Forall_impl; [exact Hall|]. intros x Hx. unfold qualifies.
      by rewrite (bool_decide_eq_false_2 _ Hx), andb_false_r. }
    assert (Hcount : name_count s seg = 0).
    { unfold name_count. by rewrite Hnames. }
    rewrite _step_fallback by done.
    destruct (finish_fields (phaseB s (unsolvedSegments s)))
      as (_ & -> & -> & -> & _).
    rewrite (phaseB_eq s pre seg post); [|done| |].
    + simpl. rewrite lookup_insert_eq, fallback_assignment_empty by done.
      split_and!; [done..|]. rewrite Heq, !length_app. simpl. lia.
    + eapply Forall_impl; [exact Hpre|]. intros r Hr. simpl in Hr.
      rewrite Hcount. unfold name_count. destruct (connectionNames (objects s r)); [congruence|simpl; lia].
    + rewrite Hcount. apply Forall_forall. intros; lia.
  - intros objs segments nodes (seg & Hin & _). apply run_solved.
    destruct segments; [by apply elem_of_nil in Hin|simpl; lia].
Qed.

(** With a three-connection segment and a segment without connections, the
    first step moves the latter with no assigned points; two steps solve. *)
Lemma empty_segment_resolved_by_fallback_example :
  assignedPoints (_step SegmentToPointExamples.solver_CAB_none) !! 2 = Some []
  ∧ unsolvedSegments (_step SegmentToPointExamples.solver_CAB_none) = [0]
  ∧ solvedSegments (_step SegmentToPointExamples.solver_CAB_none) = [2]
  ∧ solved (run SegmentToPointExamples.objs [0; 2] SegmentToPointExamples.nodes 2) = true.
Proof.
  destruct empty_segment_resolved_by_fallback as (_ & Hstep & Hrun).
  destruct (Hstep SegmentToPointExamples.solver_CAB_none [0] 2 [])
    as (Ha & Hu & Hs & _).
  - reflexivity.
  - reflexivity.
  - by_evaluation.
  - by_evaluation.
  - destruct (Hrun SegmentToPointExamples.objs [0; 2] SegmentToPointExamples.nodes)
      as [Hsolved _].
    + exists 2. split; [by_evaluation|reflexivity].
    + split_and!; [exact Ha|exact Hu|exact Hs|exact Hsolved].
Defined.

End SegmentToPointTheorems.

(** * CapacitySegmentToPointSolver: [getNodesWithPortPoints] *)

Module PortPointsFacts.
Import CapacitySegmentToPointSolver SegmentToPointSpec JSFacts
  SegmentToPointFacts SegmentToPointStep.

Implicit Types (s : t) (seg x : nat) (l : list nat)
  (map : list (string * NodeWithPortPoints.t)).

Lemma node_port_points_nil s nodeId : node_port_points s nodeId [] = [].
Proof. done. Qed.

Lemma node_port_points_snoc s nodeId l seg aps :
  assignedPoints s !! seg = Some aps →
  node_port_points s nodeId (l ++ [seg])
  = node_port_points s nodeId l
    ++ (if decide (owner s seg = nodeId) then portPoint_of <$> aps else []).
Proof.
  intros Haps. unfold node_port_points.
  rewrite filter_app, fmap_app, concat_app. f_equal.
  rewrite filter_cons, filter_nil.
  destruct (decide (owner s seg = nodeId)); simpl; [|done].
  by rewrite Haps, app_nil_r.
Qed.

Lemma node_port_points_no_owner s nodeId l :
  (¬ ∃ seg, seg ∈ l ∧ owner s seg = nodeId) → node_port_points s nodeId l = [].
Proof.
  intros Hno. unfold node_port_points.
  replace (filter (λ seg, owner s seg = nodeId) l) with (@nil nat); [done|].
  symmetry. induction l as [|seg l IH]; [done|].
  rewrite filter_cons_False.
  - apply IH. intros (seg' & Hin & Hown). apply Hno. exists seg'. split; [by right|done].
  - intros Hown. apply Hno. exists seg. split; [left|done].
Qed.

Lemma Map_push_keys nodeId pts map :
  (Map_push_portPoints nodeId pts map).*1 = map.*1.
Proof.
  unfold Map_push_portPoints. rewrite <- list_fmap_compose.
  apply list_fmap_ext. intros i [k v] _. simpl. by case_bool_decide.
Qed.

Lemma Map_push_ok s l seg aps map :
  assignedPoints s !! seg = Some aps →
  Forall (λ kv, NodeWithPortPoints.capacityMeshNodeId kv.2 = kv.1
                ∧ entry_ok s l kv.2) map →
  Forall (λ kv, NodeWithPortPoints.capacityMeshNodeId kv.2 = kv.1
                ∧ entry_ok s (l ++ [seg]) kv.2)
         (Map_push_portPoints (owner s seg) (portPoint_of <$> aps) map).
Proof.
  intros Haps Hall. unfold Map_push_portPoints. apply Forall_fmap.
  eapply Forall_impl; [exact Hall|].
  intros [k v] [Hk [Hnode Hpts]]. simpl in *.
  case_bool_decide as Hkey; simpl; (split; [done|]); (split; [done|]).
  - simpl. rewrite (node_port_points_snoc _ _ _ _ aps) by done.
    rewrite Hpts, Hk, Hkey. by rewrite decide_True.
  - rewrite (node_port_points_snoc _ _ _ _ aps) by done.
    rewrite Hpts, Hk. rewrite decide_False by done. by rewrite app_nil_r.
Qed.

(** The port points of a node are those of its assigned points, one for
    one. *)
Lemma node_port_points_assigned s nodeId l :
  Forall2 port_point_of_assigned
    (node_port_points s nodeId l) (node_assigned_points s nodeId l).
Proof.
  unfold node_port_points, node_assigned_points.
  induction (filter (λ seg, owner s seg = nodeId) l) as [|seg segs IH]; simpl.
  { constructor. }
  apply Forall2_app; [|done].
  apply Forall2_fmap_l, Forall_Forall2_diag, Forall_forall.
  intros ap _. by split_and!.
Qed.

(** One iteration of the loop keeps the map consistent with the segments
    seen so far. *)
Lemma add_segment_ok s l map seg node aps :
  map_ok s l map →
  nodeMap s !! owner s seg = Some node →
  assignedPoints s !! seg = Some aps →
  ∃ map', add_segment s map seg = inr map' ∧ map_ok s (l ++ [seg]) map'.
Proof.
  intros (Hnd & Hkeys & Hall) Hnode Haps. unfold add_segment.
  fold (owner s seg). rewrite Hnode, Haps. unfold Map_has.
  case_bool_decide as Hhas; eexists; (split; [done|]).
  - split_and!.
    + by rewrite Map_push_keys.
    + intros nodeId. rewrite Map_push_keys, Hkeys. split.
      * intros (seg' & Hin & Hown). exists seg'. split; [|done].
        apply elem_of_app. by left.
      * intros (seg' & [Hin|Hin%list_elem_of_singleton]%elem_of_app & Hown).
        { eauto. }
        subst seg'. rewrite <- Hown. by apply Hkeys.
    + by apply Map_push_ok.
  - split_and!.
    + rewrite Map_push_keys, fmap_app. simpl.
      apply NoDup_app. split_and!; [done| |apply NoDup_singleton].
      intros k Hk ->%list_elem_of_singleton. done.
    + intros nodeId. rewrite Map_push_keys, fmap_app, elem_of_app, Hkeys. simpl.
      rewrite list_elem_of_singleton. split.
      * intros [(seg' & Hin & Hown)| ->].
        { exists seg'. split; [|done]. apply elem_of_app. by left. }
        exists seg. split; [|done]. apply elem_of_app. right. by apply list_elem_of_singleton.
      * intros (seg' & [Hin|Hin%list_elem_of_singleton]%elem_of_app & Hown).
        { left. eauto. }
        right. by subst.
    + apply Map_push_ok; [done|]. apply Forall_app. split; [done|].
      apply Forall_singleton. simpl. split; [done|]. split; [eauto|]. simpl.
      symmetry. apply node_port_points_no_owner.
      intros Hex. by apply Hhas, Hkeys.
Qed.

(** The loop of lines 150-168 over [rest], after the segments [l]. *)
Lemma add_segments_ok s rest : ∀ l map,
  map_ok s l map →
  (∀ seg, seg ∈ rest →
     is_Some (nodeMap s !! owner s seg) ∧ is_Some (assignedPoints s !! seg)) →
  ∃ map',
    foldl (λ acc seg, match acc with
                      | inl e => inl e
                      | inr map => add_segment s map seg
                      end) (inr map) rest = inr map'
    ∧ map_ok s (l ++ rest) map'.
Proof.
  induction rest as [|seg rest IH]; intros l map Hok Hrest.
  { exists map. by rewrite app_nil_r. }
  destruct (Hrest seg) as [[node Hnode] [aps Haps]]; [left|].
  destruct (add_segment_ok s l map seg node aps) as (map1 & Hadd & Hok1); [done..|].
  destruct (IH (l ++ [seg]) map1) as (map' & Hfold & Hok'); [done| |].
  { intros seg' Hin. apply Hrest. by right. }
  exists map'. simpl. rewrite Hadd. split; [done|].
  by rewrite <- app_assoc in Hok'.
Qed.

Lemma map_ok_nil s : map_ok s [] [].
Proof.
  split_and!; [constructor| |constructor].
  intros nodeId. simpl. split; [by intros ?%elem_of_nil|].
  by intros (seg & ?%elem_of_nil & _).
Qed.

(** A solved solver whose solved segments all have an owner in [nodeMap] and
    assigned points returns one entry per owner. *)
Lemma getNodesWithPortPoints_ok s :
  solved s = true →
  (∀ seg, seg ∈ solvedSegments s →
     is_Some (nodeMap s !! owner s seg) ∧ is_Some (assignedPoints s !! seg)) →
  ∃ res, getNodesWithPortPoints s = inr res
    ∧ NoDup (NodeWithPortPoints.capacityMeshNodeId <$> res)
    ∧ (∀ nodeId, nodeId ∈ NodeWithPortPoints.capacityMeshNodeId <$> res
                 ↔ ∃ seg, seg ∈ solvedSegments s ∧ owner s seg = nodeId)
    ∧ Forall (entry_ok s (solvedSegments s)) res.
Proof.
  intros Hsolved Hsegs. unfold getNodesWithPortPoints. rewrite Hsolved. simpl.
  destruct (add_segments_ok s (solvedSegments s) [] [] (map_ok_nil s) Hsegs)
    as (map & -> & Hnd & Hkeys & Hall).
  simpl in *. exists (map.*2).
  assert (Hids : NodeWithPortPoints.capacityMeshNodeId <$> map.*2 = map.*1).
  { rewrite <- list_fmap_compose. apply Forall_fmap_ext.
    eapply Forall_impl; [exact Hall|]. by intros kv [? _]. }
  rewrite Hids. split_and!; [done..|].
  apply Forall_fmap. eapply Forall_impl; [exact Hall|]. by intros kv [_ ?].
Qed.

(** ** What holds of every state of a run *)

Lemma _step_occurrences s x :
  occurrences x (unsolvedSegments (_step s)) + occurrences x (solvedSegments (_step s))
  = occurrences x (unsolvedSegments s) + occurrences x (solvedSegments s).
Proof.
  destruct (qualifies_dec s (unsolvedSegments s)) as [Hex|Hall].
  - rewrite _step_assigning by done.
    destruct (finish_fields (phaseA s (unsolvedSegments s)).1)
      as (_ & _ & -> & -> & _).
    pose proof (phaseA_solvedSegments _ s false x (snapshot_ok_init s)).
    pose proof (phaseA_unsolvedSegments _ s false x (snapshot_ok_init s)).
    unfold phaseA. lia.
  - rewrite _step_fallback by done.
    destruct (finish_fields (phaseB s (unsolvedSegments s)))
      as (_ & _ & -> & -> & _).
    destruct (decide (unsolvedSegments s = [])) as [Hnil|Hne].
    { by rewrite phaseB_nil. }
    destruct (candidate_exists s Hne) as (pre & c & post & Heq & Hpre & Hpost).
    rewrite (phaseB_eq s pre c post) by done. simpl.
    rewrite Heq, !occurrences_app, !occurrences_cons, occurrences_nil. lia.
Qed.

Lemma _step_solved_assigned s :
  (∀ seg, seg ∈ solvedSegments s → is_Some (assignedPoints s !! seg)) →
  ∀ seg, seg ∈ solvedSegments (_step s) → is_Some (assignedPoints (_step s) !! seg).
Proof.
  intros Hinv seg.
  destruct (qualifies_dec s (unsolvedSegments s)) as [Hex|Hall].
  - rewrite _step_assigning by done.
    destruct (finish_fields (phaseA s (unsolvedSegments s)).1)
      as (_ & -> & _ & -> & _).
    pose proof (phaseA_solvedSegments _ s false seg (snapshot_ok_init s)) as Hs.
    pose proof (phaseA_assignedPoints _ s false seg (snapshot_ok_init s)) as Ha.
    unfold phaseA. rewrite Ha. intros Hin%elem_of_occurrences.
    destruct (touched s (unsolvedSegments s) seg); [done|].
    apply Hinv, elem_of_occurrences. lia.
  - rewrite _step_fallback by done.
    destruct (finish_fields (phaseB s (unsolvedSegments s)))
      as (_ & -> & _ & -> & _).
    destruct (decide (unsolvedSegments s = [])) as [Hnil|Hne].
    { rewrite phaseB_nil by done. apply Hinv. }
    destruct (candidate_exists s Hne) as (pre & c & post & Heq & Hpre & Hpost).
    rewrite (phaseB_eq s pre c post) by done. simpl.
    intros [Hin| ->%list_elem_of_singleton]%elem_of_app.
    + destruct (decide (c = seg)) as [->|?];
        [by rewrite lookup_insert_eq|rewrite lookup_insert_ne by done; auto].
    + by rewrite lookup_insert_eq.
Qed.

Lemma run_segments objs segments nodes k :
  let s := run objs segments nodes k in
  (∀ x, occurrences x (unsolvedSegments s) + occurrences x (solvedSegments s)
        = occurrences x segments)
  ∧ (∀ seg, seg ∈ solvedSegments s → is_Some (assignedPoints s !! seg)).
Proof.
  induction k as [|k IH]; cbv zeta in *.
  { simpl. split; [intros x; rewrite occurrences_nil; lia|].
    by intros seg ?%elem_of_nil. }
  rewrite run_S. destruct IH as [Hocc Hassigned]. unfold step.
  destruct (solved _ || failed _); [done|].
  split.
  - intros x. by rewrite _step_occurrences.
  - by apply _step_solved_assigned.
Qed.

Lemma nodeMap_of_snoc nodes node :
  nodeMap_of (nodes ++ [node]) = <[capacityMeshNodeId node := node]> (nodeMap_of nodes).
Proof. unfold nodeMap_of. by rewrite foldl_app. Qed.

(** [nodeMap] holds, for each identity among [nodes], a node of [nodes] with
    that identity. *)
Lemma nodeMap_of_lookup nodes nodeId :
  (∀ node, nodeMap_of nodes !! nodeId = Some node →
           node ∈ nodes ∧ capacityMeshNodeId node = nodeId)
  ∧ ((∃ node, node ∈ nodes ∧ capacityMeshNodeId node = nodeId) →
     is_Some (nodeMap_of nodes !! nodeId)).
Proof.
  induction nodes as [|n nodes [IH1 IH2]] using rev_ind.
  { split; [done|]. by intros (node & ?%elem_of_nil & _). }
  rewrite nodeMap_of_snoc.
  destruct (decide (capacityMeshNodeId n = nodeId)) as [Heq|Hne].
  - rewrite Heq, lookup_insert_eq. split; [|eauto].
    intros node [= <-]. split; [|done]. apply elem_of_app. right. left.
  - rewrite lookup_insert_ne by done. split.
    + intros node [Hin Hid]%IH1. split; [|done]. apply elem_of_app. by left.
    + intros (node & [Hin|Hin%list_elem_of_singleton]%elem_of_app & Hid).
      * apply IH2. eauto.
      * by subst.
Qed.

End PortPointsFacts.

Module PortPointsTheorems.
Import CapacitySegmentToPointSolver SegmentToPointSpec JSFacts
  SegmentToPointFacts SegmentToPointStep PortPointsFacts.

(** C8.  On a solver that is not solved, [getNodesWithPortPoints] throws the
    error "not solved" and returns nothing.  On a solved solver, whose
    segments all belong to one of the mesh nodes it was given, it returns for
    each mesh node that owns a segment the node's identity, centre, width and
    height with the flattened list of the port points of all of that node's
    segments: for each assigned point of these segments, in order, the
    coordinates of the point with its connection name. *)
Theorem getNodesWithPortPoints_spec :
  (∀ s, solved s = false →
        getNodesWithPortPoints s = inl (JS.Error not_solved_message))
  ∧ (∀ objs segments nodes k,
       solved (run objs segments nodes k) = true →
       (∀ seg, seg ∈ segments →
          ∃ node, node ∈ nodes
            ∧ capacityMeshNodeId node = seg_capacityMeshNodeId (objs seg)) →
       ∃ res,
         getNodesWithPortPoints (run objs segments nodes k) = inr res
         ∧ port_points_result objs segments nodes (run objs segments nodes k) res).
Proof.
  split.
  { intros s Hs. unfold getNodesWithPortPoints. by rewrite Hs. }
  intros objs segments nodes k Hsolved Hnodes.
  destruct (run_invariant objs segments nodes k) as (Hobj & Hnm & _ & Hnil & _).
  destruct (run_segments objs segments nodes k) as [Hocc Hassigned].
  specialize (Hnil Hsolved).
  set (s := run objs segments nodes k) in *.
  assert (Hmem : ∀ seg, seg ∈ solvedSegments s ↔ seg ∈ segments).
  { intros seg. rewrite !elem_of_occurrences, <- Hocc, Hnil, occurrences_nil. done. }
  destruct (getNodesWithPortPoints_ok s Hsolved) as (res & Hres & Hnd & Hkeys & Hall).
  { intros seg Hin. split; [|by apply Hassigned].
    rewrite Hnm. apply nodeMap_of_lookup. unfold owner. rewrite Hobj.
    apply Hnodes. by apply Hmem. }
  exists res. split; [done|]. split_and!; [done| | |].
  - intros nodeId. rewrite Hkeys. unfold owner. rewrite Hobj.
    split; intros (seg & Hin & Hown); exists seg; (split; [by apply Hmem|done]).
  - intros r Hr. rewrite Forall_forall in Hall.
    destruct (Hall r Hr) as [(node & Hnode & ? & ? & ?) Hpts].
    rewrite Hnm in Hnode. apply nodeMap_of_lookup in Hnode as [? ?].
    exists node. split_and!; [done..|].
    rewrite Hpts. apply node_port_points_assigned.
  - intros seg Hin%Hmem. split; [done|by apply Hassigned].
Qed.

(** Before the first step the query throws; after two steps it returns the
    port points of the two nodes. *)
Lemma getNodesWithPortPoints_spec_example :
  getNodesWithPortPoints SegmentToPointExamples.solver_CAB_X
  = inl (JS.Error not_solved_message)
  ∧ ∃ res,
      getNodesWithPortPoints
        (run SegmentToPointExamples.objs [0; 1] SegmentToPointExamples.nodes 2)
      = inr res
      ∧ port_points_result SegmentToPointExamples.objs [0; 1]
          SegmentToPointExamples.nodes
          (run SegmentToPointExamples.objs [0; 1] SegmentToPointExamples.nodes 2)
          res.
Proof.
  destruct getNodesWithPortPoints_spec as [Hunsolved Hsolved].
  split.
  - apply Hunsolved. reflexivity.
  - apply Hsolved; [reflexivity|].
    intros seg Hin.
    apply elem_of_cons in Hin as [->|Hin];
      [|apply list_elem_of_singleton in Hin as ->].
    + exists (SegmentToPointExamples.node "n1"). split; [left|reflexivity].
    + exists (SegmentToPointExamples.node "n2"). split; [right; left|reflexivity].
Defined.

(** The value returned in the example: node n2 with the midpoint of X, then
    node n1 with the three points of A, B and C. *)
Lemma getNodesWithPortPoints_example_value :
  getNodesWithPortPoints
    (run SegmentToPointExamples.objs [0; 1] SegmentToPointExamples.nodes 2)
  = inr [ NodeWithPortPoints.mk "n2"
            [ PortPoint.mk 2 1 (Some 1%float) "X" ]
            (Point.mk 5 5) 10 10;
          NodeWithPortPoints.mk "n1"
            [ PortPoint.mk 2.25 0 (Some 0%float) "A";
              PortPoint.mk 4.5 0 (Some 0%float) "B";
              PortPoint.mk 6.75 0 (Some 0%float) "C" ]
            (Point.mk 5 5) 10 10 ].
Proof. vm_compute. reflexivity. Qed.

(** Where a segment belongs to a node that is not among the mesh nodes
    given to the solver, reading the node's centre raises a [TypeError]. *)
Lemma getNodesWithPortPoints_missing_node :
  getNodesWithPortPoints
    (run SegmentToPointExamples.objs [1] [SegmentToPointExamples.node "n1"] 1)
  = inl JS.TypeError.
Proof. vm_compute. reflexivity. Qed.

End PortPointsTheorems.

(** * CapacityPathingSingleSectionSolver: adjacency *)

Module SectionFacts.
Import CapacityPathingSingleSectionSolver SectionSpec.

Implicit Types (edges es : list CapacityMeshEdge) (edge e : CapacityMeshEdge)
  (u v nodeId center : string) (b : bfs).

Lemma getNodeEdgeMap_snoc edges edge :
  getNodeEdgeMap (edges ++ [edge])
  = let m := getNodeEdgeMap edges in
    let m1 := <[(nodeIds edge).1 := default [] (m !! (nodeIds edge).1) ++ [edge]]> m in
    <[(nodeIds edge).2 := default [] (m1 !! (nodeIds edge).2) ++ [edge]]> m1.
Proof. unfold getNodeEdgeMap. by rewrite foldl_app. Qed.

(** The map gives each identity the edges that name it. *)
Lemma getNodeEdgeMap_lookup edges nodeId e :
  e ∈ default [] (getNodeEdgeMap edges !! nodeId)
  ↔ e ∈ edges ∧ ((nodeIds e).1 = nodeId ∨ (nodeIds e).2 = nodeId).
Proof.
  induction edges as [|edge edges IH] using rev_ind.
  { unfold getNodeEdgeMap. simpl. rewrite lookup_empty. simpl.
    split; [by intros ?%elem_of_nil|by intros [?%elem_of_nil _]]. }
  rewrite getNodeEdgeMap_snoc. cbv zeta.
  set (m := getNodeEdgeMap edges) in *.
  rewrite elem_of_app, list_elem_of_singleton.
  assert (Hold : e ∈ default [] (m !! nodeId) ++ [edge]
                 ↔ (e ∈ edges ∨ e = edge)
                   ∧ ((nodeIds e).1 = nodeId ∨ (nodeIds e).2 = nodeId)
                 ∨ e = edge).
  { rewrite elem_of_app, list_elem_of_singleton, IH. tauto. }
  destruct (nodeIds edge) as [a c] eqn:Hedge. simpl.
  destruct (decide (c = nodeId)) as [->|H2];
    destruct (decide (a = nodeId)) as [->|H1].
  - rewrite lookup_insert_eq. simpl. rewrite lookup_insert_eq. simpl.
    rewrite elem_of_app, list_elem_of_singleton, Hold.
    split; [|tauto].
    intros [[?| ->]| ->]; [tauto|rewrite Hedge; simpl; tauto..].
  - rewrite lookup_insert_eq. simpl. rewrite lookup_insert_ne by done.
    rewrite Hold. split; [|tauto].
    intros [?| ->]; [tauto|rewrite Hedge; simpl; tauto].
  - rewrite lookup_insert_ne by done. rewrite lookup_insert_eq. simpl.
    rewrite Hold. split; [|tauto].
    intros [?| ->]; [tauto|rewrite Hedge; simpl; tauto].
  - rewrite !lookup_insert_ne by done. rewrite IH.
    split; [tauto|]. intros [[?| ->] ?]; [tauto|].
    rewrite Hedge in *. simpl in *. tauto.
Qed.

(** The neighbours the loop visits are the adjacent identities other than
    the node itself. *)
Lemma elem_of_neighbors_of edges u v :
  v ∈ neighbors_of (getNodeEdgeMap edges) u ↔ v ≠ u ∧ adjacent edges u v.
Proof.
  unfold neighbors_of, adjacent.
  pose proof (getNodeEdgeMap_lookup edges u) as Hlookup.
  destruct (getNodeEdgeMap edges !! u) as [es|]; simpl in Hlookup.
  - rewrite list_elem_of_In, in_flat_map. split.
    + intros (e & He%list_elem_of_In%Hlookup & Hv%list_elem_of_In).
      apply list_elem_of_filter in Hv as [Hne Hv].
      destruct He as [He Hu]. split; [done|]. exists e. split; [done|].
      destruct (nodeIds e) as [a c]. simpl in *.
      apply elem_of_cons in Hv as [->|Hv%list_elem_of_singleton].
      * destruct Hu as [->| ->]; [done|by right].
      * subst c. destruct Hu as [->| ->]; [by left|done].
    + intros (Hne & e & He & Hids). exists e. split.
      * apply list_elem_of_In, Hlookup. split; [done|].
        destruct Hids as [-> | ->]; simpl; auto.
      * apply list_elem_of_In, list_elem_of_filter. split; [done|].
        destruct Hids as [-> | ->]; simpl; [right; left|left].
  - split; [by intros ?%elem_of_nil|].
    intros (Hne & e & He & Hids). exfalso.
    eapply elem_of_nil, Hlookup. split; [done|].
    destruct Hids as [-> | ->]; simpl; eauto.
Qed.

Lemma adjacent_endpoint edges u v : adjacent edges u v → v ∈ endpoints edges.
Proof.
  intros (e & He & Hids). unfold endpoints.
  apply list_elem_of_In, in_flat_map. exists e. split; [by apply list_elem_of_In|].
  destruct Hids as [-> | ->]; simpl; auto.
Qed.

Lemma length_endpoints edges : length (endpoints edges) = 2 * length edges.
Proof.
  unfold endpoints. induction edges as [|e edges IH]; simpl; [done|]. lia.
Qed.

(** A walk ends at the focus node or at an end of an edge. *)
Lemma hops_endpoint edges center k v :
  hops edges center k v → v = center ∨ v ∈ endpoints edges.
Proof.
  destruct 1 as [|k b c _ Hadj]; [by left|right]. by eapply adjacent_endpoint.
Qed.

End SectionFacts.

(** * CapacityPathingSingleSectionSolver: the breadth-first traversal *)

Module BfsFacts.
Import CapacityPathingSingleSectionSolver SectionSpec SectionFacts.

Implicit Types (edges : list CapacityMeshEdge) (u v center : string)
  (b : bfs) (new : list (string * nat)).

(** The inner loop over the neighbours appends the ones not yet in the set,
    one level below [depth]. *)
Lemma visit_fold depth ns : ∀ b,
  sectionNodeIds b = (queue b).*1 →
  NoDup (queue b).*1 →
  ∃ new,
    queue (foldl (visit depth) b ns) = queue b ++ new
    ∧ sectionNodeIds (foldl (visit depth) b ns) = (queue b ++ new).*1
    ∧ head (foldl (visit depth) b ns) = head b
    ∧ NoDup (queue b ++ new).*1
    ∧ Forall (λ e, e.2 = depth + 1 ∧ e.1 ∈ ns) new
    ∧ ∀ v, v ∈ ns → v ∈ (queue b ++ new).*1.
Proof.
  induction ns as [|n ns IH]; intros b Hids Hnd; simpl.
  { exists []. rewrite !app_nil_r. split_and!; [done..|constructor|].
    by intros v ?%elem_of_nil. }
  destruct (decide (n ∈ sectionNodeIds b)) as [Hin|Hin].
  - replace (visit depth b n) with b
      by (unfold visit; by rewrite bool_decide_eq_true_2).
    destruct (IH b Hids Hnd) as (new & Hq & Hs & Hh & Hnd' & Hnew & Hall).
    exists new. split_and!; [done..| |].
    + eapply Forall_impl; [exact Hnew|]. intros e [? ?]. split; [done|by right].
    + intros v [->|Hv]%elem_of_cons; [|by apply Hall].
      rewrite Hids in Hin. rewrite fmap_app, elem_of_app. by left.
  - set (b1 := {| sectionNodeIds := sectionNodeIds b ++ [n];
                  queue := queue b ++ [(n, depth + 1)];
                  head := head b |}).
    replace (visit depth b n) with b1
      by (unfold visit; by rewrite bool_decide_eq_false_2).
    destruct (IH b1) as (new & Hq & Hs & Hh & Hnd' & Hnew & Hall).
    { simpl. by rewrite fmap_app, Hids. }
    { simpl. rewrite fmap_app. apply NoDup_app. split_and!; [done| |apply NoDup_singleton].
      intros x Hx ->%list_elem_of_singleton. apply Hin. by rewrite Hids. }
    simpl in *. exists ((n, depth + 1) :: new).
    rewrite <- app_assoc in Hq, Hs, Hnd', Hall. simpl in *.
    split_and!; [done..| |].
    + constructor; [split; [done|left]|].
      eapply Forall_impl; [exact Hnew|]. intros e [? ?]. split; [done|by right].
    + intros v [->|Hv]%elem_of_cons; [|by apply Hall].
      rewrite fmap_app, elem_of_app. right. left.
Qed.

Lemma bfs_inv_init edges center r :
  bfs_inv edges center r
    {| sectionNodeIds := [center]; queue := [(center, 0)]; head := 0 |}.
Proof.
  split; simpl.
  - done.
  - apply NoDup_singleton.
  - lia.
  - left.
  - intros v d [= -> ->]%list_elem_of_singleton. split; [lia|constructor].
  - intros i j e e' Hi Hj _.
    apply list_elem_of_lookup_2, list_elem_of_singleton in Hi, Hj. by subst.
  - intros e e' _ ->%list_elem_of_singleton. simpl. lia.
  - intros i u d v Hi. lia.
Qed.

(** An entry at depth [r] or beyond is not expanded. *)
Lemma bfs_body_inv_skip edges center r b u d :
  bfs_inv edges center r b →
  queue b !! head b = Some (u, d) →
  r ≤ d →
  bfs_inv edges center r
    {| sectionNodeIds := sectionNodeIds b; queue := queue b; head := head b + 1 |}.
Proof.
  intros [Hids Hnd Hhead Hcenter Hsound Hsorted Hfront Hclosed] Hu Hr.
  split; simpl; [done|done| |done|done|done| |].
  - apply lookup_lt_Some in Hu. lia.
  - intros e e' He He'.
    pose proof (Hfront _ _ Hu He') as Hle.
    pose proof (Hsorted (head b) (head b + 1) _ _ Hu He) as Hmono.
    simpl in *. lia.
  - intros i u' d' v Hi Hu' Hd' Hadj.
    destruct (decide (i = head b)) as [->|Hne].
    + rewrite Hu in Hu'. simplify_eq. lia.
    + apply (Hclosed i u' d' v); [lia|done..].
Qed.

(** An entry above depth [r] is expanded: its neighbours are enqueued. *)
Lemma bfs_body_inv_expand edges center r b u d :
  bfs_inv edges center r b →
  queue b !! head b = Some (u, d) →
  d < r →
  bfs_inv edges center r
    (foldl (visit d)
       {| sectionNodeIds := sectionNodeIds b; queue := queue b; head := head b + 1 |}
       (neighbors_of (getNodeEdgeMap edges) u)).
Proof.
  intros [Hids Hnd Hhead Hcenter Hsound Hsorted Hfront Hclosed] Hu Hr.
  destruct (visit_fold d (neighbors_of (getNodeEdgeMap edges) u)
              {| sectionNodeIds := sectionNodeIds b; queue := queue b;
                 head := head b + 1 |})
    as (new & Hq & Hs & Hh & Hnd' & Hnew & Hall); [done..|].
  simpl in *. rewrite Forall_forall in Hnew.
  assert (Hu_in : (u, d) ∈ queue b) by by eapply list_elem_of_lookup_2.
  assert (Hdepth : ∀ e, e ∈ queue b ++ new → e.2 ≤ d + 1).
  { intros e [He|He]%elem_of_app.
    - apply (Hfront _ _ Hu He).
    - destruct (Hnew e He) as [-> _]. lia. }
  assert (Hsorted' : ∀ i j e e', (queue b ++ new) !! i = Some e →
            (queue b ++ new) !! j = Some e' → i ≤ j → e.2 ≤ e'.2).
  { intros i j e e' Hi Hj Hij.
    destruct (decide (j < length (queue b))) as [Hj_old|Hj_new].
    - rewrite lookup_app_l in Hi, Hj by lia. by eapply Hsorted.
    - rewrite (lookup_app_r _ _ j) in Hj by lia.
      apply list_elem_of_lookup_2, Hnew in Hj as [-> _].
      apply Hdepth. by eapply list_elem_of_lookup_2. }
  split; rewrite ?Hq, ?Hs, ?Hh.
  - done.
  - done.
  - rewrite length_app. apply lookup_lt_Some in Hu. lia.
  - apply elem_of_app. by left.
  - intros v d' [Hv|Hv]%elem_of_app; [by apply Hsound|].
    destruct (Hnew _ Hv) as [Hd' Hnb]. simpl in *. subst d'.
    apply elem_of_neighbors_of in Hnb as [_ Hadj].
    destruct (Hsound u d Hu_in) as [_ Hwalk].
    split; [lia|]. replace (d + 1) with (S d) by lia. by econstructor.
  - done.
  - intros e e' He He'.
    assert (Hu' : (queue b ++ new) !! head b = Some (u, d)).
    { rewrite lookup_app_l; [done|]. by eapply lookup_lt_Some. }
    pose proof (Hsorted' (head b) (head b + 1) _ _ Hu' He) as Hmono.
    pose proof (Hdepth e' He'). simpl in *. lia.
  - intros i u' d' v Hi Hu' Hd' Hadj.
    destruct (decide (i = head b)) as [->|Hne].
    + rewrite lookup_app_l in Hu' by by eapply lookup_lt_Some.
      rewrite Hu in Hu'. simplify_eq.
      destruct (decide (v = u')) as [->|Hvu].
      { exists d'. split; [|lia]. apply elem_of_app. by left. }
      assert (Hv : v ∈ (queue b ++ new).*1).
      { apply Hall, elem_of_neighbors_of. done. }
      apply list_elem_of_fmap in Hv as ([v' d''] & -> & Hv). simpl.
      exists d''. split; [done|]. apply (Hdepth _ Hv).
    + assert (i < length (queue b)) by lia.
      rewrite lookup_app_l in Hu' by done.
      destruct (Hclosed i u' d' v) as (d'' & Hin & Hle); [lia|done..|].
      exists d''. split; [|done]. apply elem_of_app. by left.
Qed.

Lemma bfs_body_inv edges center r b u d :
  bfs_inv edges center r b →
  queue b !! head b = Some (u, d) →
  bfs_inv edges center r (bfs_body (getNodeEdgeMap edges) r b u d).
Proof.
  intros Hinv Hu. unfold bfs_body. case_bool_decide.
  - by eapply bfs_body_inv_skip.
  - apply bfs_body_inv_expand; [done..|lia].
Qed.

Lemma bfs_body_head m r b u d : head (bfs_body m r b u d) = head b + 1.
Proof.
  unfold bfs_body. case_bool_decide; [done|].
  generalize (neighbors_of m u).
  intros ns. set (b1 := {| sectionNodeIds := _; queue := _; head := head b + 1 |}).
  change (head b + 1) with (head b1). generalize b1. clear.
  induction ns as [|n ns IH]; intros b1; [done|]. simpl. rewrite IH.
  unfold visit. by case_bool_decide.
Qed.

(** No more identities are enqueued than the focus node and the ends of the
    edges. *)
Lemma bfs_inv_length edges center r b :
  bfs_inv edges center r b → length (queue b) ≤ 2 * length edges + 1.
Proof.
  intros Hinv.
  assert (Hsub : (queue b).*1 ⊆+ center :: endpoints edges).
  { apply NoDup_submseteq; [apply Hinv|].
    intros v ([v' d] & -> & Hv)%list_elem_of_fmap. simpl.
    destruct (inv_sound _ _ _ _ Hinv v' d Hv) as [_ Hwalk].
    apply hops_endpoint in Hwalk as [->|?]; [left|by right]. }
  apply submseteq_length in Hsub.
  rewrite length_fmap in Hsub. simpl in Hsub. rewrite length_endpoints in Hsub. lia.
Qed.

(** The loop ends within its bound, in a state that satisfies the invariant
    and has an empty rest of the queue. *)
Lemma bfs_loop_terminates edges center r fuel : ∀ b,
  bfs_inv edges center r b →
  2 * length edges + 1 < fuel + head b →
  ∃ b', bfs_loop (getNodeEdgeMap edges) r fuel b = Some b'
        ∧ bfs_inv edges center r b' ∧ head b' = length (queue b').
Proof.
  induction fuel as [|fuel IH]; intros b Hinv Hfuel.
  { pose proof (bfs_inv_length _ _ _ _ Hinv). pose proof (inv_head _ _ _ _ Hinv). lia. }
  simpl. destruct (queue b !! head b) as [[u d]|] eqn:Hu.
  - apply IH; [by apply bfs_body_inv|]. rewrite bfs_body_head. lia.
  - exists b. split_and!; [done..|].
    apply lookup_ge_None in Hu. pose proof (inv_head _ _ _ _ Hinv). lia.
Qed.

(** At the end every identity within the radius has been enqueued. *)
Lemma bfs_complete edges center r b k v :
  bfs_inv edges center r b → head b = length (queue b) →
  hops edges center k v → k ≤ r →
  ∃ d, d ≤ k ∧ (v, d) ∈ queue b.
Proof.
  intros Hinv Hend. induction 1 as [|k u v _ IH Hadj]; intros Hk.
  { exists 0. split; [done|apply Hinv]. }
  destruct IH as (d & Hd & Hu); [lia|].
  apply list_elem_of_lookup_1 in Hu as [i Hi].
  destruct (inv_closed _ _ _ _ Hinv i u d v) as (d' & Hv & Hd'); [|done|lia|done|].
  { apply lookup_lt_Some in Hi. lia. }
  exists d'. split; [lia|done].
Qed.

(** Lines 71-94 compute the identities within the radius. *)
Lemma computeSectionNodeIds_spec edges center r :
  ∃ ids,
    computeSectionNodeIds (getNodeEdgeMap edges) edges center r = Some ids
    ∧ NoDup ids
    ∧ ∀ v, v ∈ ids ↔ within edges center r v.
Proof.
  unfold computeSectionNodeIds.
  destruct (bfs_loop_terminates edges center r (2 * length edges + 2) _
              (bfs_inv_init edges center r)) as (b & -> & Hinv & Hend).
  { simpl. lia. }
  simpl. exists (sectionNodeIds b). split; [done|].
  rewrite (inv_ids _ _ _ _ Hinv). split; [apply Hinv|].
  intros v. split.
  - intros ([v' d] & -> & Hv)%list_elem_of_fmap. simpl.
    destruct (inv_sound _ _ _ _ Hinv v' d Hv) as [Hd Hwalk].
    by exists d.
  - intros (k & Hk & Hwalk).
    destruct (bfs_complete edges center r b k v) as (d & _ & Hv); [done..|].
    apply list_elem_of_fmap. by exists (v, d).
Qed.

End BfsFacts.

(** * CapacityPathingSingleSectionSolver: the extracted section *)

Module SectionTheorems.
Import CapacityPathingSingleSectionSolver SectionSpec SectionFacts BfsFacts.

Implicit Types (ids : list string) (conn : ConnectionPathWithNodes)
  (p : list CapacityMeshNode) (first last node : CapacityMeshNode).

(** ** Construction *)

Section Construction.
Context {S : Type} `{SubSolver S}.

(** The constructor computes the section once and hands it to the
    sub-solver. *)
Lemma new_constructed (params : CapacityPathingSingleSectionSolverInput) :
  ∃ s ids,
    new (S := S) params = Some s
    ∧ section_ids params ids
    ∧ sectionNodes s = (λ id, nodeMap_of (in_nodes params) !! id) <$> ids
    ∧ sectionEdges s = computeSectionEdges ids (in_edges params)
    ∧ sectionConnectionTerminals s
      = computeTerminals ids (in_connectionsWithNodes params)
    ∧ activeSubSolver s
      = Some (sub_new {| sub_sectionConnectionTerminals := sectionConnectionTerminals s;
                         sub_sectionNodes := sectionNodes s;
                         sub_sectionEdges := sectionEdges s;
                         sub_colorMap := in_colorMap params;
                         sub_hyperParameters := in_hyperParameters params |})
    ∧ solved s = false ∧ failed s = false.
Proof.
  destruct (computeSectionNodeIds_spec (in_edges params) (in_centerNodeId params)
              (radius_of params)) as (ids & Hids & Hnd & Hspec).
  unfold new, computeSectionNodesTerminalsAndEdges. simpl.
  fold (radius_of params). rewrite Hids. simpl.
  eexists _, ids. split; [reflexivity|]. by split_and!.
Qed.

End Construction.

(** ** Terminals *)

Lemma find_start_Some ids p id :
  find_start ids p = Some id
  ↔ ∃ first, first_in_section ids p first ∧ capacityMeshNodeId first = id.
Proof.
  unfold find_start. split.
  - destruct (list_find _ p) as [[i node]|] eqn:Hfind; [|done].
    intros [= <-]. apply list_find_Some in Hfind as (Hi & Hin & Hbefore).
    exists node. split; [|done].
    apply list_elem_of_split_length in Hi as (pre & post & -> & ->).
    exists pre, post. split_and!; [done..|].
    apply Forall_forall. intros n [j Hj]%list_elem_of_lookup_1.
    apply (Hbefore j); [|by eapply lookup_lt_Some].
    by apply lookup_app_l_Some.
  - intros (first & (pre & post & -> & Hin & Hpre) & <-).
    assert (Hfind : list_find (λ node, capacityMeshNodeId node ∈ ids)
                      (pre ++ first :: post) = Some (length pre, first)).
    { apply list_find_Some. split_and!; [by apply list_lookup_middle|done|].
      intros j n Hj Hlt. rewrite lookup_app_l in Hj by done.
      rewrite Forall_forall in Hpre. by eapply Hpre, list_elem_of_lookup_2. }
    by rewrite Hfind.
Qed.

Lemma find_start_None ids p :
  find_start ids p = None ↔ Forall (λ n, ¬ in_section ids n) p.
Proof.
  unfold find_start. rewrite fmap_None. apply list_find_None.
Qed.

Lemma last_in_section_reverse ids p node :
  first_in_section ids (reverse p) node ↔ last_in_section ids p node.
Proof.
  split; intros (pre & post & Heq & Hin & Hall).
  - exists (reverse post), (reverse pre). split_and!; [|done|by apply Forall_reverse].
    rewrite <- (reverse_involutive p), Heq.
    by rewrite reverse_app, reverse_cons, <- app_assoc.
  - exists (reverse post), (reverse pre). split_and!; [|done|by apply Forall_reverse].
    by rewrite Heq, reverse_app, reverse_cons, <- app_assoc.
Qed.

Lemma find_end_Some ids p id :
  find_end ids p = Some id
  ↔ ∃ last, last_in_section ids p last ∧ capacityMeshNodeId last = id.
Proof.
  unfold find_end. rewrite find_start_Some.
  split; intros (node & Hnode & ?); exists node; (split; [|done]);
    by apply last_in_section_reverse.
Qed.

Lemma first_in_section_unique ids p first first' :
  first_in_section ids p first → first_in_section ids p first' → first = first'.
Proof.
  intros (pre & post & -> & Hin & Hpre) (pre' & post' & Heq & Hin' & Hpre').
  revert pre' Heq Hpre'. induction pre as [|n pre IH]; intros [|n' pre'] Heq Hpre';
    simplify_eq/=; [done| | |].
  - by apply Forall_cons in Hpre' as [? _].
  - by apply Forall_cons in Hpre as [? _].
  - apply Forall_cons in Hpre as [_ Hpre]. apply Forall_cons in Hpre' as [_ Hpre'].
    by eapply IH.
Qed.

Lemma last_in_section_unique ids p last last' :
  last_in_section ids p last → last_in_section ids p last' → last = last'.
Proof.
  intros ?%last_in_section_reverse ?%last_in_section_reverse.
  by eapply first_in_section_unique.
Qed.

Lemma elem_of_concat {A} (x : A) (ls : list (list A)) :
  x ∈ concat ls ↔ ∃ l, x ∈ l ∧ l ∈ ls.
Proof.
  rewrite list_elem_of_In, in_concat. split.
  - intros (l & ?%list_elem_of_In & ?%list_elem_of_In). eauto.
  - intros (l & ?%list_elem_of_In & ?%list_elem_of_In). eauto.
Qed.

Lemma computeTerminals_concat ids conns :
  computeTerminals ids conns = concat (terminals_of ids <$> conns).
Proof.
  unfold computeTerminals.
  induction conns as [|conn conns IH] using rev_ind; [done|].
  by rewrite foldl_app, fmap_app, concat_app, IH; simpl; rewrite app_nil_r.
Qed.

(** The terminals pushed for a connection whose path meets the section. *)
Lemma terminals_of_meeting ids conn p first last :
  path conn = Some p →
  first_in_section ids p first → last_in_section ids p last →
  terminals_of ids conn
  = if truthy (Some (capacityMeshNodeId first))
       && truthy (Some (capacityMeshNodeId last))
    then [terminal_between conn first last] else [].
Proof.
  intros Hp Hfirst Hlast. unfold terminals_of. rewrite Hp.
  assert (Hs : find_start ids p = Some (capacityMeshNodeId first)).
  { apply find_start_Some. eauto. }
  assert (He : find_end ids p = Some (capacityMeshNodeId last)).
  { apply find_end_Some. eauto. }
  by rewrite Hs, He.
Qed.

Lemma terminals_of_missing ids conn p :
  path conn = Some p → Forall (λ n, ¬ in_section ids n) p →
  terminals_of ids conn = [].
Proof.
  intros Hp Hall%find_start_None. unfold terminals_of. by rewrite Hp, Hall.
Qed.

Lemma truthy_Some id : truthy (Some id) = true ↔ id ≠ EmptyString.
Proof.
  unfold truthy. rewrite negb_true_iff, bool_decide_eq_false. done.
Qed.

(** Every terminal pushed for a connection joins the first and the last
    node of its path within the section, both with a non-empty identity. *)
Lemma elem_of_terminals_of ids conn t :
  t ∈ terminals_of ids conn →
  ∃ p first last,
    path conn = Some p ∧ first_in_section ids p first ∧ last_in_section ids p last
    ∧ capacityMeshNodeId first ≠ EmptyString ∧ capacityMeshNodeId last ≠ EmptyString
    ∧ terminals_of ids conn = [t] ∧ t = terminal_between conn first last.
Proof.
  unfold terminals_of. destruct (path conn) as [p|] eqn:Hp; [|by intros ?%elem_of_nil].
  destruct (find_start ids p) as [a|] eqn:Hs; [|by intros ?%elem_of_nil].
  destruct (find_end ids p) as [c|] eqn:He; [|by intros ?%elem_of_nil].
  apply find_start_Some in Hs as (first & Hfirst & <-).
  apply find_end_Some in He as (last & Hlast & <-).
  destruct (truthy _ && truthy _) eqn:Htruthy; [|by intros ?%elem_of_nil].
  apply andb_prop in Htruthy as [?%truthy_Some ?%truthy_Some].
  intros ->%list_elem_of_singleton. by exists p, first, last.
Qed.

(** ** The claims *)

(** C4.  The section node set computed at construction holds exactly the
    identities whose hop distance from the focus node, over the adjacency of
    the mesh edges, is at most the hop radius: the focus node is in it, no
    identity farther away is, and none within the radius is missing. *)
Theorem section_nodes_within_radius {S : Type} `{SubSolver S}
    (params : CapacityPathingSingleSectionSolverInput) :
  ∃ (s : t (S := S)) ids,
    new params = Some s
    ∧ sectionNodes s = (λ id, nodeMap_of (in_nodes params) !! id) <$> ids
    ∧ NoDup ids
    ∧ in_centerNodeId params ∈ ids
    ∧ (∀ v, within (in_edges params) (in_centerNodeId params) (radius_of params) v
            → v ∈ ids)
    ∧ (∀ v, v ∈ ids
            → within (in_edges params) (in_centerNodeId params) (radius_of params) v).
Proof.
  destruct (new_constructed (S := S) params)
    as (s & ids & Hnew & [Hnd Hids] & Hnodes & _).
  exists s, ids. split_and!; [done..| | |].
  - apply Hids. exists 0. split; [lia|constructor].
  - intros v. apply Hids.
  - intros v. apply Hids.
Qed.

(** The path graph n0 - n1 - n2 - n3 with focus n1 and hop radius 1: the
    section is n1, n0, n2, with the edges n0 - n1 and n1 - n2 and the
    terminal n0 .. n2 for the connection through all four nodes. *)
Lemma path_graph_section :
  (λ s : t (S := SectionExamples.stub),
     (sectionNodes s, sectionEdges s, sectionConnectionTerminals s))
    <$> new SectionExamples.params
  = Some ([Some (SectionExamples.node "n1"); Some (SectionExamples.node "n0");
           Some (SectionExamples.node "n2")],
          [SectionExamples.edge "n0" "n1"; SectionExamples.edge "n1" "n2"],
          [ {| connectionName := "c1"; startNodeId := "n0"; endNodeId := "n2" |} ]).
Proof. vm_compute. reflexivity. Qed.

(** C6.  The section edges are exactly the mesh edges both of whose ends are
    in the section node set. *)
Theorem section_edges_induced {S : Type} `{SubSolver S}
    (params : CapacityPathingSingleSectionSolverInput) :
  ∃ (s : t (S := S)) ids,
    new params = Some s
    ∧ section_ids params ids
    ∧ sectionNodes s = (λ id, nodeMap_of (in_nodes params) !! id) <$> ids
    ∧ ∀ edge, edge ∈ sectionEdges s
              ↔ edge ∈ in_edges params
                ∧ (nodeIds edge).1 ∈ ids ∧ (nodeIds edge).2 ∈ ids.
Proof.
  destruct (new_constructed (S := S) params)
    as (s & ids & Hnew & Hids & Hnodes & Hedges & _).
  exists s, ids. split_and!; [done..|].
  intros edge. rewrite Hedges. unfold computeSectionEdges.
  rewrite list_elem_of_filter. destruct (nodeIds edge). simpl. tauto.
Qed.

(** C5 (as amended).  The terminals are those of the connections, in order.
    For a connection whose path has nodes in the section, the first and the
    last of them give [startNodeId] and [endNodeId]; when both identities
    are non-empty, exactly one terminal record with the connection name and
    these two identities, both in the section node set, is emitted.  A
    connection with no path node in the section contributes nothing. *)
Theorem terminals_trimmed_to_section ids
    (conns : list ConnectionPathWithNodes) :
  computeTerminals ids conns = concat (terminals_of ids <$> conns)
  ∧ ∀ conn p,
      path conn = Some p →
      (∀ first last,
         first_in_section ids p first → last_in_section ids p last →
         find_start ids p = Some (capacityMeshNodeId first)
         ∧ find_end ids p = Some (capacityMeshNodeId last)
         ∧ capacityMeshNodeId first ∈ ids ∧ capacityMeshNodeId last ∈ ids
         ∧ (capacityMeshNodeId first ≠ EmptyString →
            capacityMeshNodeId last ≠ EmptyString →
            terminals_of ids conn = [terminal_between conn first last]))
      ∧ (Forall (λ n, ¬ in_section ids n) p → terminals_of ids conn = []).
Proof.
  split; [apply computeTerminals_concat|].
  intros conn p Hp. split.
  - intros first last Hfirst Hlast. split_and!.
    + apply find_start_Some. eauto.
    + apply find_end_Some. eauto.
    + by destruct Hfirst as (? & ? & _ & ? & _).
    + by destruct Hlast as (? & ? & _ & ? & _).
    + intros Hf%truthy_Some Hl%truthy_Some.
      rewrite (terminals_of_meeting ids conn p first last) by done.
      by rewrite Hf, Hl.
  - by apply terminals_of_missing.
Qed.

(** With the section n1, n0, n2 the path n0, n1, n2, n3 is trimmed to the
    terminal n0 .. n2, and the path n3, n4 gives none. *)
Lemma terminals_trimmed_to_section_example :
  terminals_of ["n1"; "n0"; "n2"] SectionExamples.connection_through
  = [ {| connectionName := "c1"; startNodeId := "n0"; endNodeId := "n2" |} ]
  ∧ terminals_of ["n1"; "n0"; "n2"] SectionExamples.connection_outside = [].
Proof.
  destruct (terminals_trimmed_to_section ["n1"; "n0"; "n2"] []) as [_ Hconn].
  split.
  - destruct (Hconn SectionExamples.connection_through _ eq_refl) as [Hmeet _].
    destruct (Hmeet (SectionExamples.node "n0") (SectionExamples.node "n2"))
      as (_ & _ & _ & _ & Hone).
    + exists [], [SectionExamples.node "n1"; SectionExamples.node "n2";
                 SectionExamples.node "n3"].
      split_and!; [reflexivity| |constructor].
      unfold in_section. by_evaluation.
    + exists [SectionExamples.node "n0"; SectionExamples.node "n1"],
             [SectionExamples.node "n3"].
      split_and!; [reflexivity| |].
      * unfold in_section. by_evaluation.
      * constructor; [|constructor].
        unfold in_section. by_evaluation.
    + apply Hone; discriminate.
  - destruct (Hconn SectionExamples.connection_outside _ eq_refl) as [_ Hmiss].
    apply Hmiss.
    constructor; [|constructor; [|constructor]];
      unfold in_section; by_evaluation.
Defined.

(** C5 fails as stated where a node of the section has the empty string as
    its identity: with that node as the focus node and no edges it is the
    whole section, the only node of the path is its first and last node in
    the section, and no terminal is emitted. *)
Lemma terminal_emitted_as_stated_fails_on_empty_identity :
  computeSectionNodeIds (getNodeEdgeMap []) [] EmptyString 3 = Some [EmptyString]
  ∧ ¬ terminal_emitted_as_stated [EmptyString] SectionExamples.connection_unnamed_node.
Proof.
  split; [reflexivity|].
  intros Hstated.
  specialize (Hstated [SectionExamples.node EmptyString]
                (SectionExamples.node EmptyString) (SectionExamples.node EmptyString)
                eq_refl).
  assert (Hin : in_section [EmptyString] (SectionExamples.node EmptyString)) by left.
  discriminate Hstated; exists [], []; split_and!; done || constructor.
Qed.

(** C9.  A terminal is emitted only with a truthy start and end identity.
    A connection whose first or last node within the section has the empty
    string as its identity gets no terminal, although its path meets the
    section; neither does a connection without a path. *)
Theorem falsy_identity_emits_no_terminal ids conn :
  (path conn = None → terminals_of ids conn = [])
  ∧ (∀ p first last,
       path conn = Some p →
       first_in_section ids p first → last_in_section ids p last →
       capacityMeshNodeId first = EmptyString ∨ capacityMeshNodeId last = EmptyString →
       terminals_of ids conn = [])
  ∧ (∀ conns t,
       t ∈ computeTerminals ids conns →
       startNodeId t ≠ EmptyString ∧ endNodeId t ≠ EmptyString).
Proof.
  split_and!.
  - intros Hp. unfold terminals_of. by rewrite Hp.
  - intros p first last Hp Hfirst Hlast Hempty.
    rewrite (terminals_of_meeting ids conn p first last) by done.
    destruct Hempty as [-> | ->]; simpl; [done|]. by rewrite andb_false_r.
  - intros conns t. rewrite computeTerminals_concat.
    intros (ts & Ht & (conn' & -> & _)%list_elem_of_fmap)%elem_of_concat.
    apply elem_of_terminals_of in Ht
      as (p & first & last & _ & _ & _ & ? & ? & _ & ->). done.
Qed.

(** In the section of the node with the empty identity, the path through
    that node gives no terminal, nor does the connection without a path. *)
Lemma falsy_identity_emits_no_terminal_example :
  terminals_of [EmptyString] SectionExamples.connection_unnamed_node = []
  ∧ terminals_of [EmptyString] SectionExamples.connection_without_path = [].
Proof.
  split.
  - destruct (falsy_identity_emits_no_terminal [EmptyString]
                SectionExamples.connection_unnamed_node) as (_ & Hempty & _).
    apply (Hempty _ (SectionExamples.node EmptyString)
             (SectionExamples.node EmptyString) eq_refl).
    + exists [], []. split_and!; [reflexivity|left|constructor].
    + exists [], []. split_and!; [reflexivity|left|constructor].
    + by left.
  - destruct (falsy_identity_emits_no_terminal [EmptyString]
                SectionExamples.connection_without_path) as (Hnone & _).
    apply Hnone. reflexivity.
Defined.

(** ** Stepping *)

Section Stepping.
Context {S : Type} `{SubSolver S}.

(** C7.  A call of [_step] makes the sub-solver take exactly one step and
    mirrors its terminal state, solved and failed being exclusive: a solved
    sub-solver makes this solver solved; a failed one makes it failed with
    the sub-solver's error; otherwise its state stays as it was.  The
    section data are not touched. *)
Theorem step_mirrors_sub_solver (s : t (S := S)) (sub : S) :
  activeSubSolver s = Some sub →
  activeSubSolver (_step s) = Some (sub_step sub)
  ∧ (sub_solved (sub_step sub) = true →
     solved (_step s) = true
     ∧ failed (_step s) = failed s ∧ error (_step s) = error s)
  ∧ (sub_solved (sub_step sub) = false → sub_failed (sub_step sub) = true →
     failed (_step s) = true ∧ error (_step s) = sub_error (sub_step sub)
     ∧ solved (_step s) = solved s)
  ∧ (sub_solved (sub_step sub) = false → sub_failed (sub_step sub) = false →
     solved (_step s) = solved s
     ∧ failed (_step s) = failed s ∧ error (_step s) = error s)
  ∧ sectionNodes (_step s) = sectionNodes s
  ∧ sectionEdges (_step s) = sectionEdges s
  ∧ sectionConnectionTerminals (_step s) = sectionConnectionTerminals s.
Proof.
  intros Hsub. unfold _step. rewrite Hsub. simpl.
  destruct (sub_solved (sub_step sub)) eqn:Hsolved; simpl.
  { split_and!; done. }
  destruct (sub_failed (sub_step sub)) eqn:Hfailed; simpl; split_and!; done.
Qed.

(** On a solver that is in no terminal state [step] is [_step]. *)
Lemma section_step_running (s : t (S := S)) :
  solved s = false → failed s = false → step s = _step s.
Proof. unfold step. by intros -> ->. Qed.

End Stepping.

(** A sub-solver that fails at its next step: the solver becomes failed
    with the same error. *)
Lemma step_mirrors_sub_solver_example :
  activeSubSolver (_step SectionExamples.failing_solver)
  = Some (SectionExamples.Failure "no path found")
  ∧ failed (_step SectionExamples.failing_solver) = true
  ∧ error (_step SectionExamples.failing_solver) = Some "no path found"
  ∧ solved (_step SectionExamples.failing_solver) = false.
Proof.
  destruct (step_mirrors_sub_solver SectionExamples.failing_solver
              (SectionExamples.Running 0 true) eq_refl)
    as (Hsub & _ & Hfailed & _).
  destruct Hfailed as (Hf & He & Hs); [reflexivity..|].
  split_and!; [exact Hsub|exact Hf|exact He|exact Hs].
Defined.

End SectionTheorems.

(** * CapacitySegmentToPointSolver: what every step keeps *)

Module SegmentToPointRunFacts.
Import CapacitySegmentToPointSolver SegmentToPointSpec JSFacts
  SegmentToPointFacts SegmentToPointStep PortPointsFacts.

Implicit Types (s : t) (seg x : nat) (l pre post : list nat) (u : bool).

(** Two arrays that hold every reference equally often are rearrangements
    of each other. *)
Lemma Permutation_occurrences l1 : ∀ l2,
  (∀ x, occurrences x l1 = occurrences x l2) → l1 ≡ₚ l2.
Proof.
  induction l1 as [|a l1 IH]; intros l2 Hocc.
  - destruct l2 as [|b l2]; [done|].
    specialize (Hocc b). rewrite occurrences_nil, occurrences_cons in Hocc.
    rewrite decide_True in Hocc by done. lia.
  - assert (Ha : a ∈ l2).
    { apply elem_of_occurrences. rewrite <- Hocc, occurrences_cons.
      rewrite decide_True by done. lia. }
    apply list_elem_of_split in Ha as (pre & post & ->).
    rewrite <- Permutation_middle. constructor. apply IH.
    intros x. specialize (Hocc x).
    rewrite occurrences_app, !occurrences_cons in Hocc.
    rewrite occurrences_app. lia.
Qed.

Lemma _step_Permutation s :
  unsolvedSegments (_step s) ++ solvedSegments (_step s)
  ≡ₚ unsolvedSegments s ++ solvedSegments s.
Proof.
  apply Permutation_occurrences. intros x.
  rewrite !occurrences_app. apply _step_occurrences.
Qed.

Lemma splice1_sublist (i : Z) l : JS.splice1 i l `sublist_of` l.
Proof. unfold JS.splice1. apply sublist_delete. Qed.

(** The first loop appends to [solvedSegments] and takes out of
    [unsolvedSegments]. *)
Lemma phaseA_order l s u :
  snapshot_ok s l →
  solvedSegments s `prefix_of` solvedSegments (foldl phaseA_iter (s, u) l).1
  ∧ unsolvedSegments (foldl phaseA_iter (s, u) l).1 `sublist_of` unsolvedSegments s.
Proof.
  revert l s u.
  apply (phaseA_ind (λ s u l r,
    solvedSegments s `prefix_of` solvedSegments r.1
    ∧ unsolvedSegments r.1 `sublist_of` unsolvedSegments s)).
  - done.
  - done.
  - intros s u seg l r Hq Hseg _ [Hpre Hsub]. simpl in *. split.
    + etrans; [|exact Hpre]. by apply prefix_app_r.
    + etrans; [exact Hsub|]. apply splice1_sublist.
Qed.

Lemma _step_order s :
  solvedSegments s `prefix_of` solvedSegments (_step s)
  ∧ unsolvedSegments (_step s) `sublist_of` unsolvedSegments s.
Proof.
  destruct (qualifies_dec s (unsolvedSegments s)) as [Hex|Hall].
  - rewrite _step_assigning by done.
    destruct (finish_fields (phaseA s (unsolvedSegments s)).1)
      as (_ & _ & -> & -> & _).
    apply phaseA_order, snapshot_ok_init.
  - rewrite _step_fallback by done.
    destruct (finish_fields (phaseB s (unsolvedSegments s)))
      as (_ & _ & -> & -> & _).
    destruct (decide (unsolvedSegments s = [])) as [Hnil|Hne].
    { by rewrite phaseB_nil. }
    destruct (candidate_exists s Hne) as (pre & c & post & Heq & Hpre & Hpost).
    rewrite (phaseB_eq s pre c post) by done. simpl. split.
    + by apply prefix_app_r.
    + rewrite Heq. apply sublist_app; [done|]. by apply sublist_cons.
Qed.

(** A step writes the assigned points of unsolved segments only. *)
Lemma _step_assignedPoints_other s x :
  x ∉ unsolvedSegments s → assignedPoints (_step s) !! x = assignedPoints s !! x.
Proof.
  intros Hx.
  destruct (qualifies_dec s (unsolvedSegments s)) as [Hex|Hall].
  - rewrite _step_assigning by done.
    destruct (finish_fields (phaseA s (unsolvedSegments s)).1) as (_ & -> & _).
    unfold phaseA. rewrite phaseA_assignedPoints by apply snapshot_ok_init.
    unfold touched. by rewrite bool_decide_eq_false_2.
  - rewrite _step_fallback by done.
    destruct (finish_fields (phaseB s (unsolvedSegments s))) as (_ & -> & _).
    destruct (decide (unsolvedSegments s = [])) as [Hnil|Hne].
    { by rewrite phaseB_nil. }
    destruct (candidate_exists s Hne) as (pre & c & post & Heq & Hpre & Hpost).
    rewrite (phaseB_eq s pre c post) by done. simpl.
    apply lookup_insert_ne. intros <-. apply Hx. rewrite Heq.
    apply elem_of_app. right. left.
Qed.

(** ** The assignments *)

Lemma midpoint_one_point s seg :
  qualifies s seg = true →
  one_point_per_connection (objects s seg) (midpoint_assignment (objects s seg)).
Proof.
  intros Hq%qualifies_name_count. unfold name_count in Hq.
  unfold one_point_per_connection, midpoint_assignment.
  destruct (connectionNames (objects s seg)) as [|name [|name' names]]; simplify_eq/=.
  split; [done|]. by repeat constructor.
Qed.

Lemma fallback_one_point o :
  one_point_per_connection o (fallback_assignment o).
Proof.
  split.
  - rewrite <- (sort_Permutation (connectionNames o)).
    assert (Heq : connectionName <$> fallback_assignment o
                  = JS.sort (connectionNames o)); [|by rewrite Heq].
    apply list_eq. intros i. rewrite list_lookup_fmap.
    destruct (JS.sort (connectionNames o) !! i) as [name|] eqn:Hi.
    + by rewrite (lookup_fallback_assignment o i name).
    + apply lookup_ge_None in Hi. rewrite lookup_ge_None_2; [done|].
      rewrite length_fallback_assignment. by rewrite <- length_sort.
  - apply Forall_lookup. intros i ap Hi.
    assert (Hlt : i < length (JS.sort (connectionNames o))).
    { apply lookup_lt_Some in Hi.
      rewrite length_fallback_assignment in Hi. by rewrite length_sort. }
    apply lookup_lt_is_Some in Hlt as [name Hname].
    rewrite (lookup_fallback_assignment o i name) in Hi by done.
    by simplify_eq.
Qed.

(** Every assignment a step leaves is of one of the two kinds. *)
Lemma _step_one_point s :
  (∀ seg aps, assignedPoints s !! seg = Some aps →
              one_point_per_connection (objects s seg) aps) →
  ∀ seg aps, assignedPoints (_step s) !! seg = Some aps →
             one_point_per_connection (objects s seg) aps.
Proof.
  intros Hinv seg aps.
  destruct (qualifies_dec s (unsolvedSegments s)) as [Hex|Hall].
  - rewrite _step_assigning by done.
    destruct (finish_fields (phaseA s (unsolvedSegments s)).1) as (_ & -> & _).
    unfold phaseA. rewrite phaseA_assignedPoints by apply snapshot_ok_init.
    unfold touched. destruct (bool_decide _ && qualifies s seg) eqn:Ht.
    + apply andb_prop in Ht as [_ Hq]. intros [= <-]. by apply midpoint_one_point.
    + apply Hinv.
  - rewrite _step_fallback by done.
    destruct (finish_fields (phaseB s (unsolvedSegments s))) as (_ & -> & _).
    destruct (decide (unsolvedSegments s = [])) as [Hnil|Hne].
    { rewrite phaseB_nil by done. apply Hinv. }
    destruct (candidate_exists s Hne) as (pre & c & post & Heq & Hpre & Hpost).
    rewrite (phaseB_eq s pre c post) by done. simpl.
    destruct (decide (c = seg)) as [->|Hc].
    + rewrite lookup_insert_eq. intros [= <-]. apply fallback_one_point.
    + rewrite lookup_insert_ne by done. apply Hinv.
Qed.

(** ** Runs of [_step] *)

Lemma steps_S objs segments nodes k :
  steps objs segments nodes (S k) = _step (steps objs segments nodes k).
Proof. done. Qed.

Lemma steps_run objs segments nodes k :
  steps objs segments nodes k = run objs segments nodes k.
Proof. symmetry. apply run_iter__step. Qed.

Lemma steps_objects objs segments nodes k :
  objects (steps objs segments nodes k) = objs.
Proof. rewrite steps_run. apply run_invariant. Qed.

(** At every point of a run the two arrays together hold the input
    segments. *)
Lemma steps_Permutation objs segments nodes k :
  unsolvedSegments (steps objs segments nodes k)
    ++ solvedSegments (steps objs segments nodes k) ≡ₚ segments.
Proof.
  induction k as [|k IH]; [by rewrite app_nil_r|].
  rewrite steps_S. by rewrite _step_Permutation.
Qed.

Lemma steps_solved_prefix objs segments nodes k k' :
  k ≤ k' →
  solvedSegments (steps objs segments nodes k)
    `prefix_of` solvedSegments (steps objs segments nodes k').
Proof.
  induction 1 as [|k' _ IH]; [done|].
  etrans; [exact IH|]. rewrite steps_S. apply _step_order.
Qed.

Lemma steps_one_point objs segments nodes k :
  ∀ seg aps, assignedPoints (steps objs segments nodes k) !! seg = Some aps →
             one_point_per_connection (objs seg) aps.
Proof.
  induction k as [|k IH]; [done|].
  rewrite steps_S. intros seg aps Hseg.
  rewrite <- (steps_objects objs segments nodes k).
  apply (_step_one_point _) in Hseg; [done|].
  by rewrite steps_objects.
Qed.

Lemma steps_solved_assigned objs segments nodes k seg :
  seg ∈ solvedSegments (steps objs segments nodes k) →
  is_Some (assignedPoints (steps objs segments nodes k) !! seg).
Proof. rewrite steps_run. apply run_segments. Qed.

End SegmentToPointRunFacts.

(** * CapacitySegmentToPointSolver: runs over distinct segments *)

Module SegmentToPointOrderFacts.
Import CapacitySegmentToPointSolver SegmentToPointSpec JSFacts
  SegmentToPointFacts SegmentToPointStep PortPointsFacts SegmentToPointRunFacts.

Implicit Types (s : t) (seg x a b c : nat) (l pre post taken left : list nat)
  (u : bool) (objs : nat → NodePortSegment).

Lemma filter_ext_elem (P Q : nat → Prop) `{∀ x, Decision (P x)}
    `{∀ x, Decision (Q x)} l :
  (∀ x, x ∈ l → (P x ↔ Q x)) → filter P l = filter Q l.
Proof.
  induction l as [|a l IH]; intros Hext; [done|].
  rewrite !filter_cons.
  assert (Ha : P a ↔ Q a) by (apply Hext; left).
  rewrite IH by (intros x Hx; apply Hext; by right).
  destruct (decide (P a)), (decide (Q a)); tauto.
Qed.

Lemma filter_all (P : nat → Prop) `{∀ x, Decision (P x)} l :
  (∀ x, x ∈ l → P x) → filter P l = l.
Proof.
  induction l as [|a l IH]; intros Hall; [done|].
  rewrite filter_cons_True by (apply Hall; left).
  f_equal. apply IH. intros x Hx. apply Hall. by right.
Qed.

Lemma filter_none (P : nat → Prop) `{∀ x, Decision (P x)} l :
  (∀ x, x ∈ l → ¬ P x) → filter P l = [].
Proof.
  induction l as [|a l IH]; intros Hall; [done|].
  rewrite filter_cons_False by (apply Hall; left).
  apply IH. intros x Hx. apply Hall. by right.
Qed.

(** ** The order of two segments in an array *)

Lemma before_elem_of a b l : before a b l → a ∈ l ∧ b ∈ l.
Proof.
  intros Hab. split; eapply elem_of_sublist; try exact Hab.
  - left.
  - right. left.
Qed.

Lemma before_sublist a b l l' : before a b l → l `sublist_of` l' → before a b l'.
Proof. unfold before. intros. by etrans. Qed.

Lemma before_asymmetric a b l : NoDup l → before a b l → before b a l → False.
Proof.
  unfold before. induction l as [|x l IH]; intros Hnd Hab Hba.
  { by apply sublist_nil_r in Hab. }
  apply NoDup_cons in Hnd as [Hx Hnd].
  apply sublist_cons_r in Hab as [Hab|(l1 & [= <- <-] & Hb%singleton_sublist_l)];
    apply sublist_cons_r in Hba as [Hba|(l2 & [= Hbx <-] & Ha%singleton_sublist_l)].
  - by apply IH.
  - subst. apply Hx. eapply elem_of_sublist; [|exact Hab]. right. left.
  - apply Hx. eapply elem_of_sublist; [|exact Hba]. right. left.
  - subst. done.
Qed.

Lemma before_irreflexive a l : NoDup l → before a a l → False.
Proof. intros Hnd Haa. by apply (before_asymmetric a a l). Qed.

Lemma before_split c a pre post : a ∈ post → before c a (pre ++ c :: post).
Proof.
  intros Ha. unfold before. apply sublist_inserts_l.
  apply sublist_skip. by apply singleton_sublist_l.
Qed.

Lemma before_snoc a c taken : a ∈ taken → before a c (taken ++ [c]).
Proof.
  intros Ha. unfold before. change [a; c] with ([a] ++ [c]).
  apply sublist_app; [by apply singleton_sublist_l|done].
Qed.

(** ** Taking the first of the segments with the fewest names *)

Lemma selection_inv_init objs l : selection_inv objs l [] l.
Proof.
  split; [done|done| | |].
  - by intros a b ?%elem_of_nil.
  - constructor.
  - by intros a b _ _ ?%elem_of_nil.
Qed.

Lemma selection_inv_step objs l taken pre c post :
  NoDup l →
  selection_inv objs l taken (pre ++ c :: post) →
  Forall (λ r, length (connectionNames (objs c)) < length (connectionNames (objs r))) pre →
  Forall (λ r, length (connectionNames (objs c)) ≤ length (connectionNames (objs r))) post →
  selection_inv objs l (taken ++ [c]) (pre ++ post).
Proof.
  intros Hnd [Hsub Hperm Hle Hsorted Hstable] Hpre Hpost.
  rewrite Forall_forall in Hpre, Hpost.
  assert (Hc : c ∈ pre ++ c :: post) by (apply elem_of_app; right; left).
  assert (Hdisj : ∀ x, x ∈ taken → x ∈ pre ++ c :: post → False).
  { rewrite <- Hperm in Hnd. by apply NoDup_app in Hnd as (_ & ? & _). }
  split.
  - etrans; [|exact Hsub]. apply sublist_app; [done|]. by apply sublist_cons.
  - rewrite <- Hperm, <- app_assoc. simpl.
    by rewrite (Permutation_middle pre post c).
  - intros a b [Ha| ->%list_elem_of_singleton]%elem_of_app Hb.
    + apply Hle; [done|]. rewrite elem_of_app, elem_of_cons.
      apply elem_of_app in Hb. tauto.
    + apply elem_of_app in Hb as [Hb|Hb]; [specialize (Hpre _ Hb); lia|by apply Hpost].
  - apply StronglySorted_app_2; [|done|by repeat constructor].
    intros a b Ha ->%list_elem_of_singleton. by apply Hle.
  - intros a b Hn Hab [Hb| ->%list_elem_of_singleton]%elem_of_app.
    + eapply before_sublist; [by apply Hstable|]. by apply sublist_inserts_r.
    + apply before_snoc.
      destruct (before_elem_of _ _ _ Hab) as [Ha _].
      rewrite <- Hperm in Ha. apply elem_of_app in Ha as [Ha|Ha]; [done|].
      exfalso. apply elem_of_app in Ha as [Ha|Ha].
      * specialize (Hpre _ Ha). lia.
      * apply elem_of_cons in Ha as [->|Ha].
        { eapply before_irreflexive; [exact Hnd|exact Hab]. }
        eapply before_asymmetric; [exact Hnd|exact Hab|].
        eapply before_sublist; [|exact Hsub]. by apply before_split.
Qed.

Lemma selection_inv_done objs l taken :
  selection_inv objs l taken [] → sorted_by_name_count objs l taken.
Proof.
  intros [_ Hperm _ Hsorted Hstable]. rewrite app_nil_r in Hperm.
  split_and!; [done..|].
  intros a b Hn Hab. apply Hstable; [done..|].
  rewrite Hperm. by apply (before_elem_of a b l).
Qed.

(** ** The first loop over distinct segments *)

Lemma splice1_indexOf_NoDup seg l :
  NoDup l → seg ∈ l → JS.splice1 (JS.indexOf seg l) l = filter (λ x, x ≠ seg) l.
Proof.
  intros Hnd (pre & post & -> & Hpre)%list_elem_of_split_l.
  rewrite splice1_indexOf_first by done.
  apply NoDup_app in Hnd as (_ & Hdisj & [Hpost _]%NoDup_cons).
  rewrite filter_app, filter_cons_False by (intros Hne; by apply Hne).
  rewrite !filter_all; [done| |].
  - by intros x Hx ->.
  - by intros x Hx ->.
Qed.

Lemma phaseA_distinct l s u :
  snapshot_ok s l →
  NoDup l → NoDup (unsolvedSegments s) →
  unsolvedSegments (foldl phaseA_iter (s, u) l).1
  = filter (λ x, touched s l x = false) (unsolvedSegments s)
  ∧ solvedSegments (foldl phaseA_iter (s, u) l).1
    = solvedSegments s ++ filter (λ x, qualifies s x = true) l.
Proof.
  revert l s u.
  apply (phaseA_ind (λ s u l r,
    NoDup l → NoDup (unsolvedSegments s) →
    unsolvedSegments r.1 = filter (λ x, touched s l x = false) (unsolvedSegments s)
    ∧ solvedSegments r.1 = solvedSegments s ++ filter (λ x, qualifies s x = true) l)).
  - intros s u _ _. simpl. split; [|by rewrite app_nil_r].
    symmetry. apply filter_all. intros x _. apply touched_nil.
  - intros s u seg l r Hq _ IH [_ Hl]%NoDup_cons Hun.
    destruct (IH Hl Hun) as [-> ->]. split.
    + apply filter_ext_elem. intros x _. by rewrite touched_cons_skip.
    + rewrite filter_cons_False; [done|]. congruence.
  - intros s u seg l r Hq Hseg _ IH [Hnotin Hl]%NoDup_cons Hun.
    destruct IH as [-> ->]; [done| |].
    { simpl. eapply sublist_NoDup; [exact Hun|]. apply splice1_sublist. }
    simpl. rewrite splice1_indexOf_NoDup by done. split.
    + rewrite list_filter_filter. apply filter_ext_elem. intros x _.
      rewrite (touched_cons_process s seg l x Hq).
      destruct (decide (x = seg)) as [->|Hne].
      * rewrite bool_decide_eq_true_2 by done. simpl. split; [tauto|done].
      * rewrite bool_decide_eq_false_2 by done. simpl. tauto.
    + unfold JS.push. rewrite <- app_assoc. f_equal.
      rewrite filter_cons_True by done. simpl. f_equal.
      apply filter_ext_elem. intros x Hx.
      rewrite qualifies_process_other; [done|]. by intros ->.
Qed.

(** Whether the first loop assigns a segment depends on its object and on
    the assigned points it carries. *)
Lemma qualifies_ext s s' x :
  objects s' = objects s → assignedPoints s' !! x = assignedPoints s !! x →
  qualifies s' x = qualifies s x.
Proof.
  intros Hobj Haps. unfold qualifies, already_processed, name_count.
  by rewrite Hobj, Haps.
Qed.

(** A call over distinct unsolved segments some of which the first loop
    assigns: they move, in order, and the others are left, unchanged. *)
Lemma first_step_distinct s :
  NoDup (unsolvedSegments s) → first_loop_segments s ≠ [] →
  unsolvedSegments (_step s) = fallback_segments s
  ∧ solvedSegments (_step s) = solvedSegments s ++ first_loop_segments s
  ∧ solved (_step s) = solved s || bool_decide (fallback_segments s = [])
  ∧ objects (_step s) = objects s
  ∧ Forall (λ x, qualifies (_step s) x = false) (unsolvedSegments (_step s)).
Proof.
  intros Hnd Hsome.
  assert (Hex : Exists (λ x, qualifies s x = true) (unsolvedSegments s)).
  { destruct (qualifies_dec s (unsolvedSegments s)) as [?|Hall]; [done|].
    exfalso. apply Hsome. apply filter_none. intros x Hx Hq.
    rewrite Forall_forall in Hall. specialize (Hall x Hx). congruence. }
  destruct (_step_frame s) as (Hobj & _).
  assert (Haps : ∀ x, qualifies s x = false →
            assignedPoints (_step s) !! x = assignedPoints s !! x).
  { intros x Hq. rewrite _step_assigning by done.
    destruct (finish_fields (phaseA s (unsolvedSegments s)).1) as (_ & -> & _).
    unfold phaseA. rewrite phaseA_assignedPoints by apply snapshot_ok_init.
    unfold touched. by rewrite Hq, andb_false_r. }
  assert (Hun : unsolvedSegments (_step s) = fallback_segments s).
  { rewrite _step_assigning by done.
    destruct (finish_fields (phaseA s (unsolvedSegments s)).1) as (_ & _ & -> & _).
    unfold phaseA.
    destruct (phaseA_distinct (unsolvedSegments s) s false (snapshot_ok_init s))
      as [-> _]; [done..|].
    apply filter_ext_elem. intros x Hx. unfold touched.
    rewrite bool_decide_eq_true_2 by done. done. }
  split_and!; [done| | |done|].
  - rewrite _step_assigning by done.
    destruct (finish_fields (phaseA s (unsolvedSegments s)).1)
      as (_ & _ & _ & -> & _).
    unfold phaseA.
    by destruct (phaseA_distinct (unsolvedSegments s) s false (snapshot_ok_init s))
      as [_ ->].
  - by rewrite _step_solved, Hun.
  - rewrite Hun. apply Forall_forall. intros x [Hq _]%list_elem_of_filter.
    rewrite <- Hq. apply qualifies_ext; [done|by apply Haps].
Qed.

(** ** The fallback calls *)

(** Calls of [_step] on a solver none of whose distinct unsolved segments is
    assigned by the first loop: every call takes the first of the segments
    with the fewest names. *)
Lemma fallback_run s k :
  Forall (λ x, qualifies s x = false) (unsolvedSegments s) →
  NoDup (unsolvedSegments s) →
  ∃ taken,
    solvedSegments (Nat.iter k _step s) = solvedSegments s ++ taken
    ∧ selection_inv (objects s) (unsolvedSegments s) taken
        (unsolvedSegments (Nat.iter k _step s))
    ∧ objects (Nat.iter k _step s) = objects s
    ∧ Forall (λ x, qualifies (Nat.iter k _step s) x = false)
        (unsolvedSegments (Nat.iter k _step s))
    ∧ length (unsolvedSegments (Nat.iter k _step s)) = length (unsolvedSegments s) - k
    ∧ solved (Nat.iter k _step s)
      = solved s || bool_decide (1 ≤ k ∧ length (unsolvedSegments s) ≤ k).
Proof.
  intros Hno Hnd.
  induction k as [|k (taken & Hso & Hinv & Hobj & Hall & Hlen & Hsolved)].
  { exists []. simpl. rewrite app_nil_r.
    split_and!; [done|apply selection_inv_init|done|done|lia|].
    by rewrite orb_false_r. }
  simpl. set (sk := Nat.iter k _step s) in *.
  assert (Hndk : NoDup (unsolvedSegments sk)).
  { eapply sublist_NoDup; [exact Hnd|apply Hinv]. }
  pose proof (_step_solved sk) as Hs'. destruct (_step_frame sk) as (Ho' & _).
  assert (Haps' : ∀ x, x ∈ unsolvedSegments (_step sk) →
            qualifies (_step sk) x = false).
  { intros x Hx. rewrite <- (proj1 (Forall_forall _ _) Hall x).
    - apply qualifies_ext; [done|].
      revert Hx. rewrite _step_fallback by done.
      destruct (finish_fields (phaseB sk (unsolvedSegments sk)))
        as (_ & -> & -> & _).
      destruct (decide (unsolvedSegments sk = [])) as [Hnil|Hne].
      { by rewrite phaseB_nil. }
      destruct (candidate_exists sk Hne) as (pre & c & post & Heq & Hpre & Hpost).
      rewrite (phaseB_eq sk pre c post) by done. simpl. intros Hx.
      apply lookup_insert_ne. intros <-.
      rewrite Heq in Hndk. apply NoDup_app in Hndk as (_ & Hdisj & [Hc _]%NoDup_cons).
      apply elem_of_app in Hx as [Hx|Hx]; [|done].
      apply (Hdisj c Hx). left.
    - eapply elem_of_sublist; [exact Hx|apply _step_order]. }
  rewrite _step_fallback in * by done.
  destruct (finish_fields (phaseB sk (unsolvedSegments sk)))
    as (_ & _ & Hun' & Hso' & _).
  rewrite Hun' in Hs', Haps'.
  rewrite Hun', Hso', Hs', Hsolved, Ho', Hobj. clear Hun' Hso' Hs' Ho'.
  destruct (decide (unsolvedSegments sk = [])) as [Hnil|Hne].
  { rewrite phaseB_nil in * by done. exists taken. rewrite Hnil in *. simpl in *.
    split_and!; [done|done|done|constructor|lia|].
    rewrite (bool_decide_eq_true_2 (1 ≤ S k ∧ _)) by lia. simpl.
    by rewrite !orb_true_r. }
  destruct (candidate_exists sk Hne) as (pre & c & post & Heq & Hpre & Hpost).
  rewrite (phaseB_eq sk pre c post) in * by done. simpl in *.
  unfold name_count in Hpre, Hpost. rewrite Hobj in Hpre, Hpost.
  rewrite Heq in Hinv, Hlen. rewrite length_app in Hlen. simpl in Hlen.
  exists (taken ++ [c]). split_and!.
  - by rewrite Hso, app_assoc.
  - by apply selection_inv_step.
  - done.
  - by apply Forall_forall.
  - rewrite length_app. lia.
  - rewrite (bool_decide_eq_false_2 (1 ≤ k ∧ _)) by lia.
    rewrite orb_false_r. f_equal. apply bool_decide_ext.
    rewrite <- length_zero_iff_nil, length_app. lia.
Qed.

(** The states of a run over distinct unsolved segments. *)
Lemma steps_distinct s k :
  NoDup (unsolvedSegments s) →
  solved (Nat.iter k _step s) = solved s || bool_decide (steps_needed s ≤ k)
  ∧ (steps_needed s ≤ k →
     ∃ rest,
       solvedSegments (Nat.iter k _step s)
       = solvedSegments s ++ first_loop_segments s ++ rest
       ∧ sorted_by_name_count (objects s) (fallback_segments s) rest).
Proof.
  intros Hnd. unfold steps_needed.
  destruct (decide (first_loop_segments s = [])) as [Hnone|Hsome].
  - assert (Hno : Forall (λ x, qualifies s x = false) (unsolvedSegments s)).
    { apply Forall_forall. intros x Hx.
      destruct (qualifies s x) eqn:Hq; [|done]. unfold first_loop_segments in Hnone.
      by destruct (filter_nil_not_elem_of _ _ x Hnone Hq). }
    assert (Hothers : fallback_segments s = unsolvedSegments s).
    { apply filter_all. by apply Forall_forall. }
    rewrite Hnone, Hothers. simpl.
    destruct (fallback_run s k Hno Hnd)
      as (taken & Hso & Hinv & _ & _ & Hlen & Hsolved).
    split.
    + rewrite Hsolved. f_equal. apply bool_decide_ext. lia.
    + intros Hk. exists taken. split; [done|].
      apply selection_inv_done.
      assert (Hnil : unsolvedSegments (Nat.iter k _step s) = [])
        by (apply length_zero_iff_nil; lia).
      by rewrite Hnil in Hinv.
  - destruct k as [|k].
    { split; [|lia]. rewrite bool_decide_eq_false_2 by lia. by rewrite orb_false_r. }
    destruct (first_step_distinct s Hnd Hsome)
      as (Hun1 & Hso1 & Hsolved1 & Hobj1 & Hall1).
    rewrite Nat.iter_succ_r.
    destruct (fallback_run (_step s) k Hall1)
      as (taken & Hso & Hinv & _ & _ & Hlen & Hsolved).
    { rewrite Hun1. eapply sublist_NoDup; [exact Hnd|]. apply sublist_filter. }
    rewrite Hun1, Hso1, ?Hobj1 in *. split.
    + rewrite Hsolved, Hsolved1, <- orb_assoc. f_equal.
      destruct (decide (fallback_segments s = [])) as [Hnil|Hne].
      * rewrite (bool_decide_eq_true_2 _ Hnil). simpl.
        symmetry. apply bool_decide_eq_true. rewrite Hnil. simpl. lia.
      * rewrite (bool_decide_eq_false_2 _ Hne). simpl.
        apply bool_decide_ext.
        assert (0 < length (fallback_segments s)).
        { destruct (fallback_segments s); [done|simpl; lia]. }
        lia.
    + intros Hk. exists taken. split; [by rewrite <- app_assoc in Hso|].
      apply selection_inv_done.
      assert (Hnil : unsolvedSegments (Nat.iter k _step (_step s)) = [])
        by (apply length_zero_iff_nil; lia).
      by rewrite Hnil in Hinv.
Qed.

End SegmentToPointOrderFacts.

Module SegmentToPointRunTheorems.
Import CapacitySegmentToPointSolver SegmentToPointSpec JSFacts
  SegmentToPointFacts SegmentToPointStep PortPointsFacts SegmentToPointRunFacts
  SegmentToPointOrderFacts.

(** X1.  A call of [_step], in any state, only moves segments: the
    references it moves are appended to [solvedSegments], whose earlier
    entries keep their places, and they are what [unsolvedSegments] loses;
    what stays unsolved keeps its order.  No reference is lost or
    duplicated, so no [splice] of the step takes out a segment other than
    the one that is then pushed. *)
Theorem step_moves_segments (s : t) :
  ∃ moved,
    solvedSegments (_step s) = solvedSegments s ++ moved
    ∧ unsolvedSegments (_step s) ++ moved ≡ₚ unsolvedSegments s
    ∧ unsolvedSegments (_step s) `sublist_of` unsolvedSegments s.
Proof.
  destruct (_step_order s) as [[moved Hmoved] Hsub].
  exists moved. split_and!; [done| |done].
  pose proof (_step_Permutation s) as Hperm.
  rewrite Hmoved in Hperm.
  apply (Permutation_app_inv_r (solvedSegments s)).
  rewrite <- Hperm, <- !app_assoc. f_equiv. apply Permutation_app_comm.
Qed.

(** X2.  Over distinct segment objects a result is final: once a segment is
    among the solved ones, later calls of [_step] keep it there and leave
    its assigned points as they are. *)
Theorem solved_assignment_is_final objs segments nodes k k' seg :
  NoDup segments →
  k ≤ k' →
  seg ∈ solvedSegments (steps objs segments nodes k) →
  seg ∈ solvedSegments (steps objs segments nodes k')
  ∧ assignedPoints (steps objs segments nodes k') !! seg
    = assignedPoints (steps objs segments nodes k) !! seg.
Proof.
  intros Hnd Hk Hseg. induction Hk as [|k' Hk [IHin IHeq]]; [done|].
  split.
  - eapply elem_of_prefix; [exact IHin|]. rewrite steps_S. apply _step_order.
  - rewrite steps_S, <- IHeq. apply _step_assignedPoints_other.
    pose proof (steps_Permutation objs segments nodes k') as Hperm.
    rewrite <- Hperm in Hnd. apply NoDup_app in Hnd as (_ & Hdisj & _).
    intros Hun. by apply (Hdisj seg).
Qed.

(** Three distinct segments: the single-connection segment is solved by the
    first call and keeps its midpoint through the two fallback calls. *)
Lemma solved_assignment_is_final_example :
  1 ∈ solvedSegments
        (steps SegmentToPointExamples.objs [0; 1; 2] SegmentToPointExamples.nodes 3)
  ∧ assignedPoints
      (steps SegmentToPointExamples.objs [0; 1; 2] SegmentToPointExamples.nodes 3) !! 1
    = assignedPoints
        (steps SegmentToPointExamples.objs [0; 1; 2] SegmentToPointExamples.nodes 1) !! 1.
Proof.
  apply solved_assignment_is_final.
  - by_evaluation.
  - lia.
  - by_evaluation.
Defined.

(** X3.  At every point of a run, each solved segment carries assigned
    points that give every one of its connections exactly one point, on the
    segment's first available layer: the connection names of the assigned
    points are a rearrangement of the segment's connection names. *)
Theorem solved_segment_has_one_point_per_connection objs segments nodes k seg :
  seg ∈ solvedSegments (steps objs segments nodes k) →
  ∃ aps,
    assignedPoints (steps objs segments nodes k) !! seg = Some aps
    ∧ connectionName <$> aps ≡ₚ connectionNames (objs seg)
    ∧ Forall (λ ap, Point3.z (point ap) = head (availableZ (objs seg))) aps.
Proof.
  intros [aps Haps]%steps_solved_assigned. exists aps. split; [done|].
  by apply (steps_one_point objs segments nodes k).
Qed.

(** After its only step the solver over the three-connection segment has
    assigned to it one point for each of C, A and B. *)
Lemma solved_segment_has_one_point_per_connection_example :
  ∃ aps,
    assignedPoints
      (steps SegmentToPointExamples.objs [0] SegmentToPointExamples.nodes 1) !! 0
    = Some aps
    ∧ connectionName <$> aps ≡ₚ ["C"; "A"; "B"]%string
    ∧ Forall (λ ap, Point3.z (point ap) = Some 0%float) aps.
Proof.
  apply (solved_segment_has_one_point_per_connection
           SegmentToPointExamples.objs [0] SegmentToPointExamples.nodes 1 0).
  by_evaluation.
Defined.

(** X4.  Over distinct unsolved segment objects the number of calls of
    [_step] a solver needs is known exactly, whatever the objects carry:
    one call for all the segments the first loop assigns (those with exactly
    one connection that do not carry exactly one assigned point already), if
    there are any, then one call for each other unsolved segment, and at
    least one call.  The solver is solved after [k] calls exactly when it
    was solved before or [k] is at least that number. *)
Theorem solved_after_exactly_steps_needed (s : t) (k : nat) :
  NoDup (unsolvedSegments s) →
  solved (Nat.iter k _step s) = solved s || bool_decide (steps_needed s ≤ k).
Proof. intros Hnd. by apply steps_distinct. Qed.

(** Two one-connection segments and a three-connection segment, the first
    of them carrying an assigned point from an earlier use: the first loop
    assigns the second segment only, so three calls are needed, and two are
    not enough.  With new objects two calls are enough. *)
Lemma solved_after_exactly_steps_needed_example :
  steps_needed SegmentToPointExamples.solver_stale = 3
  ∧ solved (Nat.iter 2 _step SegmentToPointExamples.solver_stale) = false
  ∧ solved (Nat.iter 3 _step SegmentToPointExamples.solver_stale) = true
  ∧ steps_needed (new SegmentToPointExamples.objs_more [0; 1; 2]
                    SegmentToPointExamples.nodes) = 2
  ∧ solved (Nat.iter 2 _step (new SegmentToPointExamples.objs_more [0; 1; 2]
                                SegmentToPointExamples.nodes)) = true.
Proof.
  split; [reflexivity|].
  rewrite !solved_after_exactly_steps_needed by by_evaluation.
  split_and!; reflexivity.
Defined.

(** X5.  Over distinct unsolved segment objects the order in which the
    segments are solved is determined, whatever the objects carry: first
    the segments the first loop assigns, in their order in
    [unsolvedSegments], then the other segments by ascending number of
    connections, those with equally many in their order in
    [unsolvedSegments].  This is the order in which
    [getNodesWithPortPoints] reads them. *)
Theorem solved_segments_order (s : t) (k : nat) :
  NoDup (unsolvedSegments s) →
  steps_needed s ≤ k →
  ∃ rest,
    solvedSegments (Nat.iter k _step s)
    = solvedSegments s ++ first_loop_segments s ++ rest
    ∧ rest ≡ₚ fallback_segments s
    ∧ StronglySorted (λ a b, length (connectionNames (objects s a))
                             ≤ length (connectionNames (objects s b))) rest
    ∧ ∀ a b, length (connectionNames (objects s a))
             = length (connectionNames (objects s b)) →
             before a b (fallback_segments s) → before a b rest.
Proof.
  intros Hnd Hk.
  destruct (steps_distinct s k Hnd) as [_ Hrest].
  destruct (Hrest Hk) as (rest & Hso & Hperm & Hsorted & Hstable).
  by exists rest.
Qed.

(** With the first segment carrying an assigned point from an earlier use,
    the second segment is solved first, then the first, by the fallback,
    then the three-connection segment; with new objects the order is that
    of the input. *)
Lemma solved_segments_order_example :
  solvedSegments (Nat.iter 3 _step SegmentToPointExamples.solver_stale) = [1; 0; 2]
  ∧ solvedSegments (Nat.iter 2 _step (new SegmentToPointExamples.objs_more [0; 1; 2]
                                        SegmentToPointExamples.nodes)) = [0; 1; 2]
  ∧ ∃ rest,
      solvedSegments (Nat.iter 3 _step SegmentToPointExamples.solver_stale)
      = solvedSegments SegmentToPointExamples.solver_stale
        ++ first_loop_segments SegmentToPointExamples.solver_stale ++ rest
      ∧ rest ≡ₚ fallback_segments SegmentToPointExamples.solver_stale
      ∧ StronglySorted
          (λ a b,
             length (connectionNames (objects SegmentToPointExamples.solver_stale a))
             ≤ length (connectionNames (objects SegmentToPointExamples.solver_stale b)))
          rest
      ∧ ∀ a b,
          length (connectionNames (objects SegmentToPointExamples.solver_stale a))
          = length (connectionNames (objects SegmentToPointExamples.solver_stale b)) →
          before a b (fallback_segments SegmentToPointExamples.solver_stale) →
          before a b rest.
Proof.
  split; [reflexivity|]. split; [reflexivity|].
  apply solved_segments_order; by_evaluation.
Defined.

End SegmentToPointRunTheorems.

(** * CapacitySegmentToPointSolver: more on [getNodesWithPortPoints] *)

Module PortPointsLoopFacts.
Import CapacitySegmentToPointSolver SegmentToPointSpec JSFacts
  SegmentToPointFacts SegmentToPointStep PortPointsFacts SegmentToPointRunFacts.

Implicit Types (s : t) (seg x : nat) (l rest : list nat)
  (map : list (string * NodeWithPortPoints.t)).

Lemma add_segments_inl s e l :
  foldl (λ acc seg, match acc with
                    | inl e => inl e
                    | inr map => add_segment s map seg
                    end) (inl e) l = inl e.
Proof. by induction l. Qed.

Lemma add_segments_cons s map seg rest :
  add_segments s map (seg :: rest)
  = match add_segment s map seg with
    | inl e => inl e
    | inr map' => add_segments s map' rest
    end.
Proof.
  unfold add_segments. simpl.
  destruct (add_segment s map seg); [apply add_segments_inl|done].
Qed.

(** The only exception the loop raises is the [TypeError]. *)
Lemma add_segment_error s map seg e :
  add_segment s map seg = inl e → e = JS.TypeError.
Proof.
  unfold add_segment. repeat case_match; congruence.
Qed.

Lemma add_segments_error s rest : ∀ map e,
  add_segments s map rest = inl e → e = JS.TypeError.
Proof.
  induction rest as [|seg rest IH]; intros map e; [done|].
  rewrite add_segments_cons.
  destruct (add_segment s map seg) as [e'|map'] eqn:Hadd; [|apply IH].
  intros [= <-]. by eapply add_segment_error.
Qed.

(** An iteration that does not raise has found the node and the assigned
    points of the segment. *)
Lemma add_segment_inr s l map seg map' :
  map_ok s l map →
  add_segment s map seg = inr map' →
  map_ok s (l ++ [seg]) map'
  ∧ is_Some (nodeMap s !! owner s seg) ∧ is_Some (assignedPoints s !! seg).
Proof.
  intros Hok Hadd.
  assert (Hnode : is_Some (nodeMap s !! owner s seg)).
  { destruct (nodeMap s !! owner s seg) as [node|] eqn:Hnode; [eauto|].
    exfalso. revert Hadd. unfold add_segment. fold (owner s seg). rewrite Hnode.
    unfold Map_has. case_bool_decide as Hhas; [|done].
    destruct Hok as (_ & _ & Hall). rewrite Forall_forall in Hall.
    apply list_elem_of_fmap in Hhas as ([k v] & Hk & Hkv). simpl in Hk.
    destruct (Hall _ Hkv) as [Hid [(node & Hlookup & _) _]]. simpl in *.
    congruence. }
  assert (Haps : is_Some (assignedPoints s !! seg)).
  { destruct (assignedPoints s !! seg) as [aps|] eqn:Haps; [eauto|].
    exfalso. revert Hadd. unfold add_segment. rewrite Haps.
    by repeat case_match. }
  split; [|done]. destruct Hnode as [node Hnode], Haps as [aps Haps].
  destruct (add_segment_ok s l map seg node aps) as (map'' & Hadd' & Hok'); [done..|].
  congruence.
Qed.

Lemma add_segments_inr s rest : ∀ l map map',
  map_ok s l map →
  add_segments s map rest = inr map' →
  map_ok s (l ++ rest) map'.
Proof.
  induction rest as [|seg rest IH]; intros l map map' Hok.
  { intros [= <-]. by rewrite app_nil_r. }
  rewrite add_segments_cons.
  destruct (add_segment s map seg) as [e|map1] eqn:Hadd; [done|].
  intros Hrest. apply (add_segment_inr s l) in Hadd as [Hok1 _]; [|done].
  rewrite (assoc_L _ l [seg] rest : l ++ seg :: rest = (l ++ [seg]) ++ rest).
  by eapply IH.
Qed.

(** A result comes from a solved solver, and from a map that fits all the
    solved segments. *)
Lemma getNodesWithPortPoints_inr s res :
  getNodesWithPortPoints s = inr res →
  solved s = true
  ∧ ∃ map, add_segments s [] (solvedSegments s) = inr map
      ∧ res = map.*2 ∧ map_ok s (solvedSegments s) map.
Proof.
  unfold getNodesWithPortPoints. destruct (solved s); [|done]. simpl.
  fold (add_segments s [] (solvedSegments s)).
  destruct (add_segments s [] (solvedSegments s)) as [e|map] eqn:Hadd; [done|].
  intros [= <-]. split; [done|]. exists map. split_and!; [done..|].
  apply (add_segments_inr s (solvedSegments s) [] [] map (map_ok_nil s) Hadd).
Qed.

Lemma map_ok_ids s l map :
  map_ok s l map → NodeWithPortPoints.capacityMeshNodeId <$> map.*2 = map.*1.
Proof.
  intros (_ & _ & Hall). rewrite <- list_fmap_compose. apply Forall_fmap_ext.
  eapply Forall_impl; [exact Hall|]. by intros kv [? _].
Qed.

(** ** The order of the entries *)

Lemma add_segment_keys s map seg map' :
  add_segment s map seg = inr map' →
  map'.*1 = if decide (owner s seg ∈ map.*1) then map.*1
            else map.*1 ++ [owner s seg].
Proof.
  unfold add_segment. fold (owner s seg). unfold Map_has.
  case_bool_decide as Hhas.
  - rewrite decide_True by done.
    destruct (assignedPoints s !! seg); [|done].
    intros [= <-]. apply Map_push_keys.
  - rewrite decide_False by done.
    destruct (nodeMap s !! owner s seg); [|done].
    destruct (assignedPoints s !! seg); [|done].
    intros [= <-]. rewrite Map_push_keys. by rewrite fmap_app.
Qed.

Lemma add_segments_keys s rest : ∀ map map',
  add_segments s map rest = inr map' →
  map'.*1 = foldl (λ acc nodeId, if decide (nodeId ∈ acc) then acc
                                 else acc ++ [nodeId])
              map.*1 (owner s <$> rest).
Proof.
  induction rest as [|seg rest IH]; intros map map'.
  { by intros [= <-]. }
  rewrite add_segments_cons.
  destruct (add_segment s map seg) as [e|map1] eqn:Hadd; [done|].
  intros Hrest. rewrite (IH _ _ Hrest). simpl.
  by rewrite (add_segment_keys _ _ _ _ Hadd).
Qed.

(** ** The port points *)

Lemma Map_push_absent nodeId pts map :
  nodeId ∉ map.*1 → Map_push_portPoints nodeId pts map = map.
Proof.
  intros Hnot. unfold Map_push_portPoints.
  rewrite <- (list_fmap_id map) at 2. apply list_fmap_ext.
  intros i kv Hkv. rewrite bool_decide_eq_false_2; [done|].
  intros Hk. apply Hnot. apply list_elem_of_fmap. exists kv. split; [done|].
  by eapply list_elem_of_lookup_2.
Qed.

(** Pushing onto the entry of a key adds the points once. *)
Lemma Map_push_all_port_points nodeId pts map :
  NoDup map.*1 → nodeId ∈ map.*1 →
  all_port_points (Map_push_portPoints nodeId pts map).*2
  ≡ₚ all_port_points map.*2 ++ pts.
Proof.
  unfold all_port_points.
  induction map as [|[k v] map IH]; intros Hnd Hin.
  { by apply elem_of_nil in Hin. }
  simpl in Hnd. apply NoDup_cons in Hnd as [Hk Hnd].
  change (Map_push_portPoints nodeId pts ((k, v) :: map))
    with ((if bool_decide (k = nodeId)
           then (k, NodeWithPortPoints.mk
                      (NodeWithPortPoints.capacityMeshNodeId v)
                      (NodeWithPortPoints.portPoints v ++ pts)
                      (NodeWithPortPoints.center v)
                      (NodeWithPortPoints.width v)
                      (NodeWithPortPoints.height v))
           else (k, v)) :: Map_push_portPoints nodeId pts map).
  case_bool_decide as Hkey; simpl.
  - subst k. rewrite Map_push_absent by done.
    rewrite <- !app_assoc. f_equiv. apply Permutation_app_comm.
  - simpl in Hin. apply elem_of_cons in Hin as [?|Hin]; [done|].
    rewrite IH by done. by rewrite app_assoc.
Qed.

Lemma add_segment_all_port_points s l map seg map' :
  map_ok s l map →
  add_segment s map seg = inr map' →
  all_port_points map'.*2 ≡ₚ all_port_points map.*2 ++ segment_port_points s seg.
Proof.
  intros Hok Hadd.
  destruct (add_segment_inr s l map seg map' Hok Hadd) as (_ & [node Hnode] & [aps Haps]).
  destruct Hok as (Hnd & _ & _).
  revert Hadd. unfold add_segment, segment_port_points. fold (owner s seg).
  rewrite Hnode, Haps. simpl. unfold Map_has.
  case_bool_decide as Hhas; intros [= <-].
  - by apply Map_push_all_port_points.
  - rewrite Map_push_all_port_points.
    + unfold all_port_points. rewrite !fmap_app, concat_app. simpl.
      by rewrite !app_nil_r.
    + rewrite fmap_app. apply NoDup_app. split_and!; [done| |apply NoDup_singleton].
      by intros k Hk ->%list_elem_of_singleton.
    + rewrite fmap_app, elem_of_app. right. left.
Qed.

Lemma add_segments_all_port_points s rest : ∀ l map map',
  map_ok s l map →
  add_segments s map rest = inr map' →
  all_port_points map'.*2
  ≡ₚ all_port_points map.*2 ++ concat (segment_port_points s <$> rest).
Proof.
  induction rest as [|seg rest IH]; intros l map map' Hok.
  { intros [= <-]. simpl. by rewrite app_nil_r. }
  rewrite add_segments_cons.
  destruct (add_segment s map seg) as [e|map1] eqn:Hadd; [done|].
  intros Hrest.
  pose proof (add_segment_all_port_points s l map seg map1 Hok Hadd) as Hone.
  apply (add_segment_inr s l) in Hadd as [Hok1 _]; [|done].
  rewrite (IH _ _ _ Hok1 Hrest), Hone. simpl. by rewrite app_assoc.
Qed.

Lemma concat_Permutation {A} (l1 l2 : list (list A)) :
  l1 ≡ₚ l2 → concat l1 ≡ₚ concat l2.
Proof.
  induction 1 as [|x l1 l2 _ IH|x y l|l1 l2 l3 _ IH1 _ IH2]; simpl.
  - done.
  - by rewrite IH.
  - rewrite !app_assoc. f_equiv. apply Permutation_app_comm.
  - by etrans.
Qed.

(** ** The geometry of an entry *)

Lemma nodeMap_of_last nodes nodeId node :
  nodeMap_of nodes !! nodeId = Some node → last_with_id nodes nodeId node.
Proof.
  induction nodes as [|n nodes IH] using rev_ind; [done|].
  rewrite nodeMap_of_snoc.
  destruct (decide (capacityMeshNodeId n = nodeId)) as [Heq|Hne].
  - rewrite Heq, lookup_insert_eq. intros [= <-].
    exists nodes, []. split_and!; [done|done|constructor].
  - rewrite lookup_insert_ne by done.
    intros (pre & post & -> & Hid & Hpost)%IH.
    exists pre, (post ++ [n]). split_and!; [by rewrite <- app_assoc|done|].
    apply Forall_app. split; [done|]. by apply Forall_singleton.
Qed.

Lemma nodeMap_of_None nodes nodeId :
  nodeId ∉ capacityMeshNodeId <$> nodes → nodeMap_of nodes !! nodeId = None.
Proof.
  intros Hnot. destruct (nodeMap_of nodes !! nodeId) as [node|] eqn:Hnode; [|done].
  apply nodeMap_of_lookup in Hnode as [Hin Hid]. exfalso. apply Hnot.
  apply list_elem_of_fmap. by exists node.
Qed.

(** ** Runs *)

Lemma steps_nodeMap objs segments nodes k :
  nodeMap (steps objs segments nodes k) = nodeMap_of nodes.
Proof. rewrite steps_run. apply run_invariant. Qed.

Lemma steps_solved_all objs segments nodes k :
  solved (steps objs segments nodes k) = true →
  solvedSegments (steps objs segments nodes k) ≡ₚ segments.
Proof.
  intros Hsolved.
  pose proof (steps_Permutation objs segments nodes k) as Hperm.
  destruct (run_invariant objs segments nodes k) as (_ & _ & _ & Hnil & _).
  rewrite <- steps_run in Hnil. by rewrite (Hnil Hsolved) in Hperm.
Qed.

End PortPointsLoopFacts.

Module PortPointsLoopTheorems.
Import CapacitySegmentToPointSolver SegmentToPointSpec JSFacts
  SegmentToPointFacts SegmentToPointStep PortPointsFacts SegmentToPointRunFacts
  PortPointsLoopFacts.

(** X6.  The entries [getNodesWithPortPoints] returns are in the order in
    which their nodes first own a solved segment: the node identities of the
    result are the owners of the solved segments, each kept at its first
    appearance. *)
Theorem port_points_listed_by_first_solved_segment (s : t)
    (res : list NodeWithPortPoints.t) :
  getNodesWithPortPoints s = inr res →
  NodeWithPortPoints.capacityMeshNodeId <$> res
  = first_occurrences (owner s <$> solvedSegments s).
Proof.
  intros (_ & map & Hadd & -> & Hok)%getNodesWithPortPoints_inr.
  rewrite (map_ok_ids _ _ _ Hok).
  apply (add_segments_keys s (solvedSegments s) [] map Hadd).
Qed.

(** The single-connection segment of n2 is solved first, so n2 is listed
    before n1, although n1 owns the first input segment. *)
Lemma port_points_listed_by_first_solved_segment_example :
  NodeWithPortPoints.capacityMeshNodeId <$> SegmentToPointExamples.result_CAB_X
  = ["n2"; "n1"]%string
  ∧ NodeWithPortPoints.capacityMeshNodeId <$> SegmentToPointExamples.result_CAB_X
    = first_occurrences
        (owner (steps SegmentToPointExamples.objs [0; 1] SegmentToPointExamples.nodes 2)
         <$> solvedSegments
               (steps SegmentToPointExamples.objs [0; 1] SegmentToPointExamples.nodes 2)).
Proof.
  split; [reflexivity|].
  apply port_points_listed_by_first_solved_segment.
  vm_compute. reflexivity.
Defined.

(** X7.  Where a segment belongs to a node that is not among the mesh nodes
    given to the constructor, [getNodesWithPortPoints] on the solved solver
    raises a [TypeError] (it reads the centre of [undefined]) and returns
    nothing, also for the nodes that are known.  This holds for every
    identity that is not the name of a member inherited from
    [Object.prototype]. *)
Theorem missing_node_raises_TypeError objs segments nodes k seg :
  solved (steps objs segments nodes k) = true →
  seg ∈ segments →
  seg_capacityMeshNodeId (objs seg) ∉ capacityMeshNodeId <$> nodes →
  seg_capacityMeshNodeId (objs seg) ∉ Object_prototype_names →
  getNodesWithPortPoints (steps objs segments nodes k) = inl JS.TypeError.
Proof.
  intros Hsolved Hseg Hmissing _.
  destruct (getNodesWithPortPoints (steps objs segments nodes k)) as [e|res] eqn:Hres.
  - revert Hres. unfold getNodesWithPortPoints. rewrite Hsolved. simpl.
    fold (add_segments (steps objs segments nodes k) []
            (solvedSegments (steps objs segments nodes k))).
    destruct (add_segments _ _ _) as [e'|map] eqn:Hadd; [|done].
    intros [= <-]. f_equal. by eapply add_segments_error.
  - exfalso.
    apply getNodesWithPortPoints_inr in Hres as (_ & map & _ & _ & _ & Hkeys & Hall).
    assert (Hin : owner (steps objs segments nodes k) seg ∈ map.*1).
    { apply Hkeys. exists seg. split; [|done].
      by rewrite (steps_solved_all objs segments nodes k Hsolved). }
    apply list_elem_of_fmap in Hin as ([key v] & Hkey & Hkv). simpl in Hkey.
    rewrite Forall_forall in Hall.
    destruct (Hall _ Hkv) as [Hid [(node & Hnode & _) _]]. simpl in *.
    rewrite steps_nodeMap, Hid, <- Hkey in Hnode. unfold owner in Hnode.
    rewrite steps_objects in Hnode.
    by rewrite nodeMap_of_None in Hnode.
Qed.

(** The single-connection segment belongs to n2; with n1 as the only mesh
    node the query raises the [TypeError]. *)
Lemma missing_node_raises_TypeError_example :
  getNodesWithPortPoints
    (steps SegmentToPointExamples.objs [1] [SegmentToPointExamples.node "n1"] 1)
  = inl JS.TypeError.
Proof.
  apply (missing_node_raises_TypeError SegmentToPointExamples.objs [1]
           [SegmentToPointExamples.node "n1"] 1 1).
  - reflexivity.
  - by_evaluation.
  - by_evaluation.
  - by_evaluation.
Defined.

(** X8.  Where several of the mesh nodes given to the constructor have the
    same identity, the last of them counts: the centre, width and height of
    every returned entry are those of the last mesh node with the entry's
    identity.  This holds for every identity that is not the name of a
    member inherited from [Object.prototype]. *)
Theorem entry_geometry_of_last_node objs segments nodes k
    (res : list NodeWithPortPoints.t) (r : NodeWithPortPoints.t) :
  getNodesWithPortPoints (steps objs segments nodes k) = inr res →
  r ∈ res →
  NodeWithPortPoints.capacityMeshNodeId r ∉ Object_prototype_names →
  ∃ node,
    last_with_id nodes (NodeWithPortPoints.capacityMeshNodeId r) node
    ∧ NodeWithPortPoints.center r = center node
    ∧ NodeWithPortPoints.width r = width node
    ∧ NodeWithPortPoints.height r = height node.
Proof.
  intros (_ & map & _ & -> & _ & _ & Hall)%getNodesWithPortPoints_inr Hr _.
  apply list_elem_of_fmap in Hr as ([key v] & -> & Hkv). simpl.
  rewrite Forall_forall in Hall.
  destruct (Hall _ Hkv) as [_ [(node & Hnode & ? & ? & ?) _]]. simpl in *.
  rewrite steps_nodeMap in Hnode. apply nodeMap_of_last in Hnode.
  by exists node.
Qed.

(** With two mesh nodes of the identity n2 the entry of n2 has the geometry
    of the second one. *)
Lemma entry_geometry_of_last_node_example :
  ∃ node,
    last_with_id
      [SegmentToPointExamples.node "n2"; SegmentToPointExamples.node_n2_later]
      "n2" node
    ∧ Point.mk 1 1 = center node
    ∧ 2%float = width node
    ∧ 2%float = height node.
Proof.
  apply (entry_geometry_of_last_node SegmentToPointExamples.objs [1]
           [SegmentToPointExamples.node "n2"; SegmentToPointExamples.node_n2_later] 1
           [NodeWithPortPoints.mk "n2" [PortPoint.mk 2 1 (Some 1%float) "X"]
              (Point.mk 1 1) 2 2]
           (NodeWithPortPoints.mk "n2" [PortPoint.mk 2 1 (Some 1%float) "X"]
              (Point.mk 1 1) 2 2)).
  - vm_compute. reflexivity.
  - left.
  - by_evaluation.
Defined.

(** X9.  Whenever [getNodesWithPortPoints] returns a result for a run, the
    port points of all its entries together carry exactly the connection
    names of all the input segments together, each as often as it is listed
    there: every connection of every segment gets one port point, and there
    is no other port point. *)
Theorem every_connection_gets_one_port_point objs segments nodes k
    (res : list NodeWithPortPoints.t) :
  getNodesWithPortPoints (steps objs segments nodes k) = inr res →
  PortPoint.connectionName <$> all_port_points res
  ≡ₚ concat ((λ seg, connectionNames (objs seg)) <$> segments).
Proof.
  intros (Hsolved & map & Hadd & -> & Hok)%getNodesWithPortPoints_inr.
  set (s := steps objs segments nodes k) in *.
  rewrite (add_segments_all_port_points s _ [] [] map (map_ok_nil s) Hadd).
  simpl.
  etrans; [|apply concat_Permutation, fmap_Permutation,
             (steps_solved_all objs segments nodes k Hsolved)].
  fold s. clear Hadd Hok map.
  assert (Hnames : ∀ seg, seg ∈ solvedSegments s →
            PortPoint.connectionName <$> segment_port_points s seg
            ≡ₚ connectionNames (objs seg)).
  { intros seg [aps Haps]%steps_solved_assigned. fold s in Haps.
    unfold segment_port_points. rewrite Haps. simpl.
    rewrite <- list_fmap_compose.
    by destruct (steps_one_point objs segments nodes k seg aps Haps) as [<- _]. }
  revert Hnames. generalize (solvedSegments s). intros l Hnames.
  induction l as [|seg l IH]; [done|]. simpl.
  rewrite fmap_app, Hnames by left. f_equiv.
  apply IH. intros x Hx. apply Hnames. by right.
Qed.

(** The port points returned for the three-connection and the
    single-connection segment carry the names X, A, B, C: those of the two
    segments, C, A, B and X. *)
Lemma every_connection_gets_one_port_point_example :
  PortPoint.connectionName <$> all_port_points SegmentToPointExamples.result_CAB_X
  ≡ₚ concat ((λ seg, connectionNames (SegmentToPointExamples.objs seg)) <$> [0; 1]).
Proof.
  apply (every_connection_gets_one_port_point SegmentToPointExamples.objs [0; 1]
           SegmentToPointExamples.nodes 2).
  vm_compute. reflexivity.
Defined.

End PortPointsLoopTheorems.

(** * CapacityPathingSingleSectionSolver: the order of the traversal *)

Module SectionOrderFacts.
Import CapacityPathingSingleSectionSolver SectionSpec SectionFacts BfsFacts.

Implicit Types (edges : list CapacityMeshEdge) (u v center : string)
  (b : bfs) (m : gmap string (list CapacityMeshEdge)).

(** The traversal only appends to the queue and to the set. *)
Lemma visit_prefix depth ns : ∀ b,
  queue b `prefix_of` queue (foldl (visit depth) b ns)
  ∧ sectionNodeIds b `prefix_of` sectionNodeIds (foldl (visit depth) b ns).
Proof.
  induction ns as [|n ns IH]; intros b; [done|]. simpl.
  destruct (IH (visit depth b n)) as [Hq Hs].
  split; (etrans; [|eassumption]); unfold visit; case_bool_decide; simpl;
    try done; by apply prefix_app_r.
Qed.

Lemma bfs_body_prefix m r b u d :
  queue b `prefix_of` queue (bfs_body m r b u d)
  ∧ sectionNodeIds b `prefix_of` sectionNodeIds (bfs_body m r b u d).
Proof.
  unfold bfs_body. case_bool_decide; [done|].
  apply (visit_prefix d _
           {| sectionNodeIds := sectionNodeIds b; queue := queue b;
              head := head b + 1 |}).
Qed.

Lemma bfs_loop_prefix m r fuel : ∀ b b',
  bfs_loop m r fuel b = Some b' →
  queue b `prefix_of` queue b' ∧ sectionNodeIds b `prefix_of` sectionNodeIds b'.
Proof.
  induction fuel as [|fuel IH]; intros b b'; [done|]. simpl.
  destruct (queue b !! head b) as [[u d]|]; [|by intros [= <-]].
  intros [Hq Hs]%IH. destruct (bfs_body_prefix m r b u d) as [Hq' Hs'].
  split; by etrans.
Qed.

(** The state in which the loop of the constructor ends. *)
Lemma bfs_loop_final edges center r :
  ∃ b,
    bfs_loop (getNodeEdgeMap edges) r (2 * length edges + 2)
      {| sectionNodeIds := [center]; queue := [(center, 0)]; head := 0 |} = Some b
    ∧ bfs_inv edges center r b ∧ head b = length (queue b).
Proof.
  apply bfs_loop_terminates; [apply bfs_inv_init|]. simpl. lia.
Qed.

(** Once the entries left in the queue are all at the radius, the loop adds
    nothing more. *)
Lemma bfs_loop_skip_rest m r fuel : ∀ b b',
  (∀ i e, head b ≤ i → queue b !! i = Some e → r ≤ e.2) →
  bfs_loop m r fuel b = Some b' →
  sectionNodeIds b' = sectionNodeIds b.
Proof.
  induction fuel as [|fuel IH]; intros b b' Hrest; [done|]. simpl.
  destruct (queue b !! head b) as [[u d]|] eqn:Hu; [|by intros [= <-]].
  unfold bfs_body. rewrite bool_decide_eq_true_2 by apply (Hrest _ _ (le_n _) Hu).
  intros Hloop%IH; [done|]. simpl. intros i e Hi. apply Hrest. lia.
Qed.

(** The traversals with the radius [r] and a larger radius [r'] agree until
    the first entry at depth [r] is read; from there on the first adds
    nothing and the second only appends. *)
Lemma bfs_loop_radius_prefix edges center r r' fuel : r ≤ r' → ∀ b b1 b2,
  bfs_inv edges center r b →
  bfs_loop (getNodeEdgeMap edges) r fuel b = Some b1 →
  bfs_loop (getNodeEdgeMap edges) r' fuel b = Some b2 →
  sectionNodeIds b1 `prefix_of` sectionNodeIds b2.
Proof.
  intros Hr. induction fuel as [|fuel IH]; intros b b1 b2 Hinv; [done|].
  destruct (queue b !! head b) as [[u d]|] eqn:Hu.
  - destruct (decide (d < r)) as [Hd|Hd].
    + simpl. rewrite Hu.
      assert (Hbody : bfs_body (getNodeEdgeMap edges) r' b u d
                      = bfs_body (getNodeEdgeMap edges) r b u d).
      { unfold bfs_body. by rewrite !bool_decide_eq_false_2 by lia. }
      rewrite Hbody. apply IH. by apply bfs_body_inv.
    + intros H1 H2.
      assert (Hskip : sectionNodeIds b1 = sectionNodeIds b).
      { eapply bfs_loop_skip_rest; [|exact H1]. intros i e Hi He.
        pose proof (inv_sorted _ _ _ _ Hinv (head b) i _ _ Hu He Hi). simpl in *. lia. }
      rewrite Hskip. by apply bfs_loop_prefix in H2 as [_ ?].
  - simpl. rewrite Hu. by intros [= <-] [= <-].
Qed.

Lemma computeSectionNodeIds_prefix edges center r r' ids ids' :
  r ≤ r' →
  computeSectionNodeIds (getNodeEdgeMap edges) edges center r = Some ids →
  computeSectionNodeIds (getNodeEdgeMap edges) edges center r' = Some ids' →
  ids `prefix_of` ids'.
Proof.
  intros Hr. unfold computeSectionNodeIds.
  destruct (bfs_loop _ r _ _) as [b1|] eqn:H1; [|done].
  destruct (bfs_loop _ r' _ _) as [b2|] eqn:H2; [|done].
  intros [= <-] [= <-].
  eapply (bfs_loop_radius_prefix edges center r r'); [done| |exact H1|exact H2].
  apply bfs_inv_init.
Qed.

(** The identities are found in the order of their distance. *)
Lemma computeSectionNodeIds_order edges center r ids :
  computeSectionNodeIds (getNodeEdgeMap edges) edges center r = Some ids →
  ids !! 0 = Some center
  ∧ ∀ i j u v, ids !! i = Some u → ids !! j = Some v → i ≤ j →
               no_farther edges center u v.
Proof.
  unfold computeSectionNodeIds.
  destruct (bfs_loop_final edges center r) as (b & Hloop & Hinv & Hend).
  rewrite Hloop. intros [= <-]. split.
  - apply bfs_loop_prefix in Hloop as [_ [k ->]]. done.
  - rewrite (inv_ids _ _ _ _ Hinv). intros i j u v Hi Hj Hij k Hwalk.
    rewrite list_lookup_fmap in Hi, Hj.
    destruct (queue b !! i) as [[u' du]|] eqn:Hqi; simplify_eq/=.
    destruct (queue b !! j) as [[v' dv]|] eqn:Hqj; simplify_eq/=.
    pose proof (inv_sorted _ _ _ _ Hinv i j _ _ Hqi Hqj Hij) as Hle. simpl in Hle.
    destruct (inv_sound _ _ _ _ Hinv u du) as [Hdu Hu]; [by eapply list_elem_of_lookup_2|].
    destruct (inv_sound _ _ _ _ Hinv v dv) as [Hdv _]; [by eapply list_elem_of_lookup_2|].
    exists du. split; [|done].
    destruct (decide (k ≤ r)) as [Hk|Hk]; [|lia].
    destruct (bfs_complete edges center r b k v Hinv Hend Hwalk Hk) as (d & Hd & Hv).
    assert (d = dv); [|lia].
    apply list_elem_of_lookup_1 in Hv as [j' Hj'].
    assert (j' = j); [|congruence].
    eapply (NoDup_lookup (queue b).*1); [apply Hinv| |].
    + rewrite list_lookup_fmap, Hj'. done.
    + rewrite list_lookup_fmap, Hqj. done.
Qed.

(** With the radius 0 the traversal stops at the focus node, whatever the
    adjacency. *)
Lemma computeSectionNodeIds_0 m edges center :
  computeSectionNodeIds m edges center 0 = Some [center].
Proof.
  unfold computeSectionNodeIds.
  replace (2 * length edges + 2) with (S (S (2 * length edges))) by lia.
  reflexivity.
Qed.

(** A focus node that no edge names has no neighbour. *)
Lemma hops_isolated edges center k v :
  center ∉ endpoints edges → hops edges center k v → v = center.
Proof.
  intros Hiso. induction 1 as [|k u v _ -> Hadj]; [done|].
  exfalso. apply Hiso.
  destruct Hadj as (edge & Hedge & Hends). unfold endpoints.
  apply list_elem_of_In, in_flat_map. exists edge.
  split; [by apply list_elem_of_In|].
  destruct Hends as [-> | ->]; simpl; tauto.
Qed.

Lemma NoDup_singleton_eq (ids : list string) (c : string) :
  NoDup ids → (∀ v, v ∈ ids ↔ v = c) → ids = [c].
Proof.
  intros Hnd Hmem. destruct ids as [|a ids].
  { exfalso. by apply (not_elem_of_nil c), Hmem. }
  assert (a = c) as -> by (apply Hmem; left).
  destruct ids as [|a' ids]; [done|].
  assert (a' = c) as -> by (apply Hmem; right; left).
  apply NoDup_cons in Hnd as [Hnot _]. exfalso. apply Hnot. left.
Qed.

(** ** Section edges *)

Lemma computeSectionEdges_mono (ids ids' : list string) edges :
  ids ⊆ ids' →
  computeSectionEdges ids edges `sublist_of` computeSectionEdges ids' edges.
Proof.
  intros Hsub. unfold computeSectionEdges.
  induction edges as [|edge edges IH]; [done|].
  rewrite !filter_cons. destruct (nodeIds edge) as [a c] eqn:Hedge.
  destruct (decide (a ∈ ids ∧ c ∈ ids)) as [[Ha Hc]|Hno].
  - rewrite decide_True by (split; by apply Hsub). by apply sublist_skip.
  - destruct (decide (a ∈ ids' ∧ c ∈ ids')); [by apply sublist_cons|done].
Qed.

Lemma computeSectionEdges_isolated center edges :
  center ∉ endpoints edges → computeSectionEdges [center] edges = [].
Proof.
  unfold computeSectionEdges, endpoints.
  induction edges as [|edge edges IH]; intros Hiso; [done|].
  simpl in Hiso. rewrite !not_elem_of_cons in Hiso.
  destruct Hiso as (Ha & Hc & Hrest).
  rewrite filter_cons_False; [by apply IH|].
  destruct (nodeIds edge) as [a c]. simpl in *.
  rewrite !list_elem_of_singleton. by intros [-> _].
Qed.

(** ** Terminals *)

Lemma terminals_of_cases (ids : list string) (conn : ConnectionPathWithNodes) :
  terminals_of ids conn = []
  ∨ ∃ t, terminals_of ids conn = [t] ∧ connectionName t = name (connection conn).
Proof.
  unfold terminals_of. repeat case_match; eauto.
Qed.

Lemma computeTerminals_names (ids : list string)
    (conns : list ConnectionPathWithNodes) :
  connectionName <$> concat (terminals_of ids <$> conns)
  `sublist_of` (λ conn, name (connection conn)) <$> conns.
Proof.
  induction conns as [|conn conns IH]; [done|]. simpl.
  rewrite fmap_app.
  destruct (terminals_of_cases ids conn) as [-> |(t & -> & <-)]; simpl.
  - by apply sublist_cons.
  - by apply sublist_skip.
Qed.

(** ** The node map *)

Section NodeMap.
Context {S : Type} `{SubSolver S}.

Lemma section_nodeMap_of_snoc nodes node :
  nodeMap_of (nodes ++ [node])
  = <[capacityMeshNodeId node := node]> (nodeMap_of nodes).
Proof. unfold nodeMap_of. by rewrite foldl_app. Qed.

Lemma section_nodeMap_of_Some nodes nodeId node :
  nodeMap_of nodes !! nodeId = Some node → last_node_with_id nodes nodeId node.
Proof.
  induction nodes as [|n nodes IH] using rev_ind; [done|].
  rewrite section_nodeMap_of_snoc.
  destruct (decide (capacityMeshNodeId n = nodeId)) as [Heq|Hne].
  - rewrite Heq, lookup_insert_eq. intros [= <-].
    exists nodes, []. split_and!; [done|done|constructor].
  - rewrite lookup_insert_ne by done.
    intros (pre & post & -> & Hid & Hpost)%IH.
    exists pre, (post ++ [n]). split_and!; [by rewrite <- app_assoc|done|].
    apply Forall_app. split; [done|]. by apply Forall_singleton.
Qed.

Lemma section_nodeMap_of_None nodes nodeId :
  nodeMap_of nodes !! nodeId = None → nodeId ∉ capacityMeshNodeId <$> nodes.
Proof.
  induction nodes as [|n nodes IH] using rev_ind.
  { intros _. apply not_elem_of_nil. }
  rewrite section_nodeMap_of_snoc.
  destruct (decide (capacityMeshNodeId n = nodeId)) as [Heq|Hne].
  - by rewrite Heq, lookup_insert_eq.
  - rewrite lookup_insert_ne by done. intros Hnone%IH.
    rewrite fmap_app, elem_of_app. simpl. rewrite list_elem_of_singleton.
    intros [?|?]; [done|]. by apply Hne.
Qed.

(** What the constructor computes, with the traversal it ran. *)
Lemma new_computed (params : CapacityPathingSingleSectionSolverInput) :
  ∃ s ids,
    new (S := S) params = Some s
    ∧ computeSectionNodeIds (getNodeEdgeMap (in_edges params)) (in_edges params)
        (in_centerNodeId params) (radius_of params) = Some ids
    ∧ section_ids params ids
    ∧ sectionNodes s = (λ id, nodeMap_of (in_nodes params) !! id) <$> ids
    ∧ sectionEdges s = computeSectionEdges ids (in_edges params)
    ∧ sectionConnectionTerminals s
      = computeTerminals ids (in_connectionsWithNodes params)
    ∧ centerNodeId s = in_centerNodeId params
    ∧ connectionsWithNodes s = in_connectionsWithNodes params
    ∧ nodes s = in_nodes params
    ∧ edges s = in_edges params
    ∧ expansionDegrees s = radius_of params.
Proof.
  destruct (computeSectionNodeIds_spec (in_edges params) (in_centerNodeId params)
              (radius_of params)) as (ids & Hids & Hnd & Hspec).
  unfold new, computeSectionNodesTerminalsAndEdges. simpl.
  fold (radius_of params). rewrite Hids. simpl.
  eexists _, ids. split; [reflexivity|]. by split_and!.
Qed.

End NodeMap.

End SectionOrderFacts.

Module SectionOrderTheorems.
Import CapacityPathingSingleSectionSolver SectionSpec SectionFacts BfsFacts
  SectionTheorems SectionOrderFacts.

(** X10.  The section nodes are listed in the order in which the traversal
    finds them: the focus node first, and no node before one that is
    nearer to the focus node.  For any two entries, the earlier one is no
    farther from the focus node, in hops over the mesh edges, than the later
    one. *)
Theorem section_nodes_by_distance {S : Type} `{SubSolver S}
    (params : CapacityPathingSingleSectionSolverInput) :
  ∃ (s : t (S := S)) ids,
    new params = Some s
    ∧ sectionNodes s = (λ id, nodeMap_of (in_nodes params) !! id) <$> ids
    ∧ ids !! 0 = Some (in_centerNodeId params)
    ∧ ∀ i j u v, ids !! i = Some u → ids !! j = Some v → i ≤ j →
                 no_farther (in_edges params) (in_centerNodeId params) u v.
Proof.
  destruct (new_computed (S := S) params) as (s & ids & Hnew & Hids & _ & Hnodes & _).
  exists s, ids. split_and!; [done..| |];
    by apply (computeSectionNodeIds_order _ _ _ _ Hids).
Qed.

(** X11.  Enlarging the hop radius only appends: the section nodes for a
    radius are the first of the section nodes for any larger radius, in the
    same order, and the section edges for the smaller radius are among those
    for the larger one, in the same order. *)
Theorem larger_radius_extends_section {S : Type} `{SubSolver S}
    (params : CapacityPathingSingleSectionSolverInput) (r r' : nat) :
  r ≤ r' →
  ∃ (s s' : t (S := S)),
    new (with_radius r params) = Some s
    ∧ new (with_radius r' params) = Some s'
    ∧ sectionNodes s `prefix_of` sectionNodes s'
    ∧ sectionEdges s `sublist_of` sectionEdges s'.
Proof.
  intros Hr.
  destruct (new_computed (S := S) (with_radius r params))
    as (s & ids & Hnew & Hids & _ & Hnodes & Hedges & _).
  destruct (new_computed (S := S) (with_radius r' params))
    as (s' & ids' & Hnew' & Hids' & _ & Hnodes' & Hedges' & _).
  simpl in *. unfold radius_of in Hids, Hids'. simpl in *.
  exists s, s'. split_and!; [done..| |].
  - destruct (computeSectionNodeIds_prefix _ _ _ _ _ _ Hr Hids Hids') as [k ->].
    rewrite Hnodes, Hnodes', fmap_app. by apply prefix_app_r.
  - rewrite Hedges, Hedges'. apply computeSectionEdges_mono.
    destruct (computeSectionNodeIds_prefix _ _ _ _ _ _ Hr Hids Hids') as [k ->].
    intros x Hx. apply elem_of_app. by left.
Qed.

(** On the path graph with the focus n1, the radius 2 adds n3 and the edge
    n2 - n3 to the section of the radius 1. *)
Lemma larger_radius_extends_section_example :
  ∃ (s s' : t (S := SectionExamples.stub)),
    new (with_radius 1 SectionExamples.params) = Some s
    ∧ new (with_radius 2 SectionExamples.params) = Some s'
    ∧ sectionNodes s `prefix_of` sectionNodes s'
    ∧ sectionEdges s `sublist_of` sectionEdges s'.
Proof. apply larger_radius_extends_section. lia. Defined.

(** X12.  A hop radius of 0 is kept as it is, not replaced by the default
    of 3, and gives the smallest section: the focus node alone, whatever
    the mesh edges are, with no section edge but an edge from the focus node
    to itself. *)
Theorem radius_zero_section_is_focus_node {S : Type} `{SubSolver S}
    (params : CapacityPathingSingleSectionSolverInput) :
  in_hyperParameters params ≫= EXPANSION_DEGREES = Some 0 →
  ∃ (s : t (S := S)),
    new params = Some s
    ∧ expansionDegrees s = 0
    ∧ sectionNodes s = [nodeMap_of (in_nodes params) !! in_centerNodeId params]
    ∧ ∀ edge, edge ∈ sectionEdges s
              ↔ edge ∈ in_edges params
                ∧ nodeIds edge = (in_centerNodeId params, in_centerNodeId params).
Proof.
  intros Hzero.
  destruct (new_computed (S := S) params)
    as (s & ids & Hnew & Hids & _ & Hnodes & Hedges & _ & _ & _ & _ & _ & Hr).
  unfold radius_of in Hids, Hr. rewrite Hzero in Hids, Hr. simpl in Hids, Hr.
  rewrite computeSectionNodeIds_0 in Hids. injection Hids as <-.
  exists s. split_and!; [done..|].
  intros edge. rewrite Hedges. unfold computeSectionEdges.
  rewrite list_elem_of_filter. destruct (nodeIds edge) as [a c].
  rewrite !list_elem_of_singleton. split.
  - by intros [[-> ->] ?].
  - by intros [? [= -> ->]].
Qed.

(** The path graph with the focus n1 and the radius 0: the section is n1
    and has no edge. *)
Lemma radius_zero_section_is_focus_node_example :
  ∃ (s : t (S := SectionExamples.stub)),
    new (with_radius 0 SectionExamples.params) = Some s
    ∧ expansionDegrees s = 0
    ∧ sectionNodes s = [Some (SectionExamples.node "n1")]
    ∧ ∀ edge, edge ∈ sectionEdges s
              ↔ edge ∈ SectionExamples.path_graph ∧ nodeIds edge = ("n1", "n1")%string.
Proof.
  apply (radius_zero_section_is_focus_node (S := SectionExamples.stub)
           (with_radius 0 SectionExamples.params)).
  reflexivity.
Defined.

(** X13.  A section node is looked up by its identity among the mesh nodes
    given to the constructor: the entry of [sectionNodes] for an identity
    of the section is the last of the mesh nodes with that identity, and it
    is [undefined] exactly for an identity that no mesh node has (the focus
    node or an end of an edge that is not among the nodes). *)
Theorem section_nodes_looked_up_by_identity {S : Type} `{SubSolver S}
    (params : CapacityPathingSingleSectionSolverInput) :
  ∃ (s : t (S := S)) ids,
    new params = Some s
    ∧ section_ids params ids
    ∧ Forall2 (λ id entry,
                 match entry with
                 | Some node => last_node_with_id (in_nodes params) id node
                 | None => id ∉ capacityMeshNodeId <$> in_nodes params
                 end) ids (sectionNodes s).
Proof.
  destruct (new_computed (S := S) params) as (s & ids & Hnew & _ & Hids & Hnodes & _).
  exists s, ids. split_and!; [done..|].
  rewrite Hnodes. apply Forall2_fmap_r, Forall_Forall2_diag, Forall_forall.
  intros id _. simpl.
  destruct (nodeMap_of (in_nodes params) !! id) as [node|] eqn:Hnode.
  - by apply section_nodeMap_of_Some.
  - by apply section_nodeMap_of_None.
Qed.

(** X14.  The terminals follow the connections: there is at most one
    terminal for each connection, and the terminals are in the order of
    their connections. *)
Theorem terminals_follow_connections {S : Type} `{SubSolver S}
    (params : CapacityPathingSingleSectionSolverInput) :
  ∃ (s : t (S := S)),
    new params = Some s
    ∧ connectionName <$> sectionConnectionTerminals s
      `sublist_of` (λ conn, name (connection conn)) <$> in_connectionsWithNodes params.
Proof.
  destruct (new_computed (S := S) params)
    as (s & ids & Hnew & _ & _ & _ & _ & Hterminals & _).
  exists s. split; [done|].
  rewrite Hterminals, computeTerminals_concat. apply computeTerminals_names.
Qed.

(** X15.  The object [getConstructorParams] returns does not rebuild the
    solver: it names the hop radius [expansionDegrees], a key the
    constructor does not read, and has no [hyperParameters].  A solver
    constructed from it has the default radius 3 and the section for the
    radius 3, whatever radius the first solver was built with. *)
Theorem constructor_params_lose_radius {S : Type} `{SubSolver S}
    (params : CapacityPathingSingleSectionSolverInput)
    (colorMap : gmap string string) :
  ∃ (s s' s3 : t (S := S)) cp,
    new params = Some s
    ∧ getConstructorParams s = [cp]
    ∧ cp_expansionDegrees cp = radius_of params
    ∧ new (input_of_ConstructorParams cp colorMap) = Some s'
    ∧ new (with_radius 3 params) = Some s3
    ∧ expansionDegrees s' = 3
    ∧ sectionNodes s' = sectionNodes s3
    ∧ sectionEdges s' = sectionEdges s3
    ∧ sectionConnectionTerminals s' = sectionConnectionTerminals s3.
Proof.
  destruct (new_computed (S := S) params)
    as (s & ids & Hnew & _ & _ & _ & _ & _ & Hc & Hconns & Hnodes & Hedges & Hr).
  set (cp := {| cp_centerNodeId := centerNodeId s;
                cp_connectionsWithNodes := connectionsWithNodes s;
                cp_nodes := nodes s;
                cp_edges := edges s;
                cp_expansionDegrees := expansionDegrees s |}).
  destruct (new_computed (S := S) (input_of_ConstructorParams cp colorMap))
    as (s' & ids' & Hnew' & Hids' & _ & Hn' & He' & Ht' & _ & _ & _ & _ & Hr').
  destruct (new_computed (S := S) (with_radius 3 params))
    as (s3 & ids3 & Hnew3 & Hids3 & _ & Hn3 & He3 & Ht3 & _).
  unfold radius_of in Hids', Hids3, Hr'. simpl in *.
  rewrite Hc, Hedges in Hids'. rewrite Hedges in He'.
  rewrite Hnodes in Hn'. rewrite Hconns in Ht'.
  assert (ids' = ids3) as -> by congruence.
  exists s, s', s3, cp. split_and!; [done..|congruence|congruence|congruence].
Qed.

(** The solver over the path graph with the focus n1 and the radius 1 has
    the section n1, n0, n2; the solver rebuilt from its constructor
    parameters has the radius 3 and the section n1, n0, n2, n3. *)
Lemma constructor_params_lose_radius_example :
  (λ s : t (S := SectionExamples.stub), (expansionDegrees s, length (sectionNodes s)))
    <$> new SectionExamples.params = Some (1, 3)
  ∧ (λ s : t (S := SectionExamples.stub), getConstructorParams s)
      <$> new SectionExamples.params
    = Some [ {| cp_centerNodeId := "n1";
                cp_connectionsWithNodes := in_connectionsWithNodes SectionExamples.params;
                cp_nodes := in_nodes SectionExamples.params;
                cp_edges := SectionExamples.path_graph;
                cp_expansionDegrees := 1 |} ]
  ∧ (λ s : t (S := SectionExamples.stub), (expansionDegrees s, length (sectionNodes s)))
      <$> new (input_of_ConstructorParams
                 {| cp_centerNodeId := "n1";
                    cp_connectionsWithNodes := in_connectionsWithNodes SectionExamples.params;
                    cp_nodes := in_nodes SectionExamples.params;
                    cp_edges := SectionExamples.path_graph;
                    cp_expansionDegrees := 1 |} ∅)
    = Some (3, 4).
Proof. split_and!; vm_compute; reflexivity. Qed.

(** X16.  Calls of [_step] add up: after [n] calls the sub-solver has taken
    [n] steps; the solver is solved exactly if it was solved before or the
    sub-solver was solved after one of these steps, and failed exactly if it
    was failed before or the sub-solver was failed and not solved after
    one of them: no call resets [solved] or [failed], and none changes the
    section. *)
Theorem steps_accumulate_sub_solver_state {S : Type} `{SubSolver S}
    (s : t (S := S)) (sub : S) (n : nat) :
  activeSubSolver s = Some sub →
  activeSubSolver (Nat.iter n _step s) = Some (sub_after n sub)
  ∧ solved (Nat.iter n _step s)
    = solved s || existsb (λ k, sub_solved (sub_after k sub)) (seq 1 n)
  ∧ failed (Nat.iter n _step s)
    = failed s
      || existsb (λ k, negb (sub_solved (sub_after k sub))
                       && sub_failed (sub_after k sub)) (seq 1 n)
  ∧ sectionNodes (Nat.iter n _step s) = sectionNodes s
  ∧ sectionEdges (Nat.iter n _step s) = sectionEdges s
  ∧ sectionConnectionTerminals (Nat.iter n _step s) = sectionConnectionTerminals s.
Proof.
  intros Hsub. induction n as [|n (Hact & Hsolved & Hfailed & Hn & He & Ht)].
  { simpl. by rewrite !orb_false_r. }
  rewrite seq_S, !existsb_app. simpl. rewrite !orb_false_r, !orb_assoc.
  rewrite <- Hsolved, <- Hfailed, <- Hn, <- He, <- Ht.
  change (Nat.iter n sub_step sub) with (sub_after n sub).
  generalize dependent (Nat.iter n _step s). intros sn Hact _ _ _ _ _.
  unfold _step. rewrite Hact. simpl.
  set (sub' := sub_step (sub_after n sub)).
  destruct (sub_solved sub'); simpl.
  { by rewrite orb_true_r, orb_false_r. }
  rewrite !orb_false_r.
  destruct (sub_failed sub'); simpl; by rewrite ?orb_true_r, ?orb_false_r.
Qed.

(** The solver whose sub-solver fails at its next step is failed after
    three calls, and not solved. *)
Lemma steps_accumulate_sub_solver_state_example :
  activeSubSolver (Nat.iter 3 _step SectionExamples.failing_solver)
  = Some (SectionExamples.Failure "no path found")
  ∧ solved (Nat.iter 3 _step SectionExamples.failing_solver) = false
  ∧ failed (Nat.iter 3 _step SectionExamples.failing_solver) = true.
Proof.
  destruct (steps_accumulate_sub_solver_state SectionExamples.failing_solver
              (SectionExamples.Running 0 true) 3 eq_refl)
    as (Hsub & Hsolved & Hfailed & _).
  split_and!; [exact Hsub|exact Hsolved|exact Hfailed].
Defined.

(** X17.  A connection whose path has exactly one node in the section gets a
    terminal that starts and ends at that node, if the node's identity is
    not empty. *)
Theorem path_touching_section_once (ids : list string)
    (conn : ConnectionPathWithNodes)
    (pre post : list CapacityMeshNode) (node : CapacityMeshNode) :
  path conn = Some (pre ++ node :: post) →
  capacityMeshNodeId node ∈ ids →
  Forall (λ n, capacityMeshNodeId n ∉ ids) pre →
  Forall (λ n, capacityMeshNodeId n ∉ ids) post →
  capacityMeshNodeId node ≠ EmptyString →
  terminals_of ids conn
  = [ {| connectionName := name (connection conn);
         startNodeId := capacityMeshNodeId node;
         endNodeId := capacityMeshNodeId node |} ].
Proof.
  intros Hp Hin Hpre Hpost Hid%truthy_Some.
  rewrite (terminals_of_meeting ids conn _ node node Hp).
  - by rewrite Hid.
  - by exists pre, post.
  - by exists pre, post.
Qed.

(** The path n3, n4 meets the section n1, n2, n3 of the path graph at n3
    only. *)
Lemma path_touching_section_once_example :
  terminals_of ["n1"; "n2"; "n3"] SectionExamples.connection_outside
  = [ {| connectionName := "c2"; startNodeId := "n3"; endNodeId := "n3" |} ].
Proof.
  apply (path_touching_section_once ["n1"; "n2"; "n3"]
           SectionExamples.connection_outside []
           [SectionExamples.node "n4"] (SectionExamples.node "n3")).
  - reflexivity.
  - by_evaluation.
  - constructor.
  - constructor; [cbv beta; by_evaluation|constructor].
  - discriminate.
Defined.

(** X18.  A focus node that no mesh edge names is a section of its own, for
    every hop radius: the section has this one node and no edge. *)
Theorem isolated_focus_node_is_whole_section {S : Type} `{SubSolver S}
    (params : CapacityPathingSingleSectionSolverInput) :
  in_centerNodeId params ∉ endpoints (in_edges params) →
  ∃ (s : t (S := S)),
    new params = Some s
    ∧ sectionNodes s = [nodeMap_of (in_nodes params) !! in_centerNodeId params]
    ∧ sectionEdges s = [].
Proof.
  intros Hiso.
  destruct (new_computed (S := S) params)
    as (s & ids & Hnew & _ & [Hnd Hmem] & Hnodes & Hedges & _).
  assert (ids = [in_centerNodeId params]) as ->.
  { apply NoDup_singleton_eq; [done|]. intros v. rewrite Hmem. split.
    - intros (k & _ & Hwalk). by eapply hops_isolated.
    - intros ->. exists 0. split; [lia|constructor]. }
  exists s. split_and!; [done..|].
  rewrite Hedges. by apply computeSectionEdges_isolated.
Qed.

(** The focus n9 is no node of the path graph: its section is the one
    entry [undefined]. *)
Lemma isolated_focus_node_is_whole_section_example :
  ∃ (s : t (S := SectionExamples.stub)),
    new SectionExamples.params_isolated = Some s
    ∧ sectionNodes s = [None]
    ∧ sectionEdges s = [].
Proof.
  apply (isolated_focus_node_is_whole_section (S := SectionExamples.stub)
           SectionExamples.params_isolated).
  by_evaluation.
Defined.

(** X19.  The section is connected in itself: every section node is reached
    from the focus node by a walk of at most the hop radius that uses
    section edges only. *)
Theorem section_is_connected {S : Type} `{SubSolver S}
    (params : CapacityPathingSingleSectionSolverInput) :
  ∃ (s : t (S := S)) ids,
    new params = Some s
    ∧ sectionNodes s = (λ id, nodeMap_of (in_nodes params) !! id) <$> ids
    ∧ ∀ v, v ∈ ids →
           within (sectionEdges s) (in_centerNodeId params) (radius_of params) v.
Proof.
  destruct (new_computed (S := S) params)
    as (s & ids & Hnew & _ & [_ Hmem] & Hnodes & Hedges & _).
  exists s, ids. split_and!; [done..|].
  intros v (k & Hk & Hwalk)%Hmem. exists k. split; [done|].
  rewrite Hedges. clear Hnew Hnodes Hedges.
  induction Hwalk as [|k u v Hwalk IH Hadj]; [constructor|].
  econstructor; [apply IH; lia|].
  destruct Hadj as (edge & Hedge & Hends). exists edge. split; [|done].
  unfold computeSectionEdges. apply list_elem_of_filter. split; [|done].
  assert (Hu : u ∈ ids) by (apply Hmem; exists k; split; [lia|done]).
  assert (Hv : v ∈ ids).
  { apply Hmem. exists (Datatypes.S k). split; [done|].
    econstructor; [exact Hwalk|]. by exists edge. }
  by destruct Hends as [-> | ->].
Qed.

End SectionOrderTheorems.
